(** * rotonde-uavtalk: the UAVTalk framing layer and the dispatch hub

    A shallow embedding of [uavtalkconnection/uavtalk.go] and
    [dispatcher/dispatcher.go].  Go values are modelled as follows.

    - [int], [uint8], [uint16], [uint32] are [Z]; a conversion to a
      fixed width is written out as [_ mod 2 ^ w].
    - a byte is [Init.Byte.byte]; little-endian fields use coqutil's
      [le_split] and [le_combine].
    - a [[]byte] slice keeps the part of its backing array that lies
      between its length and its capacity ([GoSlice.t]), because a slice
      expression is checked against the capacity, not the length.
    - a run-time panic is the outcome [Panic]; a Go [error] result is a
      value inside [Ret].
    - [*Connection] is an address into a store of connection records.
    - [map[string]interface{}] is a [gmap string _]. *)

From Stdlib Require Import ZArith List Lia String Ascii.
From coqutil Require Import Byte Word.LittleEndianList.
From stdpp Require Import base list gmap strings.

Local Open Scope Z_scope.

(** ** Outcomes of Go code that may panic *)

Inductive outcome (A : Type) : Type :=
| Ret (a : A)
| Panic.
Arguments Ret {A} a.
Arguments Panic {A}.

#[global] Instance outcome_ret : MRet outcome := @Ret.
#[global] Instance outcome_bind : MBind outcome := fun A B f m =>
  match m with
  | Ret a => f a
  | Panic => Panic
  end.

(** [l[i]] for a Go [int] index: out of range panics. *)
Definition index {A : Type} (l : list A) (i : Z) : outcome A :=
  if bool_decide (0 <= i < Z.of_nat (length l))
  then match l !! Z.to_nat i with
       | Some a => Ret a
       | None => Panic
       end
  else Panic.

(** ** Package common: the data model read by both packages *)

(** Modelled from the spec: the closed set of wire types of a field
    ([common.TypeInfos] is not part of the two source files). *)
Inductive FieldType : Type :=
| TInt8 | TInt16 | TInt32
| TUInt8 | TUInt16 | TUInt32
| TFloat32
| TEnum.

#[global] Instance FieldType_eq_dec : EqDecision FieldType.
Proof. solve_decision. Defined.

(** Modelled from the spec: [common.Field], with the members that
    [newDefinition] reads and writes.  [FieldTypeInfo] is [None] for the
    nil pointer. *)
Module Field.
Record t : Type := mk {
    Name : string;
    Type_ : string;
    Elements : Z;
    ElementNamesAttr : string;
    ElementNames : list string;
    OptionsAttr : string;
    Options : list string;
    CloneOf : string;
    FieldTypeInfo : option FieldType
  }.
End Field.

(** Modelled from the spec: [common.Definition], with the members the
    source uses. *)
Module Def.
Record t : Type := mk {
    Name : string;
    ObjectID : Z;
    SingleInstance : bool;
    Fields : list Field.t
  }.
End Def.

(** Modelled from the spec: [Definitions.GetDefinitionForObjectID] is the
    registry operation [lookupByID(id) -> Definition | NotFound]; a
    [common.Definitions] value is a slice of definitions, searched in
    order.  [None] stands for the returned error. *)
Fixpoint GetDefinitionForObjectID (definitions : list Def.t) (objectID : Z)
  : option Def.t :=
  match definitions with
  | [] => None
  | definition :: rest =>
      if Def.ObjectID definition =? objectID then Some definition
      else GetDefinitionForObjectID rest objectID
  end.

(** Modelled from the spec: the decoded value of one element of a field.
    A [float32] is kept as its IEEE-754 bit pattern, an enumerated value as
    the option's symbolic name. *)
Inductive Scalar : Type :=
| SInt (z : Z)
| SFloat32 (bits : Z)
| SOption (name : string).

#[global] Instance Scalar_eq_dec : EqDecision Scalar.
Proof. solve_decision. Defined.

(** [map[string]interface{}]: field name to the sequence of the field's
    elements. *)
Abbreviation Object := (gmap string (list Scalar)).

(** ** Package dispatcher *)

Module Update.
Record t : Type := mk { ObjectID : Z; InstanceID : Z; Data : Object }.
End Update.

Module Request.
Record t : Type := mk { ObjectID : Z; InstanceID : Z }.
End Request.

Module Subscription.
Record t : Type := mk { ObjectID : Z }.
End Subscription.

(** Addresses of [Connection] records and identities of channels. *)
Definition ptr := nat.
Definition chan := nat.

(** The dynamic type of a value travelling through a [chan interface{}]. *)
Inductive Message : Type :=
| MsgUpdate (u : Update.t)
| MsgSubscription (s : Subscription.t)
| MsgDefinition (d : Def.t)
| MsgRequest (r : Request.t)
| MsgConnection (c : ptr)
| MsgOther.

(** [InChan] is modelled by the sequence of values the hub has sent into
    it (a send on a full channel only delays the hub).  [OutChan] is
    modelled by its identity: the hub only registers it in a select
    case. *)
Module Connection.
Record t : Type := mk {
    definitions : list Def.t;
    subscriptions : list Z;
    InChan : list Message;
    OutChan : chan
  }.
End Connection.

Inductive SelectDir : Type := SelectSend | SelectRecv | SelectDefault.

Record SelectCase : Type := mkSelectCase { Dir : SelectDir; Chan : chan }.

Module Dispatcher.
Record t : Type := mk {
    connections : list ptr;
    cases : list SelectCase;
    connectionChan : chan
  }.
End Dispatcher.

(** The store of connection records the hub's pointers refer to. *)
Abbreviation heap := (gmap ptr Connection.t).

Definition NewDispatcher (connectionChan : chan) : Dispatcher.t :=
  Dispatcher.mk [] ([] ++ [mkSelectCase SelectRecv connectionChan])
                connectionChan.

Definition addConnection (h : heap) (connection : ptr) (d : Dispatcher.t)
  : outcome Dispatcher.t :=
  match h !! connection with
  | None => Panic
  | Some c =>
      Ret (Dispatcher.mk
             (Dispatcher.connections d ++ [connection])
             (Dispatcher.cases d
                ++ [mkSelectCase SelectRecv (Connection.OutChan c)])
             (Dispatcher.connectionChan d))
  end.

(** [s[lo:]] on a slice of length [length l]: [lo] must lie in
    [0 .. len]. *)
Definition slice_from {A : Type} (l : list A) (lo : Z) : outcome (list A) :=
  if bool_decide (0 <= lo <= Z.of_nat (length l))
  then Ret (drop (Z.to_nat lo) l)
  else Panic.

(** [s[:hi]], with [hi] in [0 .. len]. *)
Definition slice_to {A : Type} (l : list A) (hi : Z) : outcome (list A) :=
  if bool_decide (0 <= hi <= Z.of_nat (length l))
  then Ret (take (Z.to_nat hi) l)
  else Panic.

(** The builtin [copy(dst, src)]: the first [min (len dst) (len src)]
    elements of [dst] are overwritten. *)
Definition go_copy {A : Type} (dst src : list A) : list A :=
  let n := Nat.min (length dst) (length src) in
  take n src ++ drop n dst.

(** [copy(l[lo:], l[lo+k:])] seen on the whole of [l]. *)
Definition shift_down {A : Type} (l : list A) (lo k : Z) : outcome (list A) :=
  dst ← slice_from l lo;
  src ← slice_from l (lo + k);
  Ret (take (Z.to_nat lo) l ++ go_copy dst src).

(** The nil [*Connection]. *)
Definition nil_ptr : ptr := 0%nat.

Definition removeConnectionAt (index_ : Z) (d : Dispatcher.t)
  : outcome Dispatcher.t :=
  let connections := Dispatcher.connections d in
  let cases := Dispatcher.cases d in
  '(connections, cases) ←
    (if bool_decide (index_ < Z.of_nat (length connections))
     then connections' ← shift_down connections index_ 1;
          cases' ← shift_down cases (index_ + 1) 1;
          Ret (connections', cases')
     else Ret (connections, cases));
  _ ← index connections (Z.of_nat (length connections) - 1);
  let connections :=
    <[Z.to_nat (Z.of_nat (length connections) - 1) := nil_ptr]> connections in
  connections ← slice_to connections (Z.of_nat (length connections) - 1);
  cases ← slice_to cases (Z.of_nat (length cases) - 1);
  Ret (Dispatcher.mk connections cases (Dispatcher.connectionChan d)).

(** The inner loop of [dispatchUpdate]: does [subscriptions] hold
    [objectID]? *)
Definition subscribed_to (subscriptions : list Z) (objectID : Z) : bool :=
  fold_left (fun subscribed o => if o =? objectID then true else subscribed)
            subscriptions false.

(** The connection record after [ms] have been sent into its [InChan]. *)
Definition enqueue (ms : list Message) (c : Connection.t) : Connection.t :=
  Connection.mk (Connection.definitions c) (Connection.subscriptions c)
                (Connection.InChan c ++ ms) (Connection.OutChan c).

(** [connection.InChan <- m] *)
Definition send (connection : ptr) (m : Message) (h : heap) : outcome heap :=
  match h !! connection with
  | None => Panic
  | Some c => Ret (<[connection := enqueue [m] c]> h)
  end.

(** [for i, connection := range connections], started at index [i]. *)
Fixpoint dispatchUpdate_loop (i : Z) (connections : list ptr) (from : Z)
    (update : Update.t) (h : heap) : outcome heap :=
  match connections with
  | [] => Ret h
  | connection :: rest =>
      if i =? from then dispatchUpdate_loop (i + 1) rest from update h
      else
        match h !! connection with
        | None => Panic
        | Some c =>
            if subscribed_to (Connection.subscriptions c)
                             (Update.ObjectID update)
            then h' ← send connection (MsgUpdate update) h;
                 dispatchUpdate_loop (i + 1) rest from update h'
            else dispatchUpdate_loop (i + 1) rest from update h
        end
  end.

Definition dispatchUpdate (from : Z) (update : Update.t)
    (d : Dispatcher.t) (h : heap) : outcome heap :=
  dispatchUpdate_loop 0 (Dispatcher.connections d) from update h.

Fixpoint dispatchDefinition_loop (i : Z) (connections : list ptr) (from : Z)
    (definition : Def.t) (h : heap) : outcome heap :=
  match connections with
  | [] => Ret h
  | connection :: rest =>
      if i =? from then dispatchDefinition_loop (i + 1) rest from definition h
      else h' ← send connection (MsgDefinition definition) h;
           dispatchDefinition_loop (i + 1) rest from definition h'
  end.

Definition dispatchDefinition (from : Z) (definition : Def.t)
    (d : Dispatcher.t) (h : heap) : outcome heap :=
  dispatchDefinition_loop 0 (Dispatcher.connections d) from definition h.

(** The source forwards when the lookup returns an error. *)
Fixpoint dispatchRequest_loop (connections : list ptr) (request : Request.t)
    (h : heap) : outcome heap :=
  match connections with
  | [] => Ret h
  | connection :: rest =>
      match h !! connection with
      | None => Panic
      | Some c =>
          match GetDefinitionForObjectID (Connection.definitions c)
                                         (Request.ObjectID request) with
          | None => send connection (MsgRequest request) h
          | Some _ => dispatchRequest_loop rest request h
          end
      end
  end.

Definition dispatchRequest (request : Request.t)
    (d : Dispatcher.t) (h : heap) : outcome heap :=
  dispatchRequest_loop (Dispatcher.connections d) request h.

(** One call of [processChannels], as a function of what [reflect.Select]
    returned. *)
Definition processChannels (chosen : Z) (value : Message) (ok : bool)
    (d : Dispatcher.t) (h : heap) : outcome (Dispatcher.t * heap) :=
  if negb ok then
    d' ← removeConnectionAt (chosen - 1) d; Ret (d', h)
  else
    match value with
    | MsgUpdate data =>
        h' ← dispatchUpdate (chosen - 1) data d h; Ret (d, h')
    | MsgSubscription data =>
        connection ← index (Dispatcher.connections d) (chosen - 1);
        match h !! connection with
        | None => Panic
        | Some c =>
            Ret (d, <[connection :=
                        Connection.mk
                          (Connection.definitions c)
                          (Connection.subscriptions c
                             ++ [Subscription.ObjectID data])
                          (Connection.InChan c)
                          (Connection.OutChan c)]> h)
        end
    | MsgDefinition data =>
        connection ← index (Dispatcher.connections d) (chosen - 1);
        match h !! connection with
        | None => Panic
        | Some c =>
            let h1 := <[connection :=
                          Connection.mk
                            (Connection.definitions c ++ [data])
                            (Connection.subscriptions c)
                            (Connection.InChan c)
                            (Connection.OutChan c)]> h in
            h' ← dispatchDefinition (chosen - 1) data d h1; Ret (d, h')
        end
    | MsgRequest data =>
        h' ← dispatchRequest data d h; Ret (d, h')
    | MsgConnection data =>
        d' ← addConnection h data d; Ret (d', h)
    | MsgOther => Ret (d, h)
    end.

(** The bookkeeping invariant of the hub: [cases] is [connections] shifted
    by one, behind the case of [connectionChan]. *)
Definition cases_in_step (h : heap) (d : Dispatcher.t) : Prop :=
  length (Dispatcher.cases d) = S (length (Dispatcher.connections d))
  ∧ Dispatcher.cases d !! 0%nat
    = Some (mkSelectCase SelectRecv (Dispatcher.connectionChan d))
  ∧ ∀ (i : nat) (connection : ptr),
      Dispatcher.connections d !! i = Some connection →
      ∃ c, h !! connection = Some c
           ∧ Dispatcher.cases d !! S i
             = Some (mkSelectCase SelectRecv (Connection.OutChan c)).

(** States of the dispatcher built from [NewDispatcher] by [addConnection]
    and by [removeConnectionAt] at an index of a registered connection. *)
Inductive hub_reachable (h : heap) (connectionChan : chan)
  : Dispatcher.t → Prop :=
| reach_new : hub_reachable h connectionChan (NewDispatcher connectionChan)
| reach_add d connection d' :
    hub_reachable h connectionChan d →
    addConnection h connection d = Ret d' →
    hub_reachable h connectionChan d'
| reach_remove d index_ d' :
    hub_reachable h connectionChan d →
    0 <= index_ < Z.of_nat (length (Dispatcher.connections d)) →
    removeConnectionAt index_ d = Ret d' →
    hub_reachable h connectionChan d'.

(** The connection registered at slot [i] of the hub, for a Go [int]. *)
Definition connection_at (d : Dispatcher.t) (i : Z) : option ptr :=
  if bool_decide (0 <= i) then Dispatcher.connections d !! Z.to_nat i
  else None.

(** Does the record at [p] list [objectID] among its subscriptions? *)
Definition is_subscribed (h : heap) (p : ptr) (objectID : Z) : bool :=
  match h !! p with
  | Some c => bool_decide (objectID ∈ Connection.subscriptions c)
  | None => false
  end.

(** How many of the slots [i, i+1, ...] holding [connections] are a
    registration of [p] that [dispatchUpdate] serves: the slot is not
    [from] and the connection is subscribed to [objectID]. *)
Fixpoint served_slots (h : heap) (i : Z) (connections : list ptr) (from : Z)
    (objectID : Z) (p : ptr) : nat :=
  match connections with
  | [] => 0%nat
  | connection :: rest =>
      ((if bool_decide (i ≠ from ∧ connection = p) && is_subscribed h p objectID
        then 1 else 0)
       + served_slots h (i + 1) rest from objectID p)%nat
  end.

(** The hub's loop ([Start]) driven by a sequence of results of
    [reflect.Select]. *)
Fixpoint run (events : list (Z * Message * bool)) (d : Dispatcher.t)
    (h : heap) : outcome (Dispatcher.t * heap) :=
  match events with
  | [] => Ret (d, h)
  | (chosen, value, ok) :: rest =>
      '(d', h') ← processChannels chosen value ok d h;
      run rest d' h'
  end.

(** Two connection records that differ at most in how often an object ID
    is listed among the subscriptions. *)
Definition same_subscriber (c1 c2 : Connection.t) : Prop :=
  Connection.definitions c1 = Connection.definitions c2
  ∧ Connection.InChan c1 = Connection.InChan c2
  ∧ Connection.OutChan c1 = Connection.OutChan c2
  ∧ ∀ objectID, objectID ∈ Connection.subscriptions c1
                ↔ objectID ∈ Connection.subscriptions c2.

Definition same_subscribers (h1 h2 : heap) : Prop :=
  ∀ p, option_Forall2 same_subscriber (h1 !! p) (h2 !! p).

(** Both runs panic, or both return and the results are related. *)
Definition outcome_rel {A B : Type} (R : A → B → Prop)
    (o1 : outcome A) (o2 : outcome B) : Prop :=
  match o1, o2 with
  | Ret a, Ret b => R a b
  | Panic, Panic => True
  | _, _ => False
  end.

Definition same_hub (s1 s2 : Dispatcher.t * heap) : Prop :=
  s1.1 = s2.1 ∧ same_subscribers s1.2 s2.2.

(** ** Package uavtalkconnection: byte slices *)

#[global] Instance byte_eq_dec : EqDecision byte := Byte.byte_eq_dec.

(** A [[]byte] value: [elems] are the bytes below the length, [spare] the
    bytes of the backing array between the length and the capacity. *)
Module GoSlice.
Record t : Type := mk { elems : list byte; spare : list byte }.

Definition len (s : t) : Z := Z.of_nat (length (elems s)).

Definition cap (s : t) : Z :=
  Z.of_nat (length (elems s)) + Z.of_nat (length (spare s)).

(** [s[i]]: checked against the length. *)
Definition at_ (s : t) (i : Z) : outcome byte := index (elems s) i.

(** [s[lo:hi]]: checked against the capacity. *)
Definition slice (s : t) (lo hi : Z) : outcome t :=
  if bool_decide (0 <= lo ∧ lo <= hi ∧ hi <= cap s)
  then let backing := elems s ++ spare s in
       Ret (mk (take (Z.to_nat (hi - lo)) (drop (Z.to_nat lo) backing))
               (drop (Z.to_nat hi) backing))
  else Panic.

(** [copy(dst, src)] seen on [dst]. *)
Definition copy_into (dst src : t) : t :=
  mk (go_copy (elems dst) (elems src)) (spare dst).
End GoSlice.

Definition versionMask : Z := 0x20.
Definition shortHeaderLength : Z := 8.
Definition maxHIDFrameSize : Z := 64.

Definition objectCmd : Z := 0.
Definition objectRequest : Z := 1.
Definition objectCmdWithAck : Z := 2.
Definition objectAck : Z := 3.
Definition objectNack : Z := 4.

(** Values of Go's [error] that the package produces. *)
Inductive error : Type :=
| WrongCrc8
| ObjectIDNotFound (objectID : Z)
| CodecError (field : string)
| UnknownFieldType (name : string)
| FieldNotFound (name : string).

Inductive result (A : Type) : Type :=
| Ok (a : A)
| Err (e : error).
Arguments Ok {A} a.
Arguments Err {A} e.

Definition byteArrayToInt32 (b : GoSlice.t) : outcome Z :=
  match GoSlice.elems b with
  | [b0; b1; b2; b3] =>
      Ret (Z.lor (Z.lor (Z.lor (Z.shiftl (byte.unsigned b3) 24 mod 2 ^ 32)
                               (Z.shiftl (byte.unsigned b2) 16 mod 2 ^ 32))
                        (Z.shiftl (byte.unsigned b1) 8 mod 2 ^ 32))
                 (byte.unsigned b0))
  | _ => Panic
  end.

Definition byteArrayToInt16 (b : GoSlice.t) : outcome Z :=
  match GoSlice.elems b with
  | [b0; b1] =>
      Ret (Z.lor (Z.shiftl (byte.unsigned b1) 8 mod 2 ^ 16) (byte.unsigned b0))
  | _ => Panic
  end.

(** The scan for the sync byte: the index of the first [0x3c] at or after
    position [i], or [-1]. *)
Fixpoint find_sync (i : Z) (packet : list byte) : Z :=
  match packet with
  | [] => -1
  | b :: rest =>
      if bool_decide (b = Byte.x3c) then i else find_sync (i + 1) rest
  end.

Module Packet.
Record t : Type := mk {
    definition : Def.t;
    cmd : Z;
    length : Z;
    instanceID : Z;
    data : Object
  }.
End Packet.

(** ** The codec *)

(** Modelled from the spec: the wire width of an enumerated field is the
    one implied by the number of its options; the index of an option is
    written in that width. *)
Definition enum_width (options : list string) : nat :=
  if Z.of_nat (length options) <=? 2 ^ 8 then 1%nat
  else if Z.of_nat (length options) <=? 2 ^ 16 then 2%nat
  else 4%nat.

(** Modelled from the spec: the fixed wire width of one element. *)
Definition wire_size (t : FieldType) (options : list string) : nat :=
  match t with
  | TInt8 | TUInt8 => 1%nat
  | TInt16 | TUInt16 => 2%nat
  | TInt32 | TUInt32 | TFloat32 => 4%nat
  | TEnum => enum_width options
  end.

(** The repeat count of a field. *)
Definition element_count (f : Field.t) : nat := Z.to_nat (Field.Elements f).

Definition field_wire_size (f : Field.t) : nat :=
  match Field.FieldTypeInfo f with
  | Some t => wire_size t (Field.Options f)
  | None => 0%nat
  end.

(** Modelled from the spec: [byteLength] of a field is the sum of the wire
    sizes of its elements. *)
Definition Field_ByteLength (f : Field.t) : Z :=
  Z.of_nat (element_count f * field_wire_size f).

(** Modelled from the spec: [Fields.ByteLength], the payload size of a
    definition. *)
Definition ByteLength (fields : list Field.t) : Z :=
  fold_left (fun n f => n + Field_ByteLength f) fields 0.

(** The index of the first occurrence of [name] among [options]. *)
Definition index_of (name : string) (options : list string) : option nat :=
  fst <$> list_find (λ o, o = name) options.

(** A [w]-bit pattern read as a two's complement number. *)
Definition signed (w : Z) (u : Z) : Z :=
  if u <? 2 ^ (w - 1) then u else u - 2 ^ w.

(** Modelled from the spec: one element in its fixed wire width,
    multi-byte values little-endian, an enumerated value as the index of
    its option. *)
Definition encode_scalar (t : FieldType) (options : list string) (v : Scalar)
  : option (list byte) :=
  match t, v with
  | (TInt8 | TUInt8 | TInt16 | TUInt16 | TInt32 | TUInt32), SInt z =>
      Some (le_split (wire_size t options) z)
  | TFloat32, SFloat32 bits => Some (le_split 4 bits)
  | TEnum, SOption name =>
      i ← index_of name options;
      Some (le_split (enum_width options) (Z.of_nat i))
  | _, _ => None
  end.

(** Modelled from the spec: the inverse of [encode_scalar] on exactly the
    bytes of one element. *)
Definition decode_scalar (t : FieldType) (options : list string)
    (bs : list byte) : option Scalar :=
  match t with
  | TUInt8 | TUInt16 | TUInt32 => Some (SInt (le_combine bs))
  | TInt8 | TInt16 | TInt32 =>
      Some (SInt (signed (8 * Z.of_nat (length bs)) (le_combine bs)))
  | TFloat32 => Some (SFloat32 (le_combine bs))
  | TEnum => name ← options !! Z.to_nat (le_combine bs); Some (SOption name)
  end.

Fixpoint encode_elements (t : FieldType) (options : list string)
    (vs : list Scalar) : option (list byte) :=
  match vs with
  | [] => Some []
  | v :: rest =>
      bs ← encode_scalar t options v;
      more ← encode_elements t options rest;
      Some (bs ++ more)
  end.

Fixpoint decode_elements (t : FieldType) (options : list string) (n : nat)
    (bytes : list byte) : option (list Scalar * list byte) :=
  match n with
  | O => Some ([], bytes)
  | S n =>
      let w := wire_size t options in
      if bool_decide (length bytes < w)%nat then None
      else
        v ← decode_scalar t options (take w bytes);
        '(vs, rest) ← decode_elements t options n (drop w bytes);
        Some (v :: vs, rest)
  end.

Fixpoint encode_fields (fields : list Field.t) (data : Object)
  : result (list byte) :=
  match fields with
  | [] => Ok []
  | f :: rest =>
      match data !! Field.Name f, Field.FieldTypeInfo f with
      | Some vs, Some t =>
          if bool_decide (length vs = element_count f)
          then match encode_elements t (Field.Options f) vs with
               | Some bs =>
                   match encode_fields rest data with
                   | Ok more => Ok (bs ++ more)
                   | Err e => Err e
                   end
               | None => Err (CodecError (Field.Name f))
               end
          else Err (CodecError (Field.Name f))
      | _, _ => Err (CodecError (Field.Name f))
      end
  end.

Fixpoint decode_fields (fields : list Field.t) (bytes : list byte)
    (data : Object) : result Object :=
  match fields with
  | [] => Ok data
  | f :: rest =>
      match Field.FieldTypeInfo f with
      | Some t =>
          match decode_elements t (Field.Options f) (element_count f) bytes with
          | Some (vs, bytes') =>
              decode_fields rest bytes' (<[Field.Name f := vs]> data)
          | None => Err (CodecError (Field.Name f))
          end
      | None => Err (CodecError (Field.Name f))
      end
  end.

(** Modelled from the spec: [mapToUAVTalk] is the codec's [encode]: every
    field in the order of [definition.Fields], element by element; a key
    missing from [data] is an encoding error. *)
Definition mapToUAVTalk (definition : Def.t) (data : Object)
  : result (list byte) :=
  encode_fields (Def.Fields definition) data.

(** Modelled from the spec: [uAVTalkToMap] is the codec's [decode]: it
    fails on fewer bytes than the definition's byte length and reads the
    fields at their fixed widths. *)
Definition uAVTalkToMap (definition : Def.t) (bytes : list byte)
  : result Object :=
  if bool_decide (Z.of_nat (length bytes) < ByteLength (Def.Fields definition))
  then Err (CodecError (Def.Name definition))
  else decode_fields (Def.Fields definition) bytes ∅.

(** A value that the wire type can carry. *)
Definition fits (t : FieldType) (options : list string) (v : Scalar) : Prop :=
  match t, v with
  | TInt8, SInt z => - 2 ^ 7 <= z < 2 ^ 7
  | TInt16, SInt z => - 2 ^ 15 <= z < 2 ^ 15
  | TInt32, SInt z => - 2 ^ 31 <= z < 2 ^ 31
  | TUInt8, SInt z => 0 <= z < 2 ^ 8
  | TUInt16, SInt z => 0 <= z < 2 ^ 16
  | TUInt32, SInt z => 0 <= z < 2 ^ 32
  | TFloat32, SFloat32 bits => 0 <= bits < 2 ^ 32
  | TEnum, SOption name =>
      ∃ i, index_of name options = Some i ∧ Z.of_nat i < 2 ^ 32
  | _, _ => False
  end.

(** A data map that covers the fields of [definition] and nothing else,
    with as many elements per field as the field repeats and every element
    in the range of the field's type. *)
Definition well_formed (definition : Def.t) (data : Object) : Prop :=
  (∀ f, f ∈ Def.Fields definition →
        ∃ t vs, Field.FieldTypeInfo f = Some t
                ∧ data !! Field.Name f = Some vs
                ∧ length vs = element_count f
                ∧ Forall (fits t (Field.Options f)) vs)
  ∧ ∀ name, is_Some (data !! name) →
            ∃ f, f ∈ Def.Fields definition ∧ Field.Name f = name.

(** ** Frames *)

Definition newPacket (definition : Def.t) (cmd : Z) (instanceID : Z)
    (data : Object) : Packet.t :=
  let fieldsLength :=
    if bool_decide (cmd = objectCmd ∨ cmd = objectCmdWithAck)
    then ByteLength (Def.Fields definition)
    else 0 in
  let length :=
    if negb (Def.SingleInstance definition)
    then (shortHeaderLength + fieldsLength + 2) mod 2 ^ 16
    else (shortHeaderLength + fieldsLength) mod 2 ^ 16 in
  Packet.mk definition cmd length instanceID data.

(** What the inner loop of the reader in [Start] did in one turn. *)
Inductive turn : Type :=
| Break
| Continue (packet : GoSlice.t) (sent : option Packet.t) (warning : option error).

(** [copy(packet, packet[to:]); packet = packet[0 : len(packet)-to]] *)
Definition discard (packet : GoSlice.t) (to : Z) : outcome GoSlice.t :=
  rest ← GoSlice.slice packet to (GoSlice.len packet);
  let packet := GoSlice.copy_into packet rest in
  GoSlice.slice packet 0 (GoSlice.len packet - to).

Section Framing.

(** [computeCrc8] belongs to the package but not to the two source files,
    and the checksum variant is left open; the frame layer is embedded for
    an arbitrary checksum function. *)
Variable computeCrc8 : byte → list byte → byte.

(** The package-level variable [definitions], the schema registry. *)
Variable definitions : list Def.t.

Definition toBinary (packet : Packet.t) : result (list byte) :=
  let writer := [] in
  let writer := writer ++ [byte.of_Z 0x3c] in
  let writer := writer ++ [byte.of_Z (Z.lor (Packet.cmd packet) versionMask)] in
  let writer := writer ++ le_split 2 (Packet.length packet) in
  let writer :=
    writer ++ le_split 4 (Def.ObjectID (Packet.definition packet)) in
  let writer :=
    if negb (Def.SingleInstance (Packet.definition packet))
    then writer ++ le_split 2 (Packet.instanceID packet)
    else writer in
  match
    (if bool_decide (Packet.cmd packet = objectCmd
                     ∨ Packet.cmd packet = objectCmdWithAck)
     then match mapToUAVTalk (Packet.definition packet) (Packet.data packet) with
          | Ok data => Ok (writer ++ data)
          | Err e => Err e
          end
     else Ok writer)
  with
  | Err e => Err e
  | Ok writer =>
      let cks := computeCrc8 (byte.of_Z 0) writer in
      Ok (writer ++ [cks])
  end.

Definition packetComplete (packet : GoSlice.t)
  : outcome (bool * Z * Z * option error) :=
  let offset := find_sync 0 (GoSlice.elems packet) in
  if offset <? 0 then Ret (false, 0, 0, None)
  else
    header ← GoSlice.slice packet (offset + 2) (offset + 4);
    length ← byteArrayToInt16 header;
    if length + 1 >? GoSlice.len packet - offset then Ret (false, 0, 0, None)
    else
      cks ← GoSlice.at_ packet (offset + length);
      body ← GoSlice.slice packet offset (offset + length);
      if bool_decide (cks ≠ computeCrc8 (byte.of_Z 0) (GoSlice.elems body))
      then Ret (false, offset, offset + length + 1, Some WrongCrc8)
      else Ret (true, offset, offset + length + 1, None).

Definition newPacketFromBinary (binaryPacket : GoSlice.t)
  : outcome (result Packet.t) :=
  let headerSize := shortHeaderLength in
  b1 ← GoSlice.at_ binaryPacket 1;
  let cmd := Z.lxor (byte.unsigned b1) versionMask in
  s ← GoSlice.slice binaryPacket 2 4;
  length ← byteArrayToInt16 s;
  s ← GoSlice.slice binaryPacket 4 8;
  objectID ← byteArrayToInt32 s;
  match GetDefinitionForObjectID definitions objectID with
  | None => Ret (Err (ObjectIDNotFound objectID))
  | Some definition =>
      '(instanceID, headerSize) ←
        (if negb (Def.SingleInstance definition)
         then s ← GoSlice.slice binaryPacket 8 10;
              instanceID ← byteArrayToInt16 s;
              Ret (instanceID, headerSize + 2)
         else Ret (0, headerSize));
      binaryData ← GoSlice.slice binaryPacket headerSize
                                 (GoSlice.len binaryPacket - 1);
      if bool_decide (cmd = objectCmd ∨ cmd = objectCmdWithAck)
      then match uAVTalkToMap definition (GoSlice.elems binaryData) with
           | Err e => Ret (Err e)
           | Ok data =>
               Ret (Ok (Packet.mk definition cmd length instanceID data))
           end
      else Ret (Ok (Packet.mk definition cmd length instanceID ∅))
  end.

(** One turn of the inner [for] of the reader goroutine in [Start]: scan,
    decode or warn, then move the bytes behind [to] to the front. *)
Definition read_turn (packet : GoSlice.t) : outcome turn :=
  '(ok, from, to, err) ← packetComplete packet;
  '(stop, sent, warning) ←
    match err with
    | None =>
        if negb ok then Ret (true, None, None)
        else
          frame ← GoSlice.slice packet from to;
          r ← newPacketFromBinary frame;
          match r with
          | Ok uavTalkObject => Ret (false, Some uavTalkObject, None)
          | Err e => Ret (false, None, Some e)
          end
    | Some e =>
        _ ← GoSlice.slice packet from to;
        Ret (false, None, Some e)
    end;
  if (stop : bool) then Ret Break
  else
    packet ← discard packet to;
    Ret (Continue packet sent warning).

End Framing.

(** The object ID field of a frame: bytes 4 to 7, little-endian. *)
Definition frame_objectID (frame : list byte) : Z :=
  le_combine (take 4 (drop 4 frame)).

(** The bytes [toBinary] writes before the payload. *)
Definition frame_header (packet : Packet.t) : list byte :=
  [byte.of_Z 0x3c; byte.of_Z (Z.lor (Packet.cmd packet) versionMask)]
    ++ le_split 2 (Packet.length packet)
    ++ le_split 4 (Def.ObjectID (Packet.definition packet))
    ++ (if negb (Def.SingleInstance (Packet.definition packet))
        then le_split 2 (Packet.instanceID packet)
        else []).

(** The registry resolves the definition's own object ID to it. *)
Definition registered (definitions : list Def.t) (definition : Def.t) : Prop :=
  GetDefinitionForObjectID definitions (Def.ObjectID definition)
  = Some definition.

(** A checksum function to evaluate examples with: the bitwise CRC-8 of
    polynomial [x^8 + x^2 + x + 1].  Nothing proved below depends on this
    choice. *)
Fixpoint crc8_shift (n : nat) (crc : Z) : Z :=
  match n with
  | O => crc
  | S n =>
      crc8_shift n
        (if Z.testbit crc 7 then Z.lxor (Z.shiftl crc 1 mod 2 ^ 8) 0x07
         else Z.shiftl crc 1 mod 2 ^ 8)
  end.

Definition crc8_example (crc : byte) (data : list byte) : byte :=
  byte.of_Z
    (fold_left (fun crc b => crc8_shift 8 (Z.lxor crc (byte.unsigned b)))
               data (byte.unsigned crc)).

(** ** Loading a definition *)

(** [strings.Split(s, sep)] for a separator of one character. *)
Fixpoint split_on (sep : ascii) (s : string) : list string :=
  match s with
  | EmptyString => [EmptyString]
  | String c rest =>
      if bool_decide (c = sep) then EmptyString :: split_on sep rest
      else match split_on sep rest with
           | [] => [String c EmptyString]
           | x :: xs => String c x :: xs
           end
  end.

Definition comma : ascii := Ascii.ascii_of_nat 44.

(** Modelled from the spec: [Fields.FieldForName], the field of that name
    (the first one in the order of the slice), or an error. *)
Fixpoint FieldForName (fields : list Field.t) (name : string)
  : option Field.t :=
  match fields with
  | [] => None
  | field :: rest =>
      if bool_decide (Field.Name field = name) then Some field
      else FieldForName rest name
  end.

(** [*field = *clonedField; field.Name, field.CloneOf = name, cloneOf] *)
Definition clone_of (clonedField field : Field.t) : Field.t :=
  Field.mk (Field.Name field)
           (Field.Type_ clonedField)
           (Field.Elements clonedField)
           (Field.ElementNamesAttr clonedField)
           (Field.ElementNames clonedField)
           (Field.OptionsAttr clonedField)
           (Field.Options clonedField)
           (Field.CloneOf field)
           (Field.FieldTypeInfo clonedField).

(** The second loop of [newDefinition], for the [n] fields from index [i]
    on; a field is overwritten in place. *)
Fixpoint create_clones (n : nat) (i : nat) (fields : list Field.t)
  : result (list Field.t) :=
  match n with
  | O => Ok fields
  | S n =>
      match fields !! i with
      | None => Ok fields
      | Some field =>
          if negb (Z.of_nat (String.length (Field.CloneOf field)) =? 0)
          then match FieldForName fields (Field.CloneOf field) with
               | None => Err (FieldNotFound (Field.CloneOf field))
               | Some clonedField =>
                   create_clones n (S i)
                     (<[i := clone_of clonedField field]> fields)
               end
          else create_clones n (S i) fields
      end
  end.

Section Loader.

(** [common.TypeInfos.FieldTypeForString], the order [Fields.Less] used by
    [sort.Stable], and [calculateID] are not part of the two source files;
    the loader is embedded for arbitrary ones. *)
Variable FieldTypeForString : string → option FieldType.
Variable less : Field.t → Field.t → bool.
Variable calculateID : Def.t → Z.

(** The body of the first loop of [newDefinition]. *)
Definition post_process (field : Field.t) : result Field.t :=
  if negb (Z.of_nat (String.length (Field.CloneOf field)) =? 0) then Ok field
  else
    let elements :=
      if Field.Elements field =? 0 then 1 else Field.Elements field in
    let '(elementNames, elements) :=
      if 0 <? Z.of_nat (String.length (Field.ElementNamesAttr field))
      then let names := split_on comma (Field.ElementNamesAttr field) in
           (names, Z.of_nat (length names))
      else if 0 <? Z.of_nat (length (Field.ElementNames field))
      then (Field.ElementNames field,
            Z.of_nat (length (Field.ElementNames field)))
      else (Field.ElementNames field, elements) in
    let options :=
      if 0 <? Z.of_nat (String.length (Field.OptionsAttr field))
      then split_on comma (Field.OptionsAttr field)
      else Field.Options field in
    match FieldTypeForString (Field.Type_ field) with
    | None => Err (UnknownFieldType (Field.Type_ field))
    | Some info =>
        Ok (Field.mk (Field.Name field) (Field.Type_ field) elements
                     (Field.ElementNamesAttr field) elementNames
                     (Field.OptionsAttr field) options
                     (Field.CloneOf field) (Some info))
    end.

(** The first loop: it stops at the first error. *)
Fixpoint post_process_all (fields : list Field.t) : result (list Field.t) :=
  match fields with
  | [] => Ok []
  | field :: rest =>
      match post_process field with
      | Err e => Err e
      | Ok field =>
          match post_process_all rest with
          | Err e => Err e
          | Ok rest => Ok (field :: rest)
          end
      end
  end.

(** [sort.Stable]: a stable insertion sort by [less]. *)
Fixpoint insert_stable (f : Field.t) (sorted : list Field.t) : list Field.t :=
  match sorted with
  | [] => [f]
  | g :: rest =>
      if less g f then g :: insert_stable f rest else f :: g :: rest
  end.

Definition sort_stable (fields : list Field.t) : list Field.t :=
  foldr insert_stable [] fields.

(** [newDefinition], from the decoded content of the file on. *)
Definition newDefinition (definition : Def.t) : result Def.t :=
  match post_process_all (Def.Fields definition) with
  | Err e => Err e
  | Ok fields =>
      match create_clones (length fields) 0 fields with
      | Err e => Err e
      | Ok fields =>
          let definition :=
            Def.mk (Def.Name definition) (Def.ObjectID definition)
                   (Def.SingleInstance definition) (sort_stable fields) in
          Ok (Def.mk (Def.Name definition) (calculateID definition)
                     (Def.SingleInstance definition) (Def.Fields definition))
      end
  end.

End Loader.

(** ** Sample values *)

(** The [HomeLocation] object of the scenario: single instance, three
    [float32] fields. *)
Definition float_field (name : string) : Field.t :=
  Field.mk name "float" 1 "" [] "" [] "" (Some TFloat32).

Definition homeLocation : Def.t :=
  Def.mk "HomeLocation" 0xCA32B032 true
         [float_field "Latitude"; float_field "Longitude";
          float_field "Altitude"].

Definition homeLocation_zero : Object :=
  <["Latitude" := [SFloat32 0]]>
    (<["Longitude" := [SFloat32 0]]> (<["Altitude" := [SFloat32 0]]> ∅)).

(** A connection that has announced nothing and one that has announced
    [HomeLocation]. *)
Definition silent_connection (out : chan) : Connection.t :=
  Connection.mk [] [] [] out.

Definition owner_connection (out : chan) : Connection.t :=
  Connection.mk [homeLocation] [] [] out.

Definition homeLocation_request : Request.t := Request.mk 0xCA32B032 0.

(** The frame of [HomeLocation] with all fields zero, under the example
    checksum: 8 header bytes, 12 payload bytes, 1 checksum byte. *)
Definition homeLocation_frame : list byte :=
  Eval vm_compute in
    match toBinary crc8_example
            (newPacket homeLocation objectCmd 0 homeLocation_zero) with
    | Ok bytes => bytes
    | Err _ => []
    end.

(** A hub store with a connection that announced nothing at address 1,
    the owner of [HomeLocation] at address 2 and a subscriber to
    [HomeLocation] at address 3. *)
Definition subscriber_connection (out : chan) : Connection.t :=
  Connection.mk [] [0xCA32B032] [] out.

Definition sample_heap : heap :=
  <[1%nat := silent_connection 11%nat]>
    (<[2%nat := owner_connection 12%nat]>
       (<[3%nat := subscriber_connection 13%nat]> ∅)).

Definition sample_hub : Dispatcher.t :=
  Dispatcher.mk [1%nat; 2%nat; 3%nat]
    [mkSelectCase SelectRecv 7%nat; mkSelectCase SelectRecv 11%nat;
     mkSelectCase SelectRecv 12%nat; mkSelectCase SelectRecv 13%nat]
    7%nat.

Definition homeLocation_update : Update.t :=
  Update.mk 0xCA32B032 0 homeLocation_zero.

(** A definition as decoded from a file: one [float] field and a clone of
    it, and a name table, an order and an ID function to load it with. *)
Definition sample_content : Def.t :=
  Def.mk "Sample" 0 true
         [Field.mk "Roll" "float" 0 "" [] "" [] "" None;
          Field.mk "Pitch" "" 0 "" [] "" [] "Roll" None].

Definition sample_FieldTypeForString (name : string) : option FieldType :=
  if bool_decide (name = "float") then Some TFloat32 else None.

Definition sample_less (f g : Field.t) : bool := false.

Definition sample_calculateID (definition : Def.t) : Z := 1.

Definition sample_loaded : Def.t :=
  Eval vm_compute in
    match newDefinition sample_FieldTypeForString sample_less
                        sample_calculateID sample_content with
    | Ok definition => definition
    | Err _ => sample_content
    end.

(** A forward chain of clones: [Yaw] copies [Pitch] before [Pitch] has
    copied [Roll]. *)
Definition chain_content : Def.t :=
  Def.mk "Chain" 0 true
         [Field.mk "Yaw" "" 0 "" [] "" [] "Pitch" None;
          Field.mk "Pitch" "" 0 "" [] "" [] "Roll" None;
          Field.mk "Roll" "float" 0 "" [] "" [] "" None].

(** [sample_heap] after the owner at address 2 has subscribed to
    [HomeLocation]. *)
Definition sample_heap_subscribed : heap :=
  <[2%nat := Connection.mk [homeLocation] [0xCA32B032] [] 12%nat]> sample_heap.

(** ** Proof steps used repeatedly *)

(** Reduce a bind whose first computation has returned. *)
Ltac ret_bind := cbn [mbind outcome_bind].

(** Bounds against the length of a slice given by its elements. *)
Ltac len_bound :=
  unfold GoSlice.len, shortHeaderLength; cbn [GoSlice.elems length];
  rewrite ?length_app; cbn [length]; lia.

(** ** Further notions for the hub and the reader *)

(** A connection record that has only been appended to: its definitions,
    subscriptions and inbound queue are extended at the end, and its
    [OutChan] is the same channel. *)
Definition grows (c c' : Connection.t) : Prop :=
  Connection.definitions c `prefix_of` Connection.definitions c'
  ∧ Connection.subscriptions c `prefix_of` Connection.subscriptions c'
  ∧ Connection.InChan c `prefix_of` Connection.InChan c'
  ∧ Connection.OutChan c = Connection.OutChan c'.

(** The same addresses hold records, and every record has only grown. *)
Definition heap_grows (h h' : heap) : Prop :=
  ∀ p, match h !! p with
       | Some c => ∃ c', h' !! p = Some c' ∧ grows c c'
       | None => h' !! p = None
       end.

(** How many of the slots [i, i+1, ...] holding [connections] are a
    registration of [p] at a slot other than [from]. *)
Fixpoint other_slots (i : Z) (connections : list ptr) (from : Z) (p : ptr)
  : nat :=
  match connections with
  | [] => 0%nat
  | connection :: rest =>
      ((if bool_decide (i ≠ from ∧ connection = p) then 1 else 0)
       + other_slots (i + 1) rest from p)%nat
  end.

(** The connection record after it has announced [definition]. *)
Definition announce (definition : Def.t) (c : Connection.t) : Connection.t :=
  Connection.mk (Connection.definitions c ++ [definition])
                (Connection.subscriptions c) (Connection.InChan c)
                (Connection.OutChan c).

Section Reader.

Variable computeCrc8 : byte → list byte → byte.
Variable definitions : list Def.t.

(** The inner [for] of the reader goroutine in [Start], for at most [fuel]
    turns: the buffer left at the [break], the packets sent to [outChan]
    and the warnings logged, in order; [None] when the turns run out. *)
Fixpoint read_loop (fuel : nat) (packet : GoSlice.t)
  : outcome (option (GoSlice.t * list Packet.t * list error)) :=
  match fuel with
  | O => Ret None
  | S fuel =>
      t ← read_turn computeCrc8 definitions packet;
      match t with
      | Break => Ret (Some (packet, [], []))
      | Continue packet' sent warning =>
          r ← read_loop fuel packet';
          match r with
          | None => Ret None
          | Some (final, packets, warnings) =>
              Ret (Some (final,
                         option_list sent ++ packets,
                         option_list warning ++ warnings))
          end
      end
  end.

(** The writer goroutine of [Start]: the bytes handed to [link.Write] for
    the packets taken from [inChan], in order; a packet that [toBinary]
    rejects is logged and skipped. *)
Fixpoint write_loop (packets : list Packet.t) : list byte :=
  match packets with
  | [] => []
  | packet :: rest =>
      match toBinary computeCrc8 packet with
      | Err _ => write_loop rest
      | Ok binaryPacket => binaryPacket ++ write_loop rest
      end
  end.

(** A packet made by [newPacket] to carry the data of an object: a Cmd or
    CmdWithAck of a registered definition, with a well-formed data map,
    whose frame fits the 16-bit length field. *)
Definition sendable (packet : Packet.t) : Prop :=
  registered definitions (Packet.definition packet)
  ∧ 0 <= Def.ObjectID (Packet.definition packet) < 2 ^ 32
  ∧ 0 <= Packet.instanceID packet < 2 ^ 16
  ∧ (Packet.cmd packet = objectCmd ∨ Packet.cmd packet = objectCmdWithAck)
  ∧ well_formed (Packet.definition packet) (Packet.data packet)
  ∧ ByteLength (Def.Fields (Packet.definition packet)) + 10 < 2 ^ 16
  ∧ packet = newPacket (Packet.definition packet) (Packet.cmd packet)
                       (Packet.instanceID packet) (Packet.data packet).

End Reader.

(** The packet as the wire carries it: the frame of a single-instance
    object has no instance ID, and the reader leaves that member 0. *)
Definition received (packet : Packet.t) : Packet.t :=
  Packet.mk (Packet.definition packet) (Packet.cmd packet)
            (Packet.length packet)
            (if Def.SingleInstance (Packet.definition packet) then 0
             else Packet.instanceID packet)
            (Packet.data packet).

(** * Properties of the dispatch hub *)

Section list_facts.
Context {A : Type}.
Implicit Types l : list A.

Lemma index_lookup l (i : nat) a :
  l !! i = Some a → index l (Z.of_nat i) = Ret a.
Proof.
  intros Hl. unfold index.
  pose proof (lookup_lt_Some _ _ _ Hl).
  rewrite bool_decide_true by lia.
  by rewrite Nat2Z.id, Hl.
Qed.

Lemma index_Ret l i a :
  index l i = Ret a → 0 <= i ∧ l !! Z.to_nat i = Some a.
Proof.
  unfold index. case_bool_decide; [|done].
  destruct (l !! Z.to_nat i) eqn:E; [|done].
  intros [= ->]. split; [lia|done].
Qed.

(** Shifting the tail down by one, overwriting the last cell and cutting
    it off is the deletion of one element. *)
Lemma shift_down_delete l (i : nat) (x : A) :
  (i < length l)%nat →
  ∃ l', shift_down l (Z.of_nat i) 1 = Ret l'
        ∧ length l' = length l
        ∧ take (length l - 1) (<[(length l - 1)%nat := x]> l') = delete i l.
Proof.
  intros Hi. unfold shift_down, slice_from.
  rewrite !bool_decide_true by lia. simpl.
  eexists. split; [done|].
  replace (Z.to_nat (Z.of_nat i + 1)) with (S i) by lia.
  rewrite Nat2Z.id. unfold go_copy.
  rewrite !length_drop.
  replace (Nat.min (length l - i) (length l - S i)) with (length l - S i)%nat
    by lia.
  rewrite (take_ge (drop (S i) l)) by (rewrite length_drop; lia).
  rewrite drop_drop.
  replace (i + (length l - S i))%nat with (length l - 1)%nat by lia.
  assert (Hlen : length (take i l ++ drop (S i) l ++ drop (length l - 1) l)
                 = length l).
  { rewrite !length_app, length_take, !length_drop. lia. }
  split; [done|].
  rewrite take_insert_ge by lia.
  rewrite !app_assoc, take_app_length'.
  - by rewrite delete_take_drop.
  - rewrite length_app, length_take, length_drop. lia.
Qed.

Lemma delete_beyond l (i : nat) : (length l ≤ i)%nat → delete i l = l.
Proof.
  intros Hi. rewrite delete_take_drop, take_ge, drop_ge by lia.
  apply app_nil_r.
Qed.

End list_facts.

Lemma removeConnectionAt_delete (d : Dispatcher.t) (i : nat) :
  (i < length (Dispatcher.connections d))%nat →
  length (Dispatcher.cases d) = S (length (Dispatcher.connections d)) →
  removeConnectionAt (Z.of_nat i) d
  = Ret (Dispatcher.mk (delete i (Dispatcher.connections d))
                       (delete (S i) (Dispatcher.cases d))
                       (Dispatcher.connectionChan d)).
Proof.
  intros Hi Hlen. unfold removeConnectionAt.
  rewrite bool_decide_true by lia.
  destruct (shift_down_delete (Dispatcher.connections d) i nil_ptr Hi)
    as (cs & -> & Hcs & Hdel).
  replace (Z.of_nat i + 1) with (Z.of_nat (S i)) by lia.
  destruct (shift_down_delete (Dispatcher.cases d) (S i)
              (mkSelectCase SelectRecv 0%nat) ltac:(lia))
    as (ks & -> & Hks & Hdelk).
  simpl.
  destruct (lookup_lt_is_Some_2 cs (length cs - 1) ltac:(lia)) as [p Hp].
  replace (Z.of_nat (length cs) - 1) with (Z.of_nat (length cs - 1)) by lia.
  rewrite (index_lookup _ _ _ Hp). simpl.
  unfold slice_to. rewrite length_insert, Nat2Z.id.
  rewrite !bool_decide_true by lia. simpl.
  replace (Z.to_nat (Z.of_nat (length cs) - 1)) with (length cs - 1)%nat
    by lia.
  replace (Z.to_nat (Z.of_nat (length ks) - 1)) with (length ks - 1)%nat
    by lia.
  rewrite Hcs, Hdel, Hks.
  rewrite take_insert_ge in Hdelk by lia.
  by rewrite Hdelk.
Qed.

Lemma cases_in_step_new h connectionChan :
  cases_in_step h (NewDispatcher connectionChan).
Proof. repeat split; [done..|]. intros i p Hp. by destruct i. Qed.

Lemma cases_in_step_add h connection d d' :
  cases_in_step h d → addConnection h connection d = Ret d' →
  cases_in_step h d'.
Proof.
  intros (Hlen & H0 & Hall). unfold addConnection.
  destruct (h !! connection) as [c|] eqn:Hc; [|done].
  intros [= <-]. repeat split; simpl.
  - rewrite !length_app. simpl. lia.
  - rewrite lookup_app_l by lia. done.
  - intros i p Hp.
    destruct (decide (i < length (Dispatcher.connections d))%nat) as [Hi|Hi].
    + rewrite lookup_app_l in Hp by done.
      destruct (Hall i p Hp) as (c' & Hc' & Hk).
      exists c'. split; [done|]. by rewrite lookup_app_l by lia.
    + rewrite lookup_app_r in Hp by lia.
      destruct (i - length (Dispatcher.connections d))%nat eqn:E;
        simpl in Hp; [|by destruct n].
      injection Hp as <-. exists c. split; [done|].
      rewrite lookup_app_r by lia.
      by replace (S i - length (Dispatcher.cases d))%nat with 0%nat by lia.
Qed.

Lemma cases_in_step_delete h d (i : nat) :
  cases_in_step h d →
  cases_in_step h (Dispatcher.mk (delete i (Dispatcher.connections d))
                                 (delete (S i) (Dispatcher.cases d))
                                 (Dispatcher.connectionChan d)).
Proof.
  intros (Hlen & H0 & Hall).
  destruct (decide (i < length (Dispatcher.connections d))%nat) as [Hi|Hi].
  - repeat split; simpl.
    + rewrite !length_delete; [lia| |];
        apply lookup_lt_is_Some_2; lia.
    + rewrite list_lookup_delete_lt by lia. done.
    + intros j p Hp.
      destruct (decide (j < i)%nat).
      * rewrite list_lookup_delete_lt in Hp by done.
        rewrite list_lookup_delete_lt by lia. by apply Hall.
      * rewrite list_lookup_delete_ge in Hp by lia.
        rewrite list_lookup_delete_ge by lia. by apply Hall.
  - rewrite !delete_beyond by lia. by destruct d.
Qed.

(** C10. In every state reached from [NewDispatcher] through
    [addConnection] and [removeConnectionAt] at the index of a registered
    connection, [cases] has one more element than [connections], its first
    element receives from [connectionChan], and the case at [i+1] receives
    from [connections[i].OutChan]; a removal at such an index deletes
    exactly that connection and exactly its case. *)
Theorem cases_track_connections (h : heap) (connectionChan : chan)
    (d : Dispatcher.t) :
  hub_reachable h connectionChan d →
  cases_in_step h d
  ∧ Dispatcher.connectionChan d = connectionChan
  ∧ ∀ i : nat,
      (i < length (Dispatcher.connections d))%nat →
      removeConnectionAt (Z.of_nat i) d
      = Ret (Dispatcher.mk (delete i (Dispatcher.connections d))
                           (delete (S i) (Dispatcher.cases d))
                           (Dispatcher.connectionChan d)).
Proof.
  intros Hreach.
  assert (Hinv : cases_in_step h d ∧ Dispatcher.connectionChan d = connectionChan).
  { induction Hreach as [|d p d' _ [IH Hcc] Hadd|d i d' _ [IH Hcc] Hi Hrm].
    - split; [apply cases_in_step_new|done].
    - split; [by eapply cases_in_step_add|].
      unfold addConnection in Hadd.
      destruct (h !! p); [|done]. by injection Hadd as <-.
    - replace i with (Z.of_nat (Z.to_nat i)) in Hrm by lia.
      rewrite removeConnectionAt_delete in Hrm by (destruct IH; lia).
      injection Hrm as <-. split; [by apply cases_in_step_delete|done]. }
  destruct Hinv as [Hinv Hcc]. repeat split; try apply Hinv; [done|].
  intros i Hi. apply removeConnectionAt_delete; [done|apply Hinv].
Qed.

(** ** Forwarding of updates *)

Lemma subscribed_to_from (subscriptions : list Z) (objectID : Z) (b : bool) :
  fold_left (fun subscribed o => if o =? objectID then true else subscribed)
            subscriptions b
  = b || bool_decide (objectID ∈ subscriptions).
Proof.
  revert b. induction subscriptions as [|o l IH]; intros b; simpl.
  - by rewrite orb_false_r.
  - rewrite IH. destruct (Z.eqb_spec o objectID) as [->|Hne].
    + rewrite (bool_decide_true (_ ∈ _ :: _)) by left.
      by rewrite orb_true_r.
    + destruct b; [done|]. simpl.
      apply bool_decide_ext. rewrite elem_of_cons. intuition congruence.
Qed.

Lemma subscribed_to_elem (subscriptions : list Z) (objectID : Z) :
  subscribed_to subscriptions objectID
  = bool_decide (objectID ∈ subscriptions).
Proof. apply subscribed_to_from. Qed.

Lemma enqueue_enqueue ms1 ms2 c :
  enqueue ms2 (enqueue ms1 c) = enqueue (ms1 ++ ms2) c.
Proof. unfold enqueue. simpl. by rewrite app_assoc. Qed.

Lemma enqueue_nil c : enqueue [] c = c.
Proof. destruct c. unfold enqueue. simpl. by rewrite app_nil_r. Qed.

Lemma is_subscribed_insert_enqueue (h : heap) q c ms p objectID :
  h !! q = Some c →
  is_subscribed (<[q := enqueue ms c]> h) p objectID
  = is_subscribed h p objectID.
Proof.
  intros Hq. unfold is_subscribed.
  destruct (decide (q = p)) as [->|Hne].
  - by rewrite lookup_insert_eq, Hq.
  - by rewrite lookup_insert_ne.
Qed.

Lemma served_slots_insert_enqueue (h : heap) q c ms i connections from
    objectID p :
  h !! q = Some c →
  served_slots (<[q := enqueue ms c]> h) i connections from objectID p
  = served_slots h i connections from objectID p.
Proof.
  intros Hq. revert i. induction connections as [|r rest IH]; intros i; simpl.
  - done.
  - by rewrite IH, (is_subscribed_insert_enqueue _ _ _ _ _ _ Hq).
Qed.

(** The loop sends one copy per served slot, and nothing else changes. *)
Lemma dispatchUpdate_loop_spec (connections : list ptr) (from : Z)
    (update : Update.t) :
  ∀ (i : Z) (h : heap),
    (∀ p, p ∈ connections → is_Some (h !! p)) →
    ∃ h', dispatchUpdate_loop i connections from update h = Ret h'
          ∧ ∀ p, h' !! p
                 = enqueue (replicate
                              (served_slots h i connections from
                                            (Update.ObjectID update) p)
                              (MsgUpdate update))
                   <$> h !! p.
Proof.
  induction connections as [|q rest IH]; intros i h Hlive; simpl.
  - exists h. split; [done|]. intros p.
    destruct (h !! p) as [c|]; simpl; [|done]. by rewrite enqueue_nil.
  - assert (Hrest : ∀ p, p ∈ rest → is_Some (h !! p)).
    { intros p Hp. apply Hlive. by right. }
    destruct (Z.eqb_spec i from) as [->|Hne].
    + destruct (IH (from + 1) h Hrest) as (h' & -> & Hh').
      exists h'. split; [done|]. intros p. rewrite Hh'.
      rewrite bool_decide_false by (by intros [? _]). done.
    + destruct (Hlive q ltac:(left)) as [c Hc]. rewrite Hc.
      rewrite subscribed_to_elem.
      case_bool_decide as Hsub.
      * unfold send. rewrite Hc. simpl.
        destruct (IH (i + 1) (<[q := enqueue [MsgUpdate update] c]> h))
          as (h' & -> & Hh').
        { intros p Hp. rewrite lookup_insert. case_decide; [done|].
          by apply Hrest. }
        exists h'. split; [done|]. intros p. rewrite Hh'.
        rewrite (served_slots_insert_enqueue _ _ _ _ _ _ _ _ _ Hc).
        destruct (decide (q = p)) as [->|Hqp].
        -- rewrite lookup_insert_eq, Hc. simpl.
           rewrite enqueue_enqueue.
           unfold is_subscribed. rewrite Hc.
           rewrite !bool_decide_true by done. done.
        -- rewrite lookup_insert_ne by done.
           rewrite (bool_decide_false (_ ∧ q = p)) by (by intros [_ ?]).
           done.
      * destruct (IH (i + 1) h Hrest) as (h' & -> & Hh').
        exists h'. split; [done|]. intros p. rewrite Hh'.
        destruct (decide (q = p)) as [->|Hqp].
        -- unfold is_subscribed. rewrite Hc.
           rewrite (bool_decide_false (_ ∈ _)) by done.
           by rewrite andb_false_r.
        -- rewrite (bool_decide_false (_ ∧ q = p)) by (by intros [_ ?]).
           done.
Qed.

Lemma served_slots_unregistered h i connections from objectID p :
  p ∉ connections → served_slots h i connections from objectID p = 0%nat.
Proof.
  revert i. induction connections as [|q rest IH]; intros i Hp; simpl.
  - done.
  - apply not_elem_of_cons in Hp as [Hne Hp].
    rewrite IH by done.
    rewrite (bool_decide_false (_ ∧ q = p)) by (intros [_ ?]; by subst). done.
Qed.

Lemma served_slots_registered_once h connections from objectID p (k : nat) :
  NoDup connections → connections !! k = Some p →
  ∀ i, served_slots h i connections from objectID p
       = if bool_decide (i + Z.of_nat k ≠ from) && is_subscribed h p objectID
         then 1%nat else 0%nat.
Proof.
  intros Hnd. revert k.
  induction Hnd as [|q rest Hq Hnd IH]; intros k Hk i; simpl.
  - done.
  - destruct k as [|k]; simpl in Hk.
    + injection Hk as ->.
      rewrite (served_slots_unregistered _ _ _ _ _ _ Hq).
      rewrite Z.add_0_r, Nat.add_0_r.
      apply (f_equal (λ b : bool, if b && _ then _ else _)).
      apply bool_decide_ext. intuition lia.
    + rewrite (IH k Hk).
      assert (q ≠ p).
      { intros ->. apply Hq. by eapply list_elem_of_lookup_2. }
      rewrite (bool_decide_false (_ ∧ q = p)) by (by intros [_ ?]).
      simpl. replace (i + 1 + Z.of_nat k) with (i + Z.of_nat (S k)) by lia.
      done.
Qed.

(** C5. When every registration of the hub is a live connection, an
    Update coming from slot [from] is put on the inbound queue of a
    connection once for each of its registrations at a slot other than
    [from], provided its subscriptions contain the Update's object ID, and
    nothing else changes.  When the registrations are distinct, this is:
    exactly once on the queue of every registered connection other than
    the sender whose subscriptions contain the object ID, and every other
    connection, the sender included, is left as it was. *)
Theorem update_reaches_exactly_the_other_subscribers (d : Dispatcher.t)
    (h : heap) (from : Z) (update : Update.t) :
  (∀ p, p ∈ Dispatcher.connections d → is_Some (h !! p)) →
  ∃ h', dispatchUpdate from update d h = Ret h'
        ∧ (∀ p, h' !! p
                = enqueue (replicate
                             (served_slots h 0 (Dispatcher.connections d) from
                                           (Update.ObjectID update) p)
                             (MsgUpdate update))
                  <$> h !! p)
        ∧ (NoDup (Dispatcher.connections d) →
           ∀ p, h' !! p
                = (λ c, if bool_decide
                             (p ∈ Dispatcher.connections d
                              ∧ connection_at d from ≠ Some p
                              ∧ Update.ObjectID update
                                ∈ Connection.subscriptions c)
                        then enqueue [MsgUpdate update] c
                        else c)
                  <$> h !! p).
Proof.
  intros Hlive. unfold dispatchUpdate.
  destruct (dispatchUpdate_loop_spec _ from update 0 h Hlive)
    as (h' & -> & Hh').
  exists h'. split; [done|]. split; [done|]. intros Hnd p. rewrite Hh'.
  destruct (h !! p) as [c|] eqn:Hc; simpl; [|done]. f_equal.
  destruct (decide (p ∈ Dispatcher.connections d)) as [Hin|Hout].
  - apply list_elem_of_lookup in Hin as [k Hk].
    rewrite (served_slots_registered_once _ _ _ _ _ _ Hnd Hk).
    unfold is_subscribed. rewrite Hc. rewrite Z.add_0_l.
    assert (Hfrom : Z.of_nat k ≠ from ↔ connection_at d from ≠ Some p).
    { unfold connection_at. case_bool_decide as H0.
      - split.
        + intros Hne Hf. apply Hne.
          pose proof (NoDup_lookup _ _ _ _ Hnd Hk Hf). lia.
        + intros Hne <-. apply Hne. by rewrite Nat2Z.id.
      - split; [done|lia]. }
    destruct (decide (Z.of_nat k ≠ from)) as [Hne|He].
    + rewrite (bool_decide_true (_ ≠ from)) by done. simpl.
      case_bool_decide as Hsub.
      * rewrite bool_decide_true; [done|].
        split; [by eapply list_elem_of_lookup_2|]. split; [by apply Hfrom|done].
      * rewrite bool_decide_false by (by intros (_ & _ & ?)).
        apply enqueue_nil.
    + rewrite (bool_decide_false (_ ≠ from)) by done. simpl.
      rewrite bool_decide_false; [apply enqueue_nil|].
      intros (_ & Hs & _). by apply Hfrom in Hs.
  - rewrite served_slots_unregistered by done.
    rewrite bool_decide_false by (by intros [? _]). apply enqueue_nil.
Qed.

(** ** Forwarding of requests *)

(** What [dispatchRequest] does: the Request goes to the first registered
    connection whose lookup of the object ID fails. *)
Lemma dispatchRequest_loop_first_without (before after : list ptr) (q : ptr)
    (c : Connection.t) (request : Request.t) (h : heap) :
  (∀ p, p ∈ before →
        ∃ c', h !! p = Some c'
              ∧ is_Some (GetDefinitionForObjectID
                           (Connection.definitions c')
                           (Request.ObjectID request))) →
  h !! q = Some c →
  GetDefinitionForObjectID (Connection.definitions c)
                           (Request.ObjectID request) = None →
  dispatchRequest_loop (before ++ q :: after) request h
  = Ret (<[q := enqueue [MsgRequest request] c]> h).
Proof.
  intros Hown Hq Hnone.
  induction before as [|p before IH]; simpl.
  - unfold send. by rewrite Hq, Hnone.
  - destruct (Hown p ltac:(left)) as (c' & -> & [definition ->]).
    apply IH. intros p' Hp'. apply Hown. by right.
Qed.

(** When every registered connection holds the definition, nobody
    receives the Request. *)
Lemma dispatchRequest_loop_all_own (connections : list ptr)
    (request : Request.t) (h : heap) :
  (∀ p, p ∈ connections →
        ∃ c', h !! p = Some c'
              ∧ is_Some (GetDefinitionForObjectID
                           (Connection.definitions c')
                           (Request.ObjectID request))) →
  dispatchRequest_loop connections request h = Ret h.
Proof.
  induction connections as [|p connections IH]; intros Hown; simpl; [done|].
  destruct (Hown p ltac:(left)) as (c' & -> & [definition ->]).
  apply IH. intros p' Hp'. apply Hown. by right.
Qed.

(** ** Repeated subscriptions *)

Lemma outcome_rel_bind {A B A' B' : Type} (R : A → B → Prop)
    (S : A' → B' → Prop) (o1 : outcome A) (o2 : outcome B)
    (f : A → outcome A') (g : B → outcome B') :
  outcome_rel R o1 o2 →
  (∀ a b, R a b → outcome_rel S (f a) (g b)) →
  outcome_rel S (o1 ≫= f) (o2 ≫= g).
Proof. destruct o1, o2; simpl; auto; contradiction. Qed.

Lemma outcome_rel_refl {A : Type} (R : A → A → Prop) (o : outcome A) :
  (∀ a, R a a) → outcome_rel R o o.
Proof. destruct o; simpl; auto. Qed.

Lemma same_subscriber_refl c : same_subscriber c c.
Proof. by repeat split. Qed.

Lemma same_subscribers_refl h : same_subscribers h h.
Proof.
  intros p. destruct (h !! p); constructor. apply same_subscriber_refl.
Qed.

Lemma same_subscribers_insert h1 h2 p c1 c2 :
  same_subscribers h1 h2 → same_subscriber c1 c2 →
  same_subscribers (<[p := c1]> h1) (<[p := c2]> h2).
Proof.
  intros Hh Hc q. destruct (decide (p = q)) as [->|Hne].
  - rewrite !lookup_insert_eq. by constructor.
  - rewrite !lookup_insert_ne by done. apply Hh.
Qed.

Lemma same_subscriber_enqueue ms c1 c2 :
  same_subscriber c1 c2 → same_subscriber (enqueue ms c1) (enqueue ms c2).
Proof.
  intros (Hd & Hi & Ho & Hs). unfold enqueue. repeat split; simpl; try done.
  - by rewrite Hi.
  - by apply Hs.
  - by apply Hs.
Qed.

Lemma send_same_subscribers p m h1 h2 :
  same_subscribers h1 h2 →
  outcome_rel same_subscribers (send p m h1) (send p m h2).
Proof.
  intros Hh. unfold send. destruct (Hh p) as [c1 c2 Hc|]; simpl; [|done].
  apply same_subscribers_insert; [done|]. by apply same_subscriber_enqueue.
Qed.

Lemma dispatchUpdate_same_subscribers connections from update :
  ∀ i h1 h2, same_subscribers h1 h2 →
    outcome_rel same_subscribers
      (dispatchUpdate_loop i connections from update h1)
      (dispatchUpdate_loop i connections from update h2).
Proof.
  induction connections as [|q rest IH]; intros i h1 h2 Hh; simpl; [done|].
  destruct (i =? from); [by apply IH|].
  destruct (Hh q) as [c1 c2 Hc|]; simpl; [|done].
  rewrite !subscribed_to_elem.
  rewrite (bool_decide_ext _ _ (proj2 (proj2 (proj2 Hc)) _)).
  case_bool_decide; [|by apply IH].
  eapply outcome_rel_bind; [by apply send_same_subscribers|].
  intros. by apply IH.
Qed.

Lemma dispatchDefinition_same_subscribers connections from definition :
  ∀ i h1 h2, same_subscribers h1 h2 →
    outcome_rel same_subscribers
      (dispatchDefinition_loop i connections from definition h1)
      (dispatchDefinition_loop i connections from definition h2).
Proof.
  induction connections as [|q rest IH]; intros i h1 h2 Hh; simpl; [done|].
  destruct (i =? from); [by apply IH|].
  eapply outcome_rel_bind; [by apply send_same_subscribers|].
  intros. by apply IH.
Qed.

Lemma dispatchRequest_same_subscribers connections request :
  ∀ h1 h2, same_subscribers h1 h2 →
    outcome_rel same_subscribers
      (dispatchRequest_loop connections request h1)
      (dispatchRequest_loop connections request h2).
Proof.
  induction connections as [|q rest IH]; intros h1 h2 Hh; simpl; [done|].
  pose proof (send_same_subscribers q (MsgRequest request) _ _ Hh) as Hsend.
  pose proof (Hh q) as Hq.
  destruct (h1 !! q) as [c1|] eqn:E1; destruct (h2 !! q) as [c2|] eqn:E2;
    inversion Hq as [? ? Hc|]; subst; simpl; [|done].
  destruct Hc as (<- & _).
  destruct (GetDefinitionForObjectID _ _); [by apply IH|done].
Qed.

Lemma processChannels_same_subscribers chosen value ok d h1 h2 :
  same_subscribers h1 h2 →
  outcome_rel same_hub (processChannels chosen value ok d h1)
                       (processChannels chosen value ok d h2).
Proof.
  intros Hh. unfold processChannels.
  destruct ok; simpl.
  - destruct value.
    + eapply outcome_rel_bind;
        [by apply dispatchUpdate_same_subscribers|by intros].
    + destruct (index _ _) as [p|]; simpl; [|done].
      destruct (Hh p) as [c1 c2 Hc|]; simpl; [|done].
      split; [done|]. simpl. apply same_subscribers_insert; [done|].
      destruct Hc as (Hd & Hi & Ho & Hs). repeat split; simpl; try done.
      * rewrite !elem_of_app, Hs. tauto.
      * rewrite !elem_of_app, Hs. tauto.
    + destruct (index _ _) as [p|]; simpl; [|done].
      destruct (Hh p) as [c1 c2 Hc|]; simpl; [|done].
      eapply outcome_rel_bind; [|by intros].
      apply dispatchDefinition_same_subscribers.
      apply same_subscribers_insert; [done|].
      destruct Hc as (Hd & Hi & Ho & Hs). repeat split; simpl; try done.
      * by rewrite Hd.
      * by apply Hs.
      * by apply Hs.
    + eapply outcome_rel_bind;
        [by apply dispatchRequest_same_subscribers|by intros].
    + unfold addConnection.
      destruct (Hh c) as [c1 c2 Hc|]; simpl; [|done].
      destruct Hc as (_ & _ & -> & _). done.
    + done.
  - destruct (removeConnectionAt _ _); simpl; done.
Qed.

Lemma run_same_subscribers events :
  ∀ d h1 h2, same_subscribers h1 h2 →
    outcome_rel same_hub (run events d h1) (run events d h2).
Proof.
  induction events as [|[[chosen value] ok] rest IH]; intros d h1 h2 Hh.
  - done.
  - simpl. eapply outcome_rel_bind.
    + by apply processChannels_same_subscribers.
    + intros [d1 h1'] [d2 h2'] [Hd Hh']. simpl in *. subst d2. by apply IH.
Qed.

Lemma dispatchUpdate_once (d : Dispatcher.t) (h : heap) (from : Z)
    (update : Update.t) (S : ptr) (k : nat) (c : Connection.t) :
  NoDup (Dispatcher.connections d) →
  (∀ p, p ∈ Dispatcher.connections d → is_Some (h !! p)) →
  Dispatcher.connections d !! k = Some S →
  Z.of_nat k ≠ from →
  h !! S = Some c →
  Update.ObjectID update ∈ Connection.subscriptions c →
  ∃ h', dispatchUpdate from update d h = Ret h'
        ∧ h' !! S = Some (enqueue [MsgUpdate update] c).
Proof.
  intros Hnd Hlive Hk Hne Hc Hsub. unfold dispatchUpdate.
  destruct (dispatchUpdate_loop_spec _ from update 0 h Hlive)
    as (h' & -> & Hh').
  exists h'. split; [done|]. rewrite Hh', Hc. simpl.
  rewrite (served_slots_registered_once _ _ _ _ _ _ Hnd Hk).
  unfold is_subscribed. rewrite Hc.
  by rewrite !bool_decide_true by (done || lia).
Qed.

(** C8. When a Subscription for [objectID] from the connection at slot
    [chosen - 1] has been processed, processing a second one succeeds as
    well, and from then on the hub behaves the same as after the first
    alone: for every sequence of later events both runs panic or both
    return the same dispatcher with the same inbound queues everywhere.
    With distinct live registrations, an Update for [objectID] coming from
    another connection is put on the subscriber's inbound queue exactly
    once, after one subscription and after two: in both cases the queue
    is the one the subscriber had before subscribing, followed by that
    one Update. *)
Theorem subscribing_twice_is_subscribing_once (d : Dispatcher.t) (h : heap)
    (chosen : Z) (objectID : Z) (d1 : Dispatcher.t) (h1 : heap) :
  processChannels chosen (MsgSubscription (Subscription.mk objectID)) true d h
  = Ret (d1, h1) →
  ∃ h2,
    d1 = d
    ∧ processChannels chosen (MsgSubscription (Subscription.mk objectID))
                      true d h1
      = Ret (d, h2)
    ∧ (∀ events, outcome_rel same_hub (run events d h1) (run events d h2))
    ∧ ∀ (S : ptr) (from : Z) (update : Update.t),
        NoDup (Dispatcher.connections d) →
        (∀ p, p ∈ Dispatcher.connections d → is_Some (h !! p)) →
        connection_at d (chosen - 1) = Some S →
        connection_at d from ≠ Some S →
        Update.ObjectID update = objectID →
        ∃ c c1 c2 h1' h2',
          h !! S = Some c ∧ h1 !! S = Some c1 ∧ h2 !! S = Some c2
          ∧ dispatchUpdate from update d h1 = Ret h1'
          ∧ dispatchUpdate from update d h2 = Ret h2'
          ∧ h1' !! S = Some (enqueue [MsgUpdate update] c1)
          ∧ h2' !! S = Some (enqueue [MsgUpdate update] c2)
          ∧ Connection.InChan c1 = Connection.InChan c2
          ∧ Connection.InChan <$> h1' !! S
            = Some (Connection.InChan c ++ [MsgUpdate update])
          ∧ Connection.InChan <$> h2' !! S
            = Some (Connection.InChan c ++ [MsgUpdate update]).
Proof.
  unfold processChannels. simpl.
  destruct (index _ _) as [p|] eqn:Hidx; simpl; [|done].
  destruct (h !! p) as [c|] eqn:Hc; [|done].
  intros [= <- <-]. rewrite lookup_insert_eq.
  eexists. split; [done|]. split; [done|].
  set (c1 := Connection.mk _ (Connection.subscriptions c ++ [objectID]) _ _).
  set (c2 := Connection.mk _ (Connection.subscriptions c1 ++ [objectID]) _ _).
  assert (Hsame : same_subscribers (<[p:=c1]> h) (<[p:=c2]> (<[p:=c1]> h))).
  { rewrite insert_insert_eq. apply same_subscribers_insert.
    - apply same_subscribers_refl.
    - repeat split; simpl; try done.
      + intros Hx. apply elem_of_app. by left.
      + rewrite !elem_of_app. tauto. }
  split; [intros events; by apply run_same_subscribers|].
  intros S from update Hnd Hlive Hat Hfrom Hx.
  apply index_Ret in Hidx as [Hpos Hidx].
  unfold connection_at in Hat. rewrite bool_decide_true in Hat by done.
  assert (S = p) as -> by congruence.
  assert (Hne : Z.of_nat (Z.to_nat (chosen - 1)) ≠ from).
  { intros <-. apply Hfrom. unfold connection_at.
    rewrite bool_decide_true by lia. by rewrite Nat2Z.id. }
  exists c, c1, c2.
  destruct (dispatchUpdate_once d (<[p:=c1]> h) from update p
              (Z.to_nat (chosen - 1)) c1 Hnd) as (h1' & Hrun1 & Hq1); try done.
  { intros q Hq. rewrite lookup_insert. case_decide; [done|]. by apply Hlive. }
  { apply lookup_insert_eq. }
  { subst objectID. simpl. apply elem_of_app. right. by left. }
  destruct (dispatchUpdate_once d (<[p:=c2]> (<[p:=c1]> h)) from update p
              (Z.to_nat (chosen - 1)) c2 Hnd) as (h2' & Hrun2 & Hq2); try done.
  { intros q Hq. rewrite !lookup_insert. repeat case_decide; try done.
    by apply Hlive. }
  { apply lookup_insert_eq. }
  { subst objectID. simpl. apply elem_of_app. right. by left. }
  exists h1', h2'. rewrite !lookup_insert_eq, Hq1, Hq2. done.
Qed.

(** * Properties of the codec *)

Lemma ByteLength_from (fields : list Field.t) (a : Z) :
  fold_left (fun n f => n + Field_ByteLength f) fields a
  = a + ByteLength fields.
Proof.
  unfold ByteLength. revert a.
  induction fields as [|f fields IH]; intros a; simpl; [lia|].
  rewrite (IH (a + _)), (IH (0 + _)). lia.
Qed.

Lemma ByteLength_cons (f : Field.t) (fields : list Field.t) :
  ByteLength (f :: fields) = Field_ByteLength f + ByteLength fields.
Proof. unfold ByteLength at 1. simpl. apply ByteLength_from. Qed.

Lemma ByteLength_nonneg (fields : list Field.t) : 0 <= ByteLength fields.
Proof.
  induction fields as [|f fields IH]; [done|].
  rewrite ByteLength_cons. unfold Field_ByteLength. lia.
Qed.

Lemma encode_scalar_length t options v bs :
  encode_scalar t options v = Some bs → length bs = wire_size t options.
Proof.
  destruct t, v; simpl; try done; try (intros [= <-]; apply length_le_split).
  destruct (index_of name options); simpl; [|done].
  intros [= <-]. apply length_le_split.
Qed.

Lemma encode_elements_length t options vs bs :
  encode_elements t options vs = Some bs →
  length bs = (length vs * wire_size t options)%nat.
Proof.
  revert bs. induction vs as [|v vs IH]; intros bs; simpl.
  - by intros [= <-].
  - destruct (encode_scalar t options v) as [b|] eqn:Hv; simpl; [|done].
    destruct (encode_elements t options vs) as [more|]; simpl; [|done].
    intros [= <-]. rewrite length_app, (IH more eq_refl).
    rewrite (encode_scalar_length _ _ _ _ Hv). lia.
Qed.

Lemma encode_fields_length fields data bs :
  encode_fields fields data = Ok bs →
  Z.of_nat (length bs) = ByteLength fields.
Proof.
  revert bs. induction fields as [|f fields IH]; intros bs; simpl.
  - by intros [= <-].
  - destruct (data !! Field.Name f) as [vs|]; [|done].
    destruct (Field.FieldTypeInfo f) as [t|] eqn:Ht; [|done].
    case_bool_decide as Hn; [|done].
    destruct (encode_elements t (Field.Options f) vs) as [b|] eqn:Hb; [|done].
    destruct (encode_fields fields data) as [more|]; [|done].
    intros [= <-]. rewrite ByteLength_cons, length_app, Nat2Z.inj_add.
    rewrite (IH more eq_refl). unfold Field_ByteLength, field_wire_size.
    rewrite Ht, (encode_elements_length _ _ _ _ Hb), Hn. done.
Qed.

Lemma le_combine_split_small (n : nat) (z : Z) :
  0 <= z < 2 ^ (Z.of_nat n * 8) → le_combine (le_split n z) = z.
Proof. intros Hz. rewrite le_combine_split. by apply Z.mod_small. Qed.

Lemma signed_le_split (n : nat) (z : Z) :
  (0 < n)%nat →
  - 2 ^ (8 * Z.of_nat n - 1) <= z < 2 ^ (8 * Z.of_nat n - 1) →
  signed (8 * Z.of_nat (length (le_split n z))) (le_combine (le_split n z))
  = z.
Proof.
  intros Hn Hz. rewrite length_le_split, le_combine_split.
  replace (Z.of_nat n * 8) with (8 * Z.of_nat n) by lia.
  set (w := 8 * Z.of_nat n) in *.
  assert (Hpow : 2 ^ w = 2 * 2 ^ (w - 1)).
  { rewrite <- Z.pow_succ_r by lia. f_equal. lia. }
  unfold signed.
  destruct (decide (0 <= z)) as [Hpos|Hneg].
  - rewrite Z.mod_small by lia.
    destruct (Z.ltb_spec z (2 ^ (w - 1))); lia.
  - replace (z mod 2 ^ w) with (z + 2 ^ w).
    + destruct (Z.ltb_spec (z + 2 ^ w) (2 ^ (w - 1))); lia.
    + apply Z.mod_unique with (q := -1); lia.
Qed.

Lemma index_of_Some name options i :
  index_of name options = Some i →
  options !! i = Some name ∧ (i < length options)%nat.
Proof.
  unfold index_of.
  destruct (list_find _ options) as [[j x]|] eqn:Hfind; simpl; [|done].
  intros [= ->]. apply list_find_Some in Hfind as (Hl & -> & _).
  split; [done|]. by eapply lookup_lt_Some.
Qed.

Lemma enum_index_small options (i : nat) :
  (i < length options)%nat → Z.of_nat i < 2 ^ 32 →
  0 <= Z.of_nat i < 2 ^ (Z.of_nat (enum_width options) * 8).
Proof.
  intros Hi H32. unfold enum_width.
  destruct (Z.leb_spec (Z.of_nat (length options)) (2 ^ 8)); [simpl; lia|].
  destruct (Z.leb_spec (Z.of_nat (length options)) (2 ^ 16)); simpl; lia.
Qed.

Lemma decode_encode_scalar t options v :
  fits t options v →
  ∃ bs, encode_scalar t options v = Some bs
        ∧ decode_scalar t options bs = Some v.
Proof.
  destruct t, v; simpl; try done; intros Hfit;
    try (eexists; split; [done|]; do 2 f_equal;
         first [ apply signed_le_split; [lia | simpl; lia]
               | apply le_combine_split_small; simpl; lia ]).
  destruct Hfit as (i & Hi & H32). rewrite Hi. simpl.
  eexists. split; [done|].
  apply index_of_Some in Hi as [Hl Hlt].
  rewrite le_combine_split_small by (by apply enum_index_small).
  by rewrite Nat2Z.id, Hl.
Qed.

Lemma decode_encode_elements t options vs :
  Forall (fits t options) vs →
  ∃ bs, encode_elements t options vs = Some bs
        ∧ ∀ rest, decode_elements t options (length vs) (bs ++ rest)
                  = Some (vs, rest).
Proof.
  induction 1 as [|v vs Hv _ (more & Hmore & IH)]; simpl.
  - by exists [].
  - destruct (decode_encode_scalar _ _ _ Hv) as (bs & Hbs & Hdec).
    rewrite Hbs, Hmore. simpl. eexists. split; [done|]. intros rest.
    pose proof (encode_scalar_length _ _ _ _ Hbs) as Hlen.
    rewrite bool_decide_false by (rewrite !length_app; lia).
    rewrite <- app_assoc, <- Hlen, take_app_length, drop_app_length.
    rewrite Hdec, IH. done.
Qed.

(** Decoding the encoded fields restores the entries of the fields' names
    and leaves the other entries of the map under construction alone. *)
Lemma decode_encode_fields (data : Object) (fields : list Field.t) :
  (∀ f, f ∈ fields →
        ∃ t vs, Field.FieldTypeInfo f = Some t
                ∧ data !! Field.Name f = Some vs
                ∧ length vs = element_count f
                ∧ Forall (fits t (Field.Options f)) vs) →
  ∃ bs, encode_fields fields data = Ok bs
        ∧ ∀ rest (acc : Object),
            ∃ m : Object,
              decode_fields fields (bs ++ rest) acc = Ok m
              ∧ ∀ name, m !! name
                        = if decide (name ∈ Field.Name <$> fields)
                          then data !! name else acc !! name.
Proof.
  induction fields as [|f fields IH]; intros Hall; simpl.
  - exists []. split; [done|]. intros rest acc. exists acc. split; [done|].
    done.
  - destruct (Hall f ltac:(left)) as (t & vs & Ht & Hvs & Hlen & Hfit).
    destruct IH as (more & Hmore & IH).
    { intros g Hg. apply Hall. by right. }
    destruct (decode_encode_elements _ _ _ Hfit) as (bs & Hbs & Hdec).
    rewrite Hvs, Ht, bool_decide_true, Hbs, Hmore by done.
    eexists. split; [done|]. intros rest acc.
    rewrite <- app_assoc, <- Hlen, Hdec.
    destruct (IH rest (<[Field.Name f := vs]> acc)) as (m & -> & Hm).
    exists m. split; [done|]. intros name. rewrite Hm.
    destruct (decide (name ∈ Field.Name <$> fields)) as [Hin|Hout].
    + rewrite decide_True; [done|]. by right.
    + destruct (decide (Field.Name f = name)) as [<-|Hne].
      * rewrite lookup_insert_eq, decide_True; [done|]. by left.
      * rewrite lookup_insert_ne by done.
        rewrite decide_False; [done|].
        intros [?|?]%elem_of_cons; [congruence|done].
Qed.

Lemma uAVTalkToMap_mapToUAVTalk (definition : Def.t) (data : Object) :
  well_formed definition data →
  ∃ bs, mapToUAVTalk definition data = Ok bs
        ∧ Z.of_nat (length bs) = ByteLength (Def.Fields definition)
        ∧ uAVTalkToMap definition bs = Ok data.
Proof.
  intros [Hfields Hkeys].
  destruct (decode_encode_fields data _ Hfields) as (bs & Hbs & Hdec).
  exists bs. split; [done|].
  pose proof (encode_fields_length _ _ _ Hbs) as Hlen.
  split; [done|]. unfold uAVTalkToMap.
  rewrite bool_decide_false by lia.
  destruct (Hdec [] ∅) as (m & Hm & Hlook). rewrite app_nil_r in Hm.
  rewrite Hm. f_equal. apply map_eq. intros name. rewrite Hlook.
  case_decide as Hin; [done|]. rewrite lookup_empty.
  destruct (data !! name) as [vs|] eqn:Hname; [|done].
  destruct (Hkeys name ltac:(by rewrite Hname)) as (f & Hf & <-).
  exfalso. apply Hin. apply list_elem_of_fmap. by exists f.
Qed.

(** * Properties of the frame layer *)

Lemma slice_within (s : GoSlice.t) (lo hi : Z) :
  0 <= lo → lo <= hi → hi <= GoSlice.len s →
  GoSlice.slice s lo hi
  = Ret (GoSlice.mk
           (take (Z.to_nat (hi - lo)) (drop (Z.to_nat lo) (GoSlice.elems s)))
           (drop (Z.to_nat hi) (GoSlice.elems s) ++ GoSlice.spare s)).
Proof.
  unfold GoSlice.len. intros Hlo Hhi Hlen. unfold GoSlice.slice, GoSlice.cap.
  rewrite bool_decide_true by lia. do 2 f_equal.
  - rewrite drop_app_le by lia.
    rewrite take_app_le by (rewrite length_drop; lia). done.
  - by rewrite drop_app_le by lia.
Qed.

Lemma slice_Ret (s s' : GoSlice.t) (lo hi : Z) :
  GoSlice.slice s lo hi = Ret s' → 0 <= lo ∧ lo <= hi ∧ hi <= GoSlice.cap s.
Proof. unfold GoSlice.slice. case_bool_decide; [done|]. intros [=]. Qed.

Lemma at_within (s : GoSlice.t) (i : Z) (b : byte) :
  0 <= i → GoSlice.elems s !! Z.to_nat i = Some b → GoSlice.at_ s i = Ret b.
Proof.
  intros Hi Hb. unfold GoSlice.at_.
  rewrite <- (Z2Nat.id i) by done. by apply index_lookup.
Qed.

Lemma discard_within (packet : GoSlice.t) (to : Z) :
  0 <= to <= GoSlice.len packet →
  ∃ packet', discard packet to = Ret packet'
             ∧ GoSlice.elems packet'
               = drop (Z.to_nat to) (GoSlice.elems packet)
             ∧ GoSlice.len packet' = GoSlice.len packet - to.
Proof.
  intros Hto. unfold discard.
  rewrite slice_within by lia. simpl.
  pose proof Hto as Hto'. unfold GoSlice.len in Hto'.
  rewrite take_ge by (rewrite length_drop; unfold GoSlice.len; lia).
  set (rest := drop (Z.to_nat to) (GoSlice.elems packet)).
  assert (Hrest : length rest
                  = (length (GoSlice.elems packet) - Z.to_nat to)%nat)
    by apply length_drop.
  assert (Hcopy : length (go_copy (GoSlice.elems packet) rest)
                  = length (GoSlice.elems packet)).
  { unfold go_copy. rewrite length_app, length_take, length_drop. lia. }
  rewrite slice_within; unfold GoSlice.copy_into, GoSlice.len; simpl;
    try rewrite Hcopy; try lia.
  eexists. split; [done|]. simpl. split.
  - unfold go_copy.
    replace (Nat.min (length (GoSlice.elems packet)) (length rest))
      with (length rest) by lia.
    rewrite (take_ge rest) by lia.
    replace (Z.to_nat (Z.of_nat (length (GoSlice.elems packet)) - to - 0))
      with (length rest) by lia.
    change (Z.to_nat 0) with 0%nat. rewrite drop_0.
    by rewrite take_app_length.
  - change (Z.to_nat 0) with 0%nat. rewrite drop_0, length_take, Hcopy. lia.
Qed.

Lemma byteArrayToInt16_Ret (b : GoSlice.t) (n : Z) :
  byteArrayToInt16 b = Ret n →
  0 <= n < 2 ^ 16 ∧ length (GoSlice.elems b) = 2%nat
  ∧ n = le_combine (GoSlice.elems b).
Proof.
  unfold byteArrayToInt16.
  destruct (GoSlice.elems b) as [|b0 [|b1 [|]]]; try done.
  intros [= <-].
  pose proof (byte.unsigned_range b0). pose proof (byte.unsigned_range b1).
  assert (Hsh : Z.shiftl (byte.unsigned b1) 8 mod 2 ^ 16
                = Z.shiftl (byte.unsigned b1) 8).
  { apply Z.mod_small. rewrite Z.shiftl_mul_pow2 by lia. lia. }
  rewrite Hsh.
  assert (Heq : Z.lor (Z.shiftl (byte.unsigned b1) 8) (byte.unsigned b0)
                = le_combine [b0; b1]).
  { unfold le_combine. change (0 ≪ 8) with 0.
    rewrite Z.lor_0_r. apply Z.lor_comm. }
  rewrite Heq. split; [|done].
  apply (le_combine_bound [b0; b1]).
Qed.

Lemma byteArrayToInt16_le (b0 b1 : byte) (spare : list byte) :
  byteArrayToInt16 (GoSlice.mk [b0; b1] spare) = Ret (le_combine [b0; b1]).
Proof.
  destruct (byteArrayToInt16 (GoSlice.mk [b0; b1] spare)) as [n|] eqn:E.
  - by apply byteArrayToInt16_Ret in E as (_ & _ & ->).
  - done.
Qed.

Lemma byteArrayToInt32_le (b0 b1 b2 b3 : byte) (spare : list byte) :
  byteArrayToInt32 (GoSlice.mk [b0; b1; b2; b3] spare)
  = Ret (le_combine [b0; b1; b2; b3]).
Proof.
  unfold byteArrayToInt32. simpl GoSlice.elems. f_equal.
  pose proof (byte.unsigned_range b0). pose proof (byte.unsigned_range b1).
  pose proof (byte.unsigned_range b2). pose proof (byte.unsigned_range b3).
  rewrite !Z.mod_small by (rewrite Z.shiftl_mul_pow2 by lia; lia).
  unfold le_combine. change (0 ≪ 8) with 0. rewrite !Z.lor_0_r.
  rewrite !Z.shiftl_lor, !Z.shiftl_shiftl by lia. simpl Z.add.
  rewrite (Z.lor_comm (byte.unsigned b0)).
  rewrite (Z.lor_comm (Z.shiftl (byte.unsigned b1) 8)).
  rewrite (Z.lor_comm (Z.shiftl (byte.unsigned b2) 16)).
  done.
Qed.

Lemma find_sync_range (packet : list byte) (i : Z) :
  find_sync i packet = -1
  ∨ i <= find_sync i packet < i + Z.of_nat (length packet).
Proof.
  revert i. induction packet as [|b rest IH]; intros i; simpl; [by left|].
  case_bool_decide; [right; lia|].
  destruct (IH (i + 1)) as [->|?]; [by left|right; lia].
Qed.

Section Scanner.

Variable computeCrc8 : byte → list byte → byte.

(** What the scanner returns when it reports a candidate frame. *)
Lemma packetComplete_candidate (packet : GoSlice.t) (ok : bool)
    (from to : Z) (err : option error) :
  packetComplete computeCrc8 packet = Ret (ok, from, to, err) →
  ok = true ∨ err ≠ None →
  from = find_sync 0 (GoSlice.elems packet)
  ∧ 0 <= from ∧ from < to ∧ to <= GoSlice.len packet
  ∧ (ok = true ∧ err = None ∨ ok = false ∧ err = Some WrongCrc8).
Proof.
  unfold packetComplete.
  set (offset := find_sync 0 (GoSlice.elems packet)).
  destruct (Z.ltb_spec offset 0) as [Hneg|Hpos].
  { intros [= <- <- <- <-]. intros [?|?]; done. }
  destruct (GoSlice.slice packet (offset + 2) (offset + 4)) as [header|];
    simpl; [|done].
  destruct (byteArrayToInt16 header) as [length|] eqn:Hlength; simpl; [|done].
  apply byteArrayToInt16_Ret in Hlength as (Hrange & _).
  destruct (Z.gtb_spec (length + 1) (GoSlice.len packet - offset))
    as [Hshort|Hlong].
  { intros [= <- <- <- <-]. intros [?|?]; done. }
  destruct (GoSlice.at_ packet (offset + length)) as [cks|]; simpl; [|done].
  destruct (GoSlice.slice packet offset (offset + length)) as [body|];
    simpl; [|done].
  case_bool_decide; intros [= <- <- <- <-] _;
    (split; [done|]); repeat split; try lia; [by right|by left].
Qed.

(** C6. Whenever the scanner reports a complete or an invalid candidate
    frame [from, to), the bounds satisfy [0 <= from < to <= len(packet)],
    and the reader's discarding of the bytes below [to] succeeds, keeps
    exactly the bytes from [to] on, and leaves a strictly shorter
    buffer. *)
Theorem scanner_makes_progress (packet : GoSlice.t) (ok : bool)
    (from to : Z) (err : option error) :
  packetComplete computeCrc8 packet = Ret (ok, from, to, err) →
  ok = true ∨ err ≠ None →
  0 <= from ∧ from < to ∧ to <= GoSlice.len packet
  ∧ ∃ packet', discard packet to = Ret packet'
               ∧ GoSlice.elems packet'
                 = drop (Z.to_nat to) (GoSlice.elems packet)
               ∧ GoSlice.len packet' < GoSlice.len packet.
Proof.
  intros Hscan Hcand.
  destruct (packetComplete_candidate _ _ _ _ _ Hscan Hcand)
    as (_ & Hfrom & Hto & Hlen & _).
  repeat split; try done.
  destruct (discard_within packet to ltac:(lia)) as (packet' & Hd & He & Hl).
  exists packet'. repeat split; try done. lia.
Qed.

(** The header check the scanner does make: with the length field inside
    the buffer and fewer than [length + 1] bytes from the sync byte on, the
    outcome is Incomplete. *)
Lemma packetComplete_incomplete (packet : GoSlice.t) (header : GoSlice.t) :
  let offset := find_sync 0 (GoSlice.elems packet) in
  0 <= offset →
  offset + 4 <= GoSlice.len packet →
  GoSlice.slice packet (offset + 2) (offset + 4) = Ret header →
  GoSlice.len packet - offset < le_combine (GoSlice.elems header) + 1 →
  packetComplete computeCrc8 packet = Ret (false, 0, 0, None).
Proof.
  intros offset Hpos Hlen Hheader Hshort. unfold packetComplete.
  fold offset. destruct (Z.ltb_spec offset 0); [lia|].
  rewrite Hheader. simpl.
  rewrite slice_within in Hheader by lia. injection Hheader as <-.
  set (bs := take _ _) in *.
  assert (Hbs : length bs = 2%nat).
  { unfold bs. rewrite length_take, length_drop.
    unfold GoSlice.len in Hlen. lia. }
  destruct bs as [|b0 [|b1 [|]]]; try done.
  rewrite byteArrayToInt16_le. simpl.
  simpl in Hshort.
  destruct (Z.gtb_spec (le_combine [b0; b1] + 1) (GoSlice.len packet - offset));
    [done|lia].
Qed.

(** C2. A buffer that holds nothing but the sync byte: when the backing
    array ends there, the scanner panics on the slice expression for the
    length field; when three more (zero) bytes lie between the length and
    the capacity, it reads them as the length field and reports the
    candidate frame [0, 1).  In neither case is the outcome Incomplete. *)
Theorem scanner_reads_past_a_short_header :
  packetComplete computeCrc8 (GoSlice.mk [Byte.x3c] []) = Panic
  ∧ packetComplete computeCrc8
      (GoSlice.mk [Byte.x3c] [Byte.x00; Byte.x00; Byte.x00])
    ≠ Ret (false, 0, 0, None).
Proof.
  split; [done|].
  unfold packetComplete. simpl.
  change (GoSlice.slice _ 2 4)
    with (Ret (GoSlice.mk [Byte.x00; Byte.x00] [Byte.x00])).
  simpl. case_bool_decide; done.
Qed.

End Scanner.

Section Frames.

Variable computeCrc8 : byte → list byte → byte.
Variable definitions : list Def.t.

Lemma newPacketFromBinary_unknown (frame : GoSlice.t) :
  8 <= GoSlice.len frame →
  GetDefinitionForObjectID definitions (frame_objectID (GoSlice.elems frame))
  = None →
  newPacketFromBinary definitions frame
  = Ret (Err (ObjectIDNotFound (frame_objectID (GoSlice.elems frame)))).
Proof.
  destruct frame as [bytes spare]. unfold GoSlice.len. simpl.
  destruct bytes as [|b0 [|b1 [|b2 [|b3 [|b4 [|b5 [|b6 [|b7 tail]]]]]]]];
    simpl; try lia.
  intros _ Hnone. unfold newPacketFromBinary.
  rewrite (at_within _ 1 b1) by done. ret_bind.
  rewrite (slice_within _ 2 4) by len_bound. ret_bind.
  simpl take. rewrite byteArrayToInt16_le. ret_bind.
  rewrite (slice_within _ 4 8) by len_bound. ret_bind.
  simpl take. rewrite byteArrayToInt32_le. ret_bind.
  unfold frame_objectID in *. simpl take in *.
  change (take 0 tail) with (@nil byte) in *. by rewrite Hnone.
Qed.

(** C7. When the scanner reports a complete frame [from, to) that holds
    the eight header bytes and whose object ID the registry does not
    resolve, [newPacketFromBinary] returns the lookup's error and no
    Packet, and the reader's turn goes on: nothing is sent, the error is
    the warning logged, and the buffer keeps exactly the bytes from [to]
    on. *)
Theorem unknown_object_drops_one_frame (packet frame : GoSlice.t)
    (from to : Z) :
  packetComplete computeCrc8 packet = Ret (true, from, to, None) →
  from + 8 <= to →
  GoSlice.slice packet from to = Ret frame →
  GetDefinitionForObjectID definitions (frame_objectID (GoSlice.elems frame))
  = None →
  newPacketFromBinary definitions frame
  = Ret (Err (ObjectIDNotFound (frame_objectID (GoSlice.elems frame))))
  ∧ ∃ packet',
      read_turn computeCrc8 definitions packet
      = Ret (Continue packet' None
               (Some (ObjectIDNotFound
                        (frame_objectID (GoSlice.elems frame)))))
      ∧ GoSlice.elems packet' = drop (Z.to_nat to) (GoSlice.elems packet).
Proof.
  intros Hscan Hheader Hframe Hnone.
  destruct (packetComplete_candidate _ _ _ _ _ _ Hscan ltac:(by left))
    as (_ & Hfrom & Hto & Hlen & _).
  assert (Hunknown : newPacketFromBinary definitions frame
            = Ret (Err (ObjectIDNotFound
                          (frame_objectID (GoSlice.elems frame))))).
  { apply newPacketFromBinary_unknown; [|done].
    rewrite slice_within in Hframe by lia. injection Hframe as <-.
    unfold GoSlice.len in *. simpl. rewrite length_take, length_drop. lia. }
  split; [done|].
  unfold read_turn. rewrite Hscan. simpl. rewrite Hframe. simpl.
  rewrite Hunknown. simpl.
  destruct (discard_within packet to ltac:(lia)) as (packet' & -> & He & _).
  exists packet'. done.
Qed.

Lemma Ok_inj {A : Type} (a b : A) : Ok a = Ok b → a = b.
Proof. by intros [=]. Qed.

Lemma toBinary_frame (packet : Packet.t) :
  toBinary computeCrc8 packet
  = match (if bool_decide (Packet.cmd packet = objectCmd
                           ∨ Packet.cmd packet = objectCmdWithAck)
           then mapToUAVTalk (Packet.definition packet) (Packet.data packet)
           else Ok [])
    with
    | Err e => Err e
    | Ok payload =>
        Ok (frame_header packet ++ payload
              ++ [computeCrc8 (byte.of_Z 0) (frame_header packet ++ payload)])
    end.
Proof.
  unfold toBinary, frame_header.
  destruct (Def.SingleInstance (Packet.definition packet));
    case_bool_decide; simpl negb; cbv iota;
    try destruct (mapToUAVTalk _ _); try done;
    rewrite ?app_nil_r, <- ?app_assoc; simpl app; try done.
Qed.

Lemma frame_header_length (packet : Packet.t) :
  Z.of_nat (length (frame_header packet))
  = if negb (Def.SingleInstance (Packet.definition packet))
    then shortHeaderLength + 2 else shortHeaderLength.
Proof.
  unfold frame_header.
  destruct (Def.SingleInstance (Packet.definition packet)); simpl negb;
    cbv iota; rewrite !length_app, !length_le_split; done.
Qed.

(** The length field as [newPacket] computes it and [toBinary] writes
    it. *)
Lemma toBinary_length (definition : Def.t) (cmd instanceID : Z)
    (data : Object) (bytes : list byte) :
  toBinary computeCrc8 (newPacket definition cmd instanceID data) = Ok bytes →
  le_combine (take 2 (drop 2 bytes))
  = Packet.length (newPacket definition cmd instanceID data)
  ∧ Packet.length (newPacket definition cmd instanceID data)
    = (Z.of_nat (length bytes) - 1) mod 2 ^ 16.
Proof.
  rewrite toBinary_frame.
  set (packet := newPacket definition cmd instanceID data).
  destruct (if bool_decide _ then _ else _) as [payload|] eqn:Hpayload;
    [|done].
  intros <-%Ok_inj.
  assert (Hmod : Packet.length packet
                 = (Z.of_nat (length (frame_header packet ++ payload)))
                   mod 2 ^ 16).
  { rewrite length_app, Nat2Z.inj_add, frame_header_length.
    assert (Hlen : Z.of_nat (length payload)
                   = if bool_decide (cmd = objectCmd ∨ cmd = objectCmdWithAck)
                     then ByteLength (Def.Fields definition) else 0).
    { simpl in Hpayload. case_bool_decide.
      - by apply encode_fields_length in Hpayload.
      - by injection Hpayload as <-. }
    rewrite Hlen. unfold packet, newPacket. simpl.
    destruct (Def.SingleInstance definition); simpl; f_equal; lia. }
  clearbody packet. split.
  - unfold frame_header.
    assert (H2 : length (le_split 2 (Packet.length packet)) = 2%nat)
      by apply length_le_split.
    destruct (le_split 2 (Packet.length packet)) as [|l0 [|l1 [|]]] eqn:Hsplit;
      try done.
    rewrite <- !app_assoc. simpl.
    rewrite <- Hsplit, le_combine_split.
    rewrite Hmod. apply Z.mod_mod. done.
  - rewrite Hmod. f_equal. rewrite !length_app. simpl. lia.
Qed.

(** C3 (amended). For every Packet built by [newPacket] that [toBinary]
    encodes, the length field written at bytes 2 and 3 is the packet's
    [length], and it counts the bytes from the sync byte through the last
    payload byte modulo [2^16]: the encoded frame is one byte, the
    checksum, longer than the length field says whenever that count fits
    16 bits. *)
Theorem length_field_leaves_out_the_checksum (definition : Def.t)
    (cmd instanceID : Z) (data : Object) (bytes : list byte) :
  toBinary computeCrc8 (newPacket definition cmd instanceID data) = Ok bytes →
  le_combine (take 2 (drop 2 bytes))
  = Packet.length (newPacket definition cmd instanceID data)
  ∧ Packet.length (newPacket definition cmd instanceID data)
    = (Z.of_nat (length bytes) - 1) mod 2 ^ 16
  ∧ (Z.of_nat (length bytes) - 1 < 2 ^ 16 →
     Z.of_nat (length bytes)
     = Packet.length (newPacket definition cmd instanceID data) + 1).
Proof.
  intros Hbin. destruct (toBinary_length _ _ _ _ _ Hbin) as [Hfield Hmod].
  split; [done|]. split; [done|]. intros Hfit.
  rewrite Hmod, Z.mod_small; [lia|].
  rewrite toBinary_frame in Hbin.
  destruct (if bool_decide _ then _ else _); [|done].
  apply Ok_inj in Hbin as <-. rewrite !length_app in *. simpl in *. lia.
Qed.

Lemma newPacket_length_range definition cmd instanceID data :
  0 <= Packet.length (newPacket definition cmd instanceID data) < 2 ^ 16.
Proof.
  unfold newPacket. simpl.
  destruct (negb _); apply Z.mod_pos_bound; done.
Qed.

(** C4. For a definition that the registry resolves under its object ID,
    a command Cmd or CmdWithAck, a 16-bit instance ID and a well-formed
    data map, [toBinary] of the new Packet succeeds, and
    [newPacketFromBinary] of the bytes (whatever lies behind them in the
    backing array) returns a Packet with the same definition, command,
    length field and data, and with the same instance ID unless the
    definition is single-instance, where it is 0. *)
Theorem encoded_packet_decodes_to_itself (definition : Def.t)
    (cmd instanceID : Z) (data : Object) (spare : list byte) :
  registered definitions definition →
  0 <= Def.ObjectID definition < 2 ^ 32 →
  0 <= instanceID < 2 ^ 16 →
  cmd = objectCmd ∨ cmd = objectCmdWithAck →
  well_formed definition data →
  ∃ bytes,
    toBinary computeCrc8 (newPacket definition cmd instanceID data) = Ok bytes
    ∧ newPacketFromBinary definitions (GoSlice.mk bytes spare)
      = Ret (Ok (Packet.mk definition cmd
                   (Packet.length (newPacket definition cmd instanceID data))
                   (if Def.SingleInstance definition then 0 else instanceID)
                   data)).
Proof.
  intros Hreg Hid Hinst Hcmd Hwf.
  destruct (uAVTalkToMap_mapToUAVTalk definition data Hwf)
    as (payload & Henc & Hlen & Hdec).
  rewrite toBinary_frame.
  pose proof (newPacket_length_range definition cmd instanceID data) as HL.
  set (L := Packet.length (newPacket definition cmd instanceID data)) in *.
  assert (Hpacket : newPacket definition cmd instanceID data
                    = Packet.mk definition cmd L instanceID data) by done.
  rewrite Hpacket. clearbody L. clear Hpacket.
  cbn [Packet.cmd Packet.definition Packet.data].
  rewrite bool_decide_true, Henc by done.
  eexists. split; [done|].
  set (cks := computeCrc8 _ _). clearbody cks.
  unfold frame_header.
  cbn [Packet.cmd Packet.definition Packet.length Packet.instanceID].
  assert (Hcmdb : Z.lxor (byte.unsigned (byte.of_Z (Z.lor cmd versionMask)))
                         versionMask = cmd).
  { by destruct Hcmd as [-> | ->]. }
  set (cmdb := byte.of_Z (Z.lor cmd versionMask)) in *. clearbody cmdb.
  pose proof (length_le_split 2 L) as H2.
  pose proof (le_combine_split_small 2 L ltac:(simpl; lia)) as HcL.
  destruct (le_split 2 L) as [|l0 [|l1 [|]]]; try done.
  pose proof (length_le_split 4 (Def.ObjectID definition)) as H4.
  pose proof (le_combine_split_small 4 (Def.ObjectID definition)
                ltac:(simpl; lia)) as Hc4.
  destruct (le_split 4 (Def.ObjectID definition))
    as [|i0 [|i1 [|i2 [|i3 [|]]]]]; try done.
  pose proof (length_le_split 2 instanceID) as Hn.
  pose proof (le_combine_split_small 2 instanceID ltac:(simpl; lia)) as Hcn.
  destruct (le_split 2 instanceID) as [|n0 [|n1 [|]]]; try done.
  unfold newPacketFromBinary.
  destruct (Def.SingleInstance definition) eqn:Hsingle; cbn [negb];
    rewrite <- !app_assoc; cbn [app].
  - rewrite (at_within _ 1 cmdb) by done. ret_bind.
    rewrite (slice_within _ 2 4) by len_bound. ret_bind.
    simpl take. rewrite byteArrayToInt16_le, HcL. ret_bind.
    rewrite (slice_within _ 4 8) by len_bound. ret_bind.
    simpl take. rewrite byteArrayToInt32_le, Hc4. ret_bind.
    rewrite Hreg, Hsingle. cbn [negb]. ret_bind.
    rewrite slice_within by len_bound.
    ret_bind. cbn [GoSlice.elems].
    rewrite Hcmdb, bool_decide_true by done.
    replace (take _ _) with payload; [by rewrite Hdec|].
    unfold GoSlice.len, shortHeaderLength. cbn [GoSlice.elems length].
    rewrite length_app. simpl drop.
    replace (Z.to_nat _) with (length payload) by (simpl; lia).
    by rewrite drop_0, take_app_length.
  - rewrite (at_within _ 1 cmdb) by done. ret_bind.
    rewrite (slice_within _ 2 4) by len_bound. ret_bind.
    simpl take. rewrite byteArrayToInt16_le, HcL. ret_bind.
    rewrite (slice_within _ 4 8) by len_bound. ret_bind.
    simpl take. rewrite byteArrayToInt32_le, Hc4. ret_bind.
    rewrite Hreg, Hsingle. cbn [negb].
    rewrite (slice_within _ 8 10) by len_bound. ret_bind.
    simpl take. rewrite byteArrayToInt16_le, Hcn. ret_bind.
    rewrite slice_within by len_bound.
    ret_bind. cbn [GoSlice.elems].
    rewrite Hcmdb, bool_decide_true by done.
    replace (take _ _) with payload; [by rewrite Hdec|].
    unfold GoSlice.len, shortHeaderLength. cbn [GoSlice.elems length].
    rewrite length_app. simpl drop.
    replace (Z.to_nat _) with (length payload) by (simpl; lia).
    by rewrite drop_0, take_app_length.
Qed.

End Frames.

(** * Properties of the loader *)

Lemma is_clone_spec (field : Field.t) :
  negb (Z.of_nat (String.length (Field.CloneOf field)) =? 0) = true
  ↔ Field.CloneOf field ≠ "".
Proof.
  destruct (Field.CloneOf field) as [|c s]; simpl.
  - split; [done|]. by intros [].
  - split; [done|]. intros _. destruct (Z.eqb_spec (Z.pos (Pos.of_succ_nat
      (String.length s))) 0); [lia|done].
Qed.

Lemma FieldForName_Some (fields : list Field.t) (name : string) (f : Field.t) :
  FieldForName fields name = Some f →
  ∃ j, fields !! j = Some f ∧ Field.Name f = name.
Proof.
  induction fields as [|g fields IH]; simpl; [done|].
  case_bool_decide as Hg.
  - intros [= <-]. by exists 0%nat.
  - intros Hf. destruct (IH Hf) as (j & Hj & Hname). by exists (S j).
Qed.

Lemma clone_of_Name clonedField field :
  Field.Name (clone_of clonedField field) = Field.Name field.
Proof. done. Qed.

(** What the clone loop does to one index, and what it never touches. *)
Lemma create_clones_spec (n : nat) :
  ∀ (i : nat) (fields resolved : list Field.t),
    create_clones n i fields = Ok resolved →
    length resolved = length fields
    ∧ Field.Name <$> resolved = Field.Name <$> fields
    ∧ (∀ j, (j < i ∨ i + n ≤ j)%nat → resolved !! j = fields !! j)
    ∧ (∀ j field, fields !! j = Some field → Field.CloneOf field = "" →
                  resolved !! j = Some field).
Proof.
  induction n as [|n IH]; intros i fields resolved; simpl.
  { intros [= <-]. done. }
  destruct (fields !! i) as [field|] eqn:Hfield; [|by intros [= <-]].
  destruct (negb _) eqn:Hclone.
  - apply is_clone_spec in Hclone.
    destruct (FieldForName fields (Field.CloneOf field)) as [cloned|];
      [|done].
    intros Hrest. apply IH in Hrest as (Hlen & Hnames & Hother & Hplain).
    rewrite length_insert in Hlen.
    repeat split.
    + done.
    + rewrite Hnames, list_fmap_insert, clone_of_Name.
      apply list_insert_id. by rewrite list_lookup_fmap, Hfield.
    + intros j Hj. rewrite Hother by lia.
      apply list_lookup_insert_ne. lia.
    + intros j g Hg Hplain'. apply Hplain; [|done].
      rewrite list_lookup_insert_ne; [done|]. congruence.
  - intros Hrest. apply IH in Hrest as (Hlen & Hnames & Hother & Hplain).
    repeat split; try done. intros j Hj. apply Hother. lia.
Qed.

(** The loop over [a + b] fields is the loop over [a] fields followed by
    the loop over the next [b]. *)
Lemma create_clones_add (a b : nat) :
  ∀ (i : nat) (fields : list Field.t),
    create_clones (a + b) i fields
    = match create_clones a i fields with
      | Ok mid => create_clones b (i + a) mid
      | Err e => Err e
      end.
Proof.
  induction a as [|a IH]; intros i fields; simpl.
  { by rewrite Nat.add_0_r. }
  destruct (fields !! i) as [field|] eqn:Hfield.
  - replace (i + S a)%nat with (S i + a)%nat by lia.
    destruct (negb _); [|apply IH].
    destruct (FieldForName _ _); [apply IH|done].
  - apply lookup_ge_None in Hfield.
    destruct b; simpl; [done|].
    by rewrite (proj2 (lookup_ge_None fields (i + S a)) ltac:(lia)).
Qed.

(** The step of the clone loop at a field that is a clone. *)
Lemma create_clones_at (loaded resolved : list Field.t) (i : nat)
    (field : Field.t) :
  create_clones (length loaded) 0 loaded = Ok resolved →
  loaded !! i = Some field →
  Field.CloneOf field ≠ "" →
  ∃ before clonedField,
    create_clones i 0 loaded = Ok before
    ∧ FieldForName before (Field.CloneOf field) = Some clonedField
    ∧ resolved !! i = Some (clone_of clonedField field)
    ∧ ∀ j, (j < i)%nat → resolved !! j = before !! j.
Proof.
  intros Hall Hi Hclone.
  pose proof (lookup_lt_Some _ _ _ Hi) as Hlt.
  replace (length loaded) with (i + S (length loaded - S i))%nat in Hall
    by lia.
  rewrite create_clones_add in Hall.
  destruct (create_clones i 0 loaded) as [before|] eqn:Hbefore; [|done].
  destruct (create_clones_spec _ _ _ _ Hbefore) as (_ & _ & Hkeep & _).
  simpl in Hall. rewrite Hkeep, Hi in Hall by lia.
  rewrite (proj2 (is_clone_spec field) Hclone) in Hall.
  destruct (FieldForName before (Field.CloneOf field)) as [cloned|] eqn:Hsrc;
    [|done].
  destruct (create_clones_spec _ _ _ _ Hall) as (_ & _ & Hrest & _).
  exists before, cloned. repeat split; try done.
  - rewrite Hrest by lia. apply list_lookup_insert_eq.
    destruct (create_clones_spec _ _ _ _ Hbefore) as (-> & _). done.
  - intros j Hj. rewrite Hrest by lia. apply list_lookup_insert_ne. lia.
Qed.

Section Loader.

Variable FieldTypeForString : string → option FieldType.
Variable less : Field.t → Field.t → bool.
Variable calculateID : Def.t → Z.

Lemma insert_stable_perm (f : Field.t) (sorted : list Field.t) :
  insert_stable less f sorted ≡ₚ f :: sorted.
Proof.
  induction sorted as [|g sorted IH]; simpl; [done|].
  destruct (less g f); [|done].
  rewrite IH. apply Permutation_swap.
Qed.

Lemma sort_stable_perm (fields : list Field.t) :
  sort_stable less fields ≡ₚ fields.
Proof.
  induction fields as [|f fields IH]; simpl; [done|].
  by rewrite insert_stable_perm, IH.
Qed.

Lemma post_process_all_clones (fields loaded : list Field.t) :
  post_process_all FieldTypeForString fields = Ok loaded →
  ∀ i field, fields !! i = Some field → Field.CloneOf field ≠ "" →
             loaded !! i = Some field.
Proof.
  revert loaded. induction fields as [|f fields IH]; intros loaded; simpl.
  { by intros [= <-]. }
  destruct (post_process FieldTypeForString f) as [f'|] eqn:Hf; [|done].
  destruct (post_process_all FieldTypeForString fields) as [rest|]; [|done].
  intros [= <-] i field Hi Hclone. destruct i as [|i]; simpl in *.
  - injection Hi as ->. unfold post_process in Hf.
    rewrite (proj2 (is_clone_spec field) Hclone) in Hf. congruence.
  - by apply (IH rest).
Qed.

(** C9. When [newDefinition] succeeds, the fields of the result are, up
    to the order fixed by the sort, the fields [resolved] left by the
    clone loop, and for the fields [loaded] that entered that loop:
    - a field without [cloneOf] is left as it was;
    - a field whose [cloneOf] is not empty is the copy of the field that
      [FieldForName] found under that name in the state [before] its own
      turn, with its own [Name] and [CloneOf] kept ([clone_of]): its type
      name, element count, element names, options, the two attributes and
      the type information are those of that source; that source is also
      the source's final state when the source stands before the clone
      or is not a clone itself;
    - every [cloneOf] that is left names a field of the result.
    A clone is as the file declared it when it enters the loop. *)
Theorem clones_copy_their_source (content loaded_definition : Def.t) :
  newDefinition FieldTypeForString less calculateID content
  = Ok loaded_definition →
  ∃ loaded resolved : list Field.t,
    post_process_all FieldTypeForString (Def.Fields content) = Ok loaded
    ∧ create_clones (length loaded) 0 loaded = Ok resolved
    ∧ Def.Fields loaded_definition ≡ₚ resolved
    ∧ (∀ i field, Def.Fields content !! i = Some field →
                  Field.CloneOf field ≠ "" → loaded !! i = Some field)
    ∧ (∀ i field, loaded !! i = Some field → Field.CloneOf field = "" →
                  resolved !! i = Some field)
    ∧ (∀ i field,
         loaded !! i = Some field → Field.CloneOf field ≠ "" →
         ∃ (before : list Field.t) (j : nat) (clonedField : Field.t),
           create_clones i 0 loaded = Ok before
           ∧ FieldForName before (Field.CloneOf field) = Some clonedField
           ∧ before !! j = Some clonedField
           ∧ Field.Name clonedField = Field.CloneOf field
           ∧ resolved !! i = Some (clone_of clonedField field)
           ∧ (∃ clone : Field.t,
                resolved !! i = Some clone
                ∧ Field.Name clone = Field.Name field
                ∧ Field.CloneOf clone = Field.CloneOf field
                ∧ Field.Type_ clone = Field.Type_ clonedField
                ∧ Field.Elements clone = Field.Elements clonedField
                ∧ Field.ElementNamesAttr clone
                  = Field.ElementNamesAttr clonedField
                ∧ Field.ElementNames clone = Field.ElementNames clonedField
                ∧ Field.OptionsAttr clone = Field.OptionsAttr clonedField
                ∧ Field.Options clone = Field.Options clonedField
                ∧ Field.FieldTypeInfo clone
                  = Field.FieldTypeInfo clonedField)
           ∧ ((j < i)%nat ∨ Field.CloneOf clonedField = "" →
              resolved !! j = Some clonedField))
    ∧ (∀ field, field ∈ Def.Fields loaded_definition →
                Field.CloneOf field ≠ "" →
                ∃ source, source ∈ Def.Fields loaded_definition
                          ∧ Field.Name source = Field.CloneOf field).
Proof.
  unfold newDefinition.
  destruct (post_process_all _ _) as [loaded|] eqn:Hloaded; [|done].
  destruct (create_clones _ _ _) as [resolved|] eqn:Hresolved; [|done].
  intros [= <-]. simpl. exists loaded, resolved.
  destruct (create_clones_spec _ _ _ _ Hresolved)
    as (Hlen & Hnames & _ & Hplain).
  assert (Hclones : ∀ i field,
    loaded !! i = Some field → Field.CloneOf field ≠ "" →
    ∃ (before : list Field.t) (j : nat) (clonedField : Field.t),
      create_clones i 0 loaded = Ok before
      ∧ FieldForName before (Field.CloneOf field) = Some clonedField
      ∧ before !! j = Some clonedField
      ∧ Field.Name clonedField = Field.CloneOf field
      ∧ resolved !! i = Some (clone_of clonedField field)
      ∧ (∃ clone : Field.t,
           resolved !! i = Some clone
           ∧ Field.Name clone = Field.Name field
           ∧ Field.CloneOf clone = Field.CloneOf field
           ∧ Field.Type_ clone = Field.Type_ clonedField
           ∧ Field.Elements clone = Field.Elements clonedField
           ∧ Field.ElementNamesAttr clone = Field.ElementNamesAttr clonedField
           ∧ Field.ElementNames clone = Field.ElementNames clonedField
           ∧ Field.OptionsAttr clone = Field.OptionsAttr clonedField
           ∧ Field.Options clone = Field.Options clonedField
           ∧ Field.FieldTypeInfo clone = Field.FieldTypeInfo clonedField)
      ∧ ((j < i)%nat ∨ Field.CloneOf clonedField = "" →
         resolved !! j = Some clonedField)).
  { intros i field Hi Hclone.
    destruct (create_clones_at _ _ _ _ Hresolved Hi Hclone)
      as (before & cloned & Hbefore & Hsrc & Hres & Hearlier).
    destruct (FieldForName_Some _ _ _ Hsrc) as (j & Hj & Hname).
    exists before, j, cloned.
    do 5 (split; [done|]).
    split; [by exists (clone_of cloned field)|].
    intros [Hlt|Hnoclone].
    - by rewrite Hearlier.
    - destruct (decide (j < i)%nat) as [Hlt|Hge];
        [by rewrite Hearlier|].
      destruct (create_clones_spec _ _ _ _ Hbefore) as (_ & _ & Hkeep & _).
      rewrite Hkeep in Hj by lia. by apply Hplain. }
  repeat split; try done.
  - apply sort_stable_perm.
  - by apply post_process_all_clones.
  - intros field Hin Hclone.
    rewrite sort_stable_perm in Hin.
    apply list_elem_of_lookup in Hin as [i Hi].
    destruct (lookup_lt_is_Some_2 loaded i) as [orig Horig].
    { rewrite <- Hlen. by eapply lookup_lt_Some. }
    destruct (decide (Field.CloneOf orig = "")) as [Hplain'|Hclone'].
    { rewrite (Hplain _ _ Horig Hplain') in Hi. congruence. }
    destruct (Hclones i orig Horig Hclone')
      as (before & j & cloned & Hbefore & _ & Hj & Hname & Hres & _).
    assert (field = clone_of cloned orig) as -> by congruence.
    destruct (create_clones_spec _ _ _ _ Hbefore) as (Hlenb & Hnamesb & _).
    destruct (lookup_lt_is_Some_2 resolved j) as [source Hsource].
    { rewrite Hlen, <- Hlenb. by eapply lookup_lt_Some. }
    exists source. split.
    + rewrite sort_stable_perm. by eapply list_elem_of_lookup_2.
    + assert (Hn : (Field.Name <$> resolved) !! j
                   = (Field.Name <$> before) !! j)
        by (by rewrite Hnames, Hnamesb).
      rewrite !list_lookup_fmap, Hsource, Hj in Hn. simpl in Hn.
      injection Hn as ->. done.
Qed.

End Loader.

(** * The claims on concrete inputs *)

(** C1. A hub with, in registration order, a connection that announced
    nothing (address 1), the owner of [HomeLocation] (address 2) and a
    third connection: a Request for [HomeLocation] is put on the inbound
    queue of the first connection, which does not hold the definition, and
    the owner receives nothing.  With the owner registered alone, the
    Request reaches nobody. *)
Theorem request_reaches_the_first_connection_without_the_definition :
  (∃ h', dispatchRequest homeLocation_request sample_hub sample_heap = Ret h'
         ∧ Connection.InChan <$> h' !! 1%nat
           = Some [MsgRequest homeLocation_request]
         ∧ Connection.InChan <$> h' !! 2%nat = Some [])
  ∧ dispatchRequest homeLocation_request
      (Dispatcher.mk [2%nat] [] 7%nat) sample_heap
    = Ret sample_heap.
Proof.
  split.
  - eexists. split; [reflexivity|]. split; vm_compute; reflexivity.
  - reflexivity.
Qed.

(** C3, as stated, fails: the encoded Request for [HomeLocation] has the
    8 header bytes and the checksum byte, 9 bytes, and its length field
    says 8. *)
Lemma request_frame_is_longer_than_its_length_field :
  ¬ (∀ bytes,
       toBinary crc8_example (newPacket homeLocation objectRequest 0 ∅)
       = Ok bytes →
       Z.of_nat (length bytes)
       = Packet.length (newPacket homeLocation objectRequest 0 ∅)).
Proof.
  intros H.
  specialize (H [Byte.x3c; Byte.x21; Byte.x08; Byte.x00; Byte.x32; Byte.xb0;
                 Byte.x32; Byte.xca; Byte.x78]).
  vm_compute in H. specialize (H eq_refl). discriminate H.
Qed.

(** The amended C3 on the [HomeLocation] frame of the scenario: 21 bytes,
    length field 20. *)
Lemma length_field_leaves_out_the_checksum_witness :
  toBinary crc8_example (newPacket homeLocation objectCmd 0 homeLocation_zero)
  = Ok homeLocation_frame
  ∧ le_combine (take 2 (drop 2 homeLocation_frame))
    = Packet.length (newPacket homeLocation objectCmd 0 homeLocation_zero)
  ∧ Packet.length (newPacket homeLocation objectCmd 0 homeLocation_zero)
    = (Z.of_nat (length homeLocation_frame) - 1) mod 2 ^ 16
  ∧ (Z.of_nat (length homeLocation_frame) - 1 < 2 ^ 16 →
     Z.of_nat (length homeLocation_frame)
     = Packet.length (newPacket homeLocation objectCmd 0 homeLocation_zero)
       + 1).
Proof.
  assert (H : toBinary crc8_example
                (newPacket homeLocation objectCmd 0 homeLocation_zero)
              = Ok homeLocation_frame) by (vm_compute; reflexivity).
  split; [exact H|].
  exact (length_field_leaves_out_the_checksum crc8_example homeLocation
           objectCmd 0 homeLocation_zero homeLocation_frame H).
Defined.

(** The all-zero map is well formed for [HomeLocation]. *)
Lemma well_formed_homeLocation_zero : well_formed homeLocation homeLocation_zero.
Proof.
  split.
  - intros f Hf. exists TFloat32, [SFloat32 0].
    repeat (apply elem_of_cons in Hf as [->|Hf]);
      [| | |by apply elem_of_nil in Hf];
      (split; [reflexivity|]; split; [reflexivity|]; split; [reflexivity|];
       repeat constructor; simpl; lia).
  - intros name [vs Hvs]. unfold homeLocation_zero in Hvs.
    repeat (apply lookup_insert_Some in Hvs as [[Hname _]|[_ Hvs]];
            [exists (float_field name); split; [|reflexivity];
             rewrite <- Hname; repeat constructor|]).
    by rewrite lookup_empty in Hvs.
Defined.

(** C4 on the [HomeLocation] object of the scenario. *)
Lemma encoded_packet_decodes_to_itself_witness :
  ∃ bytes,
    toBinary crc8_example (newPacket homeLocation objectCmd 0 homeLocation_zero)
    = Ok bytes
    ∧ newPacketFromBinary [homeLocation] (GoSlice.mk bytes [])
      = Ret (Ok (Packet.mk homeLocation objectCmd
                   (Packet.length
                      (newPacket homeLocation objectCmd 0 homeLocation_zero))
                   (if Def.SingleInstance homeLocation then 0 else 0)
                   homeLocation_zero)).
Proof.
  apply (encoded_packet_decodes_to_itself crc8_example [homeLocation]
           homeLocation objectCmd 0 homeLocation_zero []).
  - reflexivity.
  - simpl. lia.
  - lia.
  - by left.
  - exact well_formed_homeLocation_zero.
Defined.

(** Every registration of the sample hub is a record of the sample store. *)
Lemma sample_hub_live :
  ∀ p, p ∈ Dispatcher.connections sample_hub → is_Some (sample_heap !! p).
Proof.
  intros p Hp. simpl in Hp.
  repeat (apply elem_of_cons in Hp as [->|Hp]);
    [| | |by apply elem_of_nil in Hp]; eexists; reflexivity.
Defined.

(** C5 on the sample hub, for an Update coming from slot 0: the
    subscriber at address 3 receives it, the connections at addresses 1
    and 2 do not. *)
Lemma update_reaches_exactly_the_other_subscribers_witness :
  ∃ h', dispatchUpdate 0 homeLocation_update sample_hub sample_heap = Ret h'
        ∧ Connection.InChan <$> h' !! 1%nat = Some []
        ∧ Connection.InChan <$> h' !! 2%nat = Some []
        ∧ Connection.InChan <$> h' !! 3%nat
          = Some [MsgUpdate homeLocation_update].
Proof.
  destruct (update_reaches_exactly_the_other_subscribers sample_hub
              sample_heap 0 homeLocation_update sample_hub_live)
    as (h' & Hrun & _ & Hdistinct).
  exists h'. split; [exact Hrun|].
  assert (Hnd : NoDup (Dispatcher.connections sample_hub)) by compute_done.
  rewrite !(Hdistinct Hnd). repeat split; reflexivity.
Defined.

(** C6 on a buffer that holds exactly the [HomeLocation] frame. *)
Lemma scanner_makes_progress_witness :
  packetComplete crc8_example (GoSlice.mk homeLocation_frame [])
  = Ret (true, 0, 21, None)
  ∧ 0 <= 0 ∧ 0 < 21 ∧ 21 <= GoSlice.len (GoSlice.mk homeLocation_frame [])
  ∧ ∃ packet', discard (GoSlice.mk homeLocation_frame []) 21 = Ret packet'
               ∧ GoSlice.elems packet'
                 = drop (Z.to_nat 21)
                        (GoSlice.elems (GoSlice.mk homeLocation_frame []))
               ∧ GoSlice.len packet'
                 < GoSlice.len (GoSlice.mk homeLocation_frame []).
Proof.
  assert (H : packetComplete crc8_example (GoSlice.mk homeLocation_frame [])
              = Ret (true, 0, 21, None)) by (vm_compute; reflexivity).
  split; [exact H|].
  exact (scanner_makes_progress crc8_example _ _ _ _ _ H (or_introl eq_refl)).
Defined.

(** C7 on the [HomeLocation] frame and an empty registry. *)
Lemma unknown_object_drops_one_frame_witness :
  newPacketFromBinary [] (GoSlice.mk homeLocation_frame [])
  = Ret (Err (ObjectIDNotFound (frame_objectID homeLocation_frame)))
  ∧ ∃ packet',
      read_turn crc8_example [] (GoSlice.mk homeLocation_frame [])
      = Ret (Continue packet' None
               (Some (ObjectIDNotFound (frame_objectID homeLocation_frame))))
      ∧ GoSlice.elems packet' = drop (Z.to_nat 21) homeLocation_frame.
Proof.
  apply (unknown_object_drops_one_frame crc8_example []
           (GoSlice.mk homeLocation_frame [])
           (GoSlice.mk homeLocation_frame []) 0 21).
  - vm_compute. reflexivity.
  - lia.
  - vm_compute. reflexivity.
  - reflexivity.
Defined.

(** C8 on the sample hub: the connection at slot 1, address 2, subscribes
    to [HomeLocation]; an Update from slot 0 then leaves exactly one
    message on its inbound queue, after one subscription and after two. *)
Lemma subscribing_twice_is_subscribing_once_witness :
  processChannels 2 (MsgSubscription (Subscription.mk 0xCA32B032)) true
                  sample_hub sample_heap
  = Ret (sample_hub, sample_heap_subscribed)
  ∧ ∃ h2,
      processChannels 2 (MsgSubscription (Subscription.mk 0xCA32B032)) true
                      sample_hub sample_heap_subscribed
      = Ret (sample_hub, h2)
      ∧ (∀ events,
           outcome_rel same_hub (run events sample_hub sample_heap_subscribed)
                                (run events sample_hub h2))
      ∧ ∃ h1' h2',
          dispatchUpdate 0 homeLocation_update sample_hub
                         sample_heap_subscribed = Ret h1'
          ∧ dispatchUpdate 0 homeLocation_update sample_hub h2 = Ret h2'
          ∧ Connection.InChan <$> h1' !! 2%nat
            = Some [MsgUpdate homeLocation_update]
          ∧ Connection.InChan <$> h2' !! 2%nat
            = Some [MsgUpdate homeLocation_update].
Proof.
  assert (H : processChannels 2 (MsgSubscription (Subscription.mk 0xCA32B032))
                true sample_hub sample_heap
              = Ret (sample_hub, sample_heap_subscribed))
    by (vm_compute; reflexivity).
  split; [exact H|].
  destruct (subscribing_twice_is_subscribing_once sample_hub sample_heap 2
              0xCA32B032 sample_hub sample_heap_subscribed H)
    as (h2 & _ & Htwice & Hsame & Honce).
  exists h2. split; [exact Htwice|]. split; [exact Hsame|].
  assert (Hnd : NoDup (Dispatcher.connections sample_hub)) by compute_done.
  assert (Hfrom : connection_at sample_hub 0 ≠ Some 2%nat) by discriminate.
  destruct (Honce 2%nat 0 homeLocation_update Hnd sample_hub_live eq_refl
              Hfrom eq_refl)
    as (c & c1 & c2 & h1' & h2' & Hc & _ & _ & Hrun1 & Hrun2 & _ & _ & _
        & Hq1 & Hq2).
  change (Some (owner_connection 12%nat) = Some c) in Hc.
  injection Hc as <-.
  exists h1', h2'. split; [exact Hrun1|]. split; [exact Hrun2|].
  split; [exact Hq1|exact Hq2].
Defined.

(** C9 on a definition with one field and one clone of it: the clone
    [Pitch], declared without a type, ends with the type name, the element
    count and the type information of [Roll]. *)
Lemma clones_copy_their_source_witness :
  newDefinition sample_FieldTypeForString sample_less sample_calculateID
                sample_content
  = Ok (Def.mk "Sample" 1 true
          [Field.mk "Roll" "float" 1 "" [] "" [] "" (Some TFloat32);
           Field.mk "Pitch" "float" 1 "" [] "" [] "Roll" (Some TFloat32)])
  ∧ ∃ loaded resolved : list Field.t,
      post_process_all sample_FieldTypeForString (Def.Fields sample_content)
      = Ok loaded
      ∧ create_clones (length loaded) 0 loaded = Ok resolved
      ∧ [Field.mk "Roll" "float" 1 "" [] "" [] "" (Some TFloat32);
         Field.mk "Pitch" "float" 1 "" [] "" [] "Roll" (Some TFloat32)]
        ≡ₚ resolved
      ∧ ∃ clone : Field.t,
          resolved !! 1%nat = Some clone
          ∧ Field.Name clone = "Pitch"
          ∧ Field.CloneOf clone = "Roll"
          ∧ Field.Type_ clone = "float"
          ∧ Field.Elements clone = 1
          ∧ Field.ElementNames clone = []
          ∧ Field.Options clone = []
          ∧ Field.FieldTypeInfo clone = Some TFloat32.
Proof.
  assert (H : newDefinition sample_FieldTypeForString sample_less
                sample_calculateID sample_content
              = Ok (Def.mk "Sample" 1 true
                      [Field.mk "Roll" "float" 1 "" [] "" [] ""
                                (Some TFloat32);
                       Field.mk "Pitch" "float" 1 "" [] "" [] "Roll"
                                (Some TFloat32)]))
    by (vm_compute; reflexivity).
  split; [exact H|].
  destruct (clones_copy_their_source sample_FieldTypeForString sample_less
              sample_calculateID sample_content _ H)
    as (loaded & resolved & Hloaded & Hresolved & Hperm & _ & _ & Hclones
        & _).
  exists loaded, resolved. split; [exact Hloaded|].
  split; [exact Hresolved|]. split; [exact Hperm|].
  assert (Hl : [Field.mk "Roll" "float" 1 "" [] "" [] "" (Some TFloat32);
                Field.mk "Pitch" "" 0 "" [] "" [] "Roll" None] = loaded).
  { change (Ok [Field.mk "Roll" "float" 1 "" [] "" [] "" (Some TFloat32);
                Field.mk "Pitch" "" 0 "" [] "" [] "Roll" None] = Ok loaded)
      in Hloaded.
    injection Hloaded as Hl. exact Hl. }
  subst loaded.
  assert (Hclone : Field.CloneOf (Field.mk "Pitch" "" 0 "" [] "" [] "Roll" None)
                   ≠ "") by discriminate.
  destruct (Hclones 1%nat (Field.mk "Pitch" "" 0 "" [] "" [] "Roll" None)
              eq_refl Hclone)
    as (before & j & clonedField & Hbefore & Hsrc & _ & _ & _
        & (clone & Hat & Hname & Hcloneof & Htype & Helements & _ & Hnames
           & _ & Hoptions & Hinfo) & _).
  change (Ok [Field.mk "Roll" "float" 1 "" [] "" [] "" (Some TFloat32);
              Field.mk "Pitch" "" 0 "" [] "" [] "Roll" None] = Ok before)
    in Hbefore.
  injection Hbefore as Hb. subst before.
  change (Some (Field.mk "Roll" "float" 1 "" [] "" [] "" (Some TFloat32))
          = Some clonedField) in Hsrc.
  injection Hsrc as Hs. subst clonedField.
  exists clone. split; [exact Hat|]. split; [exact Hname|].
  split; [exact Hcloneof|]. split; [exact Htype|]. split; [exact Helements|].
  split; [exact Hnames|]. split; [exact Hoptions|exact Hinfo].
Defined.

(** The copy is single-level: in a forward chain the first clone keeps
    the state its source had before the source's own turn, here no type
    information, while the second clone gets the resolved field. *)
Example forward_chain_copies_the_unresolved_source :
  Def.Fields <$> (match newDefinition sample_FieldTypeForString sample_less
                          sample_calculateID chain_content with
                  | Ok definition => Some definition
                  | Err _ => None
                  end)
  = Some [Field.mk "Yaw" "" 0 "" [] "" [] "Pitch" None;
          Field.mk "Pitch" "float" 1 "" [] "" [] "Roll" (Some TFloat32);
          Field.mk "Roll" "float" 1 "" [] "" [] "" (Some TFloat32)].
Proof. vm_compute. reflexivity. Qed.

(** The sample hub is [NewDispatcher] after three [addConnection]s. *)
Lemma sample_hub_reachable : hub_reachable sample_heap 7%nat sample_hub.
Proof.
  apply reach_add
    with (d := Dispatcher.mk [1%nat; 2%nat]
                 [mkSelectCase SelectRecv 7%nat; mkSelectCase SelectRecv 11%nat;
                  mkSelectCase SelectRecv 12%nat] 7%nat)
         (connection := 3%nat); [|reflexivity].
  apply reach_add
    with (d := Dispatcher.mk [1%nat]
                 [mkSelectCase SelectRecv 7%nat; mkSelectCase SelectRecv 11%nat]
                 7%nat)
         (connection := 2%nat); [|reflexivity].
  apply reach_add with (d := NewDispatcher 7%nat) (connection := 1%nat);
    [|reflexivity].
  apply reach_new.
Defined.

(** C10 on the sample hub, and the removal of its middle connection. *)
Lemma cases_track_connections_witness :
  hub_reachable sample_heap 7%nat sample_hub
  ∧ cases_in_step sample_heap sample_hub
  ∧ removeConnectionAt 1 sample_hub
    = Ret (Dispatcher.mk [1%nat; 3%nat]
             [mkSelectCase SelectRecv 7%nat; mkSelectCase SelectRecv 11%nat;
              mkSelectCase SelectRecv 13%nat] 7%nat).
Proof.
  split; [exact sample_hub_reachable|].
  destruct (cases_track_connections sample_heap 7%nat sample_hub
              sample_hub_reachable) as (Hstep & _ & Hremove).
  split; [exact Hstep|].
  exact (Hremove 1%nat ltac:(simpl; lia)).
Defined.

(** * Further properties of the dispatch hub *)

Lemma grows_refl c : grows c c.
Proof. by repeat split. Qed.

Lemma grows_trans c1 c2 c3 : grows c1 c2 → grows c2 c3 → grows c1 c3.
Proof.
  intros (H1 & H2 & H3 & H4) (H1' & H2' & H3' & H4').
  repeat split; [by etrans..|congruence].
Qed.

Lemma heap_grows_refl h : heap_grows h h.
Proof.
  intros p. destruct (h !! p) as [c|] eqn:E; [|done].
  exists c. split; [done|apply grows_refl].
Qed.

Lemma heap_grows_trans h1 h2 h3 :
  heap_grows h1 h2 → heap_grows h2 h3 → heap_grows h1 h3.
Proof.
  intros H12 H23 p. specialize (H12 p). specialize (H23 p).
  destruct (h1 !! p) as [c1|].
  - destruct H12 as (c2 & E2 & G12). rewrite E2 in H23.
    destruct H23 as (c3 & E3 & G23). exists c3. split; [done|].
    by eapply grows_trans.
  - by rewrite H12 in H23.
Qed.

Lemma heap_grows_insert (h : heap) p c c' :
  h !! p = Some c → grows c c' → heap_grows h (<[p := c']> h).
Proof.
  intros Hp Hg q. destruct (decide (p = q)) as [<-|Hne].
  - rewrite Hp, lookup_insert_eq. by exists c'.
  - rewrite lookup_insert_ne by done.
    destruct (h !! q) as [cq|] eqn:E; [|done].
    exists cq. split; [done|apply grows_refl].
Qed.

Lemma grows_enqueue ms c : grows c (enqueue ms c).
Proof. repeat split; simpl; try done. by apply prefix_app_r. Qed.

Lemma send_grows p m h h' : send p m h = Ret h' → heap_grows h h'.
Proof.
  unfold send. destruct (h !! p) as [c|] eqn:E; [|done].
  intros [= <-]. eapply heap_grows_insert; [done|apply grows_enqueue].
Qed.

Lemma dispatchUpdate_loop_grows connections from update :
  ∀ i h h', dispatchUpdate_loop i connections from update h = Ret h' →
            heap_grows h h'.
Proof.
  induction connections as [|q rest IH]; intros i h h'; simpl.
  { intros [= <-]. apply heap_grows_refl. }
  destruct (i =? from); [apply IH|].
  destruct (h !! q) as [c|]; [|done].
  destruct (subscribed_to _ _); [|apply IH].
  destruct (send q (MsgUpdate update) h) as [h1|] eqn:Hsend; simpl; [|done].
  intros Hrest. eapply heap_grows_trans; [by eapply send_grows|by eapply IH].
Qed.

Lemma dispatchDefinition_loop_grows connections from definition :
  ∀ i h h', dispatchDefinition_loop i connections from definition h = Ret h' →
            heap_grows h h'.
Proof.
  induction connections as [|q rest IH]; intros i h h'; simpl.
  { intros [= <-]. apply heap_grows_refl. }
  destruct (i =? from); [apply IH|].
  destruct (send q (MsgDefinition definition) h) as [h1|] eqn:Hsend; simpl;
    [|done].
  intros Hrest. eapply heap_grows_trans; [by eapply send_grows|by eapply IH].
Qed.

Lemma dispatchRequest_loop_grows connections request :
  ∀ h h', dispatchRequest_loop connections request h = Ret h' →
          heap_grows h h'.
Proof.
  induction connections as [|q rest IH]; intros h h'; simpl.
  { intros [= <-]. apply heap_grows_refl. }
  destruct (h !! q) as [c|]; [|done].
  destruct (GetDefinitionForObjectID _ _); [apply IH|apply send_grows].
Qed.

Lemma processChannels_grows chosen value ok d h d' h' :
  processChannels chosen value ok d h = Ret (d', h') → heap_grows h h'.
Proof.
  unfold processChannels. destruct ok; simpl.
  - destruct value.
    + destruct (dispatchUpdate _ _ _ _) as [h1|] eqn:E; simpl; [|done].
      intros [= <- <-]. by eapply dispatchUpdate_loop_grows.
    + destruct (index _ _) as [p|]; simpl; [|done].
      destruct (h !! p) as [c|] eqn:Hp; [|done].
      intros [= <- <-]. eapply heap_grows_insert; [done|].
      repeat split; simpl; try done. by apply prefix_app_r.
    + destruct (index _ _) as [p|]; simpl; [|done].
      destruct (h !! p) as [c|] eqn:Hp; [|done].
      destruct (dispatchDefinition _ _ _ _) as [h1|] eqn:E; simpl; [|done].
      intros [= <- <-]. eapply heap_grows_trans;
        [|by eapply dispatchDefinition_loop_grows].
      eapply heap_grows_insert; [done|].
      repeat split; simpl; try done. by apply prefix_app_r.
    + destruct (dispatchRequest _ _ _) as [h1|] eqn:E; simpl; [|done].
      intros [= <- <-]. by eapply dispatchRequest_loop_grows.
    + destruct (addConnection _ _ _); simpl; [|done].
      intros [= <- <-]. apply heap_grows_refl.
    + intros [= <- <-]. apply heap_grows_refl.
  - destruct (removeConnectionAt _ _); simpl; [|done].
    intros [= <- <-]. apply heap_grows_refl.
Qed.

(** X1. Whatever the hub's loop processes, it only appends: after any run
    that returns, the same addresses hold connection records, and in each
    record the definitions, the subscriptions and the inbound queue have
    their old contents as a prefix and [OutChan] is unchanged.  No message
    already delivered is removed or reordered, no subscription is ever
    dropped. *)
Theorem hub_only_appends (events : list (Z * Message * bool))
    (d d' : Dispatcher.t) (h h' : heap) :
  run events d h = Ret (d', h') → heap_grows h h'.
Proof.
  revert d h. induction events as [|[[chosen value] ok] rest IH];
    intros d h; simpl.
  { intros [= <- <-]. apply heap_grows_refl. }
  destruct (processChannels chosen value ok d h) as [[d1 h1]|] eqn:E; simpl;
    [|done].
  intros Hrest. eapply heap_grows_trans;
    [by eapply processChannels_grows|by eapply IH].
Qed.

Lemma cases_in_step_grows h h' d :
  heap_grows h h' → cases_in_step h d → cases_in_step h' d.
Proof.
  intros Hg (Hlen & H0 & Hall). repeat split; try done.
  intros i p Hp. destruct (Hall i p Hp) as (c & Hc & Hcase).
  specialize (Hg p). rewrite Hc in Hg.
  destruct Hg as (c' & Hc' & _ & _ & _ & Hout).
  exists c'. split; [done|]. by rewrite <- Hout.
Qed.

(** An index at or beyond the number of connections: the shifting is
    skipped and the last connection and the last case are cut off. *)
Lemma removeConnectionAt_beyond (index_ : Z)
    (d : Dispatcher.t) :
  Z.of_nat (length (Dispatcher.connections d)) <= index_ →
  (0 < length (Dispatcher.connections d))%nat →
  (0 < length (Dispatcher.cases d))%nat →
  removeConnectionAt index_ d
  = Ret (Dispatcher.mk
           (take (length (Dispatcher.connections d) - 1)
                 (Dispatcher.connections d))
           (take (length (Dispatcher.cases d) - 1) (Dispatcher.cases d))
           (Dispatcher.connectionChan d)).
Proof.
  intros Hi Hconns Hcases. unfold removeConnectionAt.
  rewrite bool_decide_false by lia. simpl.
  destruct (lookup_lt_is_Some_2 (Dispatcher.connections d)
              (length (Dispatcher.connections d) - 1) ltac:(lia)) as [p Hp].
  replace (Z.of_nat (length (Dispatcher.connections d)) - 1)
    with (Z.of_nat (length (Dispatcher.connections d) - 1)) by lia.
  rewrite (index_lookup _ _ _ Hp). simpl.
  unfold slice_to. rewrite length_insert, !Nat2Z.id.
  rewrite !bool_decide_true by lia. simpl.
  replace (Z.to_nat (Z.of_nat (length (Dispatcher.connections d)) - 1))
    with (length (Dispatcher.connections d) - 1)%nat by lia.
  replace (Z.to_nat (Z.of_nat (length (Dispatcher.cases d)) - 1))
    with (length (Dispatcher.cases d) - 1)%nat by lia.
  by rewrite take_insert_ge by lia.
Qed.

(** A negative index and a hub without connections make
    [removeConnectionAt] panic. *)
Lemma removeConnectionAt_panics (index_ : Z) (d : Dispatcher.t) :
  index_ < 0 ∨ Dispatcher.connections d = [] →
  removeConnectionAt index_ d = Panic.
Proof.
  intros Hbad. unfold removeConnectionAt.
  destruct (decide (index_ < 0)) as [Hneg|Hpos].
  - rewrite (bool_decide_true (index_ < _)) by lia.
    unfold shift_down, slice_from.
    by rewrite (bool_decide_false (0 <= index_ <= _)) by lia.
  - destruct Hbad as [?|Hnil]; [lia|]. rewrite Hnil. simpl.
    rewrite (bool_decide_false (index_ < _)) by lia. done.
Qed.

(** X2. What [removeConnectionAt] does for every index, on a hub whose
    [cases] has one element more than [connections]: it panics on a
    negative index and on a hub without connections; it deletes the
    connection at the index and the case behind it when the index is that
    of a connection; and for an index at or beyond the number of
    connections it does not fail but cuts off the last connection and the
    last case. *)
Theorem removeConnectionAt_on_every_index (index_ : Z) (d : Dispatcher.t) :
  length (Dispatcher.cases d) = S (length (Dispatcher.connections d)) →
  removeConnectionAt index_ d
  = if bool_decide (index_ < 0 ∨ Dispatcher.connections d = []) then Panic
    else if bool_decide (index_ < Z.of_nat (length (Dispatcher.connections d)))
    then Ret (Dispatcher.mk
                (delete (Z.to_nat index_) (Dispatcher.connections d))
                (delete (S (Z.to_nat index_)) (Dispatcher.cases d))
                (Dispatcher.connectionChan d))
    else Ret (Dispatcher.mk
                (take (length (Dispatcher.connections d) - 1)
                      (Dispatcher.connections d))
                (take (length (Dispatcher.cases d) - 1) (Dispatcher.cases d))
                (Dispatcher.connectionChan d)).
Proof.
  intros Hlen. case_bool_decide as Hbad.
  { by apply removeConnectionAt_panics. }
  assert (0 <= index_ ∧ (0 < length (Dispatcher.connections d))%nat)
    as [Hpos Hsome].
  { split; [lia|]. destruct (Dispatcher.connections d); simpl; [|lia].
    exfalso. apply Hbad. by right. }
  case_bool_decide as Hin.
  - rewrite <- (Z2Nat.id index_) at 1 by done.
    apply removeConnectionAt_delete; [lia|done].
  - apply removeConnectionAt_beyond; lia.
Qed.

(** X3. A receive that reports case 0, the control channel
    [connectionChan], closed panics the hub's loop, and so does any closed
    channel while no connection is registered: [processChannels] calls
    [removeConnectionAt] with [chosen - 1]. *)
Theorem closed_control_channel_panics (chosen : Z) (value : Message)
    (d : Dispatcher.t) (h : heap) (events : list (Z * Message * bool)) :
  chosen <= 0 ∨ Dispatcher.connections d = [] →
  processChannels chosen value false d h = Panic
  ∧ run ((chosen, value, false) :: events) d h = Panic.
Proof.
  intros Hbad.
  assert (Hrm : removeConnectionAt (chosen - 1) d = Panic).
  { apply removeConnectionAt_panics. destruct Hbad; [left; lia|by right]. }
  assert (Hstep : processChannels chosen value false d h = Panic).
  { unfold processChannels. simpl. by rewrite Hrm. }
  split; [done|]. simpl. by rewrite Hstep.
Qed.

(** X4. Registering a connection and then removing it at the slot it got
    gives back the dispatcher as it was, when [cases] had one element more
    than [connections]. *)
Theorem remove_undoes_add (h : heap) (connection : ptr)
    (d d' : Dispatcher.t) :
  length (Dispatcher.cases d) = S (length (Dispatcher.connections d)) →
  addConnection h connection d = Ret d' →
  removeConnectionAt (Z.of_nat (length (Dispatcher.connections d))) d'
  = Ret d.
Proof.
  intros Hlen. unfold addConnection.
  destruct (h !! connection) as [c|]; [|done]. intros [= <-].
  rewrite removeConnectionAt_delete; simpl; rewrite ?length_app; simpl;
    try lia.
  rewrite <- Hlen, !delete_middle, !app_nil_r. by destruct d.
Qed.

Lemma cases_in_step_drop_last h d :
  cases_in_step h d →
  (0 < length (Dispatcher.connections d))%nat →
  cases_in_step h
    (Dispatcher.mk
       (take (length (Dispatcher.connections d) - 1)
             (Dispatcher.connections d))
       (take (length (Dispatcher.cases d) - 1) (Dispatcher.cases d))
       (Dispatcher.connectionChan d)).
Proof.
  intros (Hlen & H0 & Hall) Hpos. repeat split; simpl.
  - rewrite !length_take. lia.
  - rewrite lookup_take_lt by lia. done.
  - intros i p Hp.
    apply lookup_take_Some in Hp as [Hp Hi].
    rewrite lookup_take_lt by lia. by apply Hall.
Qed.

(** X5. Every call of [processChannels] that returns keeps the hub's
    bookkeeping: if [cases] is [connections] shifted by one behind the case
    of [connectionChan], with every registered pointer live, then so it is
    afterwards, whatever was received and from whichever case; and so it is
    after every run of the loop. *)
Theorem processChannels_keeps_cases_in_step (events : list (Z * Message * bool))
    (d d' : Dispatcher.t) (h h' : heap) :
  cases_in_step h d →
  run events d h = Ret (d', h') →
  cases_in_step h' d'.
Proof.
  revert d h. induction events as [|[[chosen value] ok] rest IH];
    intros d h Hinv; simpl.
  { by intros [= <- <-]. }
  destruct (processChannels chosen value ok d h) as [[d1 h1]|] eqn:E; simpl;
    [|done].
  apply IH. pose proof (processChannels_grows _ _ _ _ _ _ _ E) as Hg.
  unfold processChannels in E. destruct ok; simpl in E.
  - destruct value.
    + destruct (dispatchUpdate _ _ _ _); simpl in E; [|done].
      injection E as <- <-. by eapply cases_in_step_grows.
    + destruct (index _ _) as [p|]; simpl in E; [|done].
      destruct (h !! p); [|done].
      injection E as <- <-. by eapply cases_in_step_grows.
    + destruct (index _ _) as [p|]; simpl in E; [|done].
      destruct (h !! p); [|done].
      destruct (dispatchDefinition _ _ _ _); simpl in E; [|done].
      injection E as <- <-. by eapply cases_in_step_grows.
    + destruct (dispatchRequest _ _ _); simpl in E; [|done].
      injection E as <- <-. by eapply cases_in_step_grows.
    + destruct (addConnection h c d) as [d2|] eqn:Hadd; simpl in E; [|done].
      injection E as <- <-. by eapply cases_in_step_add.
    + injection E as <- <-. done.
  - destruct (removeConnectionAt (chosen - 1) d) as [d2|] eqn:Hrm;
      simpl in E; [|done].
    injection E as <- <-.
    destruct (decide (chosen <= 0)) as [Hneg|Hpos].
    { rewrite removeConnectionAt_panics in Hrm by (left; lia). done. }
    destruct (decide (Dispatcher.connections d = [])) as [Hnil|Hcons].
    { rewrite removeConnectionAt_panics in Hrm by (by right). done. }
    assert (0 < length (Dispatcher.connections d))%nat.
    { destruct (Dispatcher.connections d); simpl; [done|lia]. }
    destruct (decide (chosen - 1 < Z.of_nat (length (Dispatcher.connections d))))
      as [Hin|Hout].
    + replace (chosen - 1) with (Z.of_nat (Z.to_nat (chosen - 1))) in Hrm
        by lia.
      rewrite removeConnectionAt_delete in Hrm by (destruct Hinv; lia).
      injection Hrm as <-. by apply cases_in_step_delete.
    + rewrite removeConnectionAt_beyond in Hrm
        by (destruct Hinv; lia).
      injection Hrm as <-. by apply cases_in_step_drop_last.
Qed.

(** ** Announcements and requests *)

Lemma dispatchDefinition_loop_spec (connections : list ptr) (from : Z)
    (definition : Def.t) :
  ∀ (i : Z) (h : heap),
    (∀ p, p ∈ connections → is_Some (h !! p)) →
    ∃ h', dispatchDefinition_loop i connections from definition h = Ret h'
          ∧ ∀ p, h' !! p
                 = enqueue (replicate (other_slots i connections from p)
                                      (MsgDefinition definition))
                   <$> h !! p.
Proof.
  induction connections as [|q rest IH]; intros i h Hlive; simpl.
  - exists h. split; [done|]. intros p.
    destruct (h !! p) as [c|]; simpl; [|done]. by rewrite enqueue_nil.
  - assert (Hrest : ∀ p, p ∈ rest → is_Some (h !! p)).
    { intros p Hp. apply Hlive. by right. }
    destruct (Z.eqb_spec i from) as [->|Hne].
    + destruct (IH (from + 1) h Hrest) as (h' & -> & Hh').
      exists h'. split; [done|]. intros p. rewrite Hh'.
      rewrite bool_decide_false by (by intros [? _]). done.
    + destruct (Hlive q ltac:(left)) as [c Hc].
      unfold send. rewrite Hc. simpl.
      destruct (IH (i + 1) (<[q := enqueue [MsgDefinition definition] c]> h))
        as (h' & -> & Hh').
      { intros p Hp. rewrite lookup_insert. case_decide; [done|].
        by apply Hrest. }
      exists h'. split; [done|]. intros p. rewrite Hh'.
      destruct (decide (q = p)) as [->|Hqp].
      * rewrite lookup_insert_eq, Hc. simpl.
        rewrite enqueue_enqueue, bool_decide_true by done. done.
      * rewrite lookup_insert_ne by done.
        rewrite bool_decide_false by (by intros [_ ?]). done.
Qed.

Lemma other_slots_unregistered i connections from p :
  p ∉ connections → other_slots i connections from p = 0%nat.
Proof.
  revert i. induction connections as [|q rest IH]; intros i Hp; simpl.
  - done.
  - apply not_elem_of_cons in Hp as [Hne Hp].
    rewrite IH by done.
    rewrite bool_decide_false by (intros [_ ?]; by subst). done.
Qed.

Lemma other_slots_registered_once connections from p (k : nat) :
  NoDup connections → connections !! k = Some p →
  ∀ i, other_slots i connections from p
       = if bool_decide (i + Z.of_nat k ≠ from) then 1%nat else 0%nat.
Proof.
  intros Hnd. revert k.
  induction Hnd as [|q rest Hq Hnd IH]; intros k Hk i; simpl.
  - done.
  - destruct k as [|k]; simpl in Hk.
    + injection Hk as ->.
      rewrite (other_slots_unregistered _ _ _ _ Hq).
      rewrite Z.add_0_r, Nat.add_0_r.
      apply (f_equal (λ b : bool, if b then _ else _)).
      apply bool_decide_ext. intuition lia.
    + rewrite (IH k Hk).
      assert (q ≠ p).
      { intros ->. apply Hq. by eapply list_elem_of_lookup_2. }
      rewrite (bool_decide_false (_ ∧ q = p)) by (by intros [_ ?]).
      simpl. replace (i + 1 + Z.of_nat k) with (i + Z.of_nat (S k)) by lia.
      done.
Qed.

(** X6. A Definition received from the connection at slot [chosen - 1] of
    a hub with distinct live registrations is appended to that
    connection's own definitions and put exactly once on the inbound queue
    of every other registered connection, whatever their subscriptions:
    that queue is the old one followed by the one Definition.  The
    sender's queue, the unregistered records and the dispatcher are left
    as they were. *)
Theorem definition_is_recorded_and_broadcast (d : Dispatcher.t) (h : heap)
    (chosen : Z) (data : Def.t) (sender : ptr) (c : Connection.t) :
  (∀ p, p ∈ Dispatcher.connections d → is_Some (h !! p)) →
  NoDup (Dispatcher.connections d) →
  connection_at d (chosen - 1) = Some sender →
  h !! sender = Some c →
  ∃ h', processChannels chosen (MsgDefinition data) true d h = Ret (d, h')
        ∧ h' !! sender = Some (announce data c)
        ∧ (∀ p, p ≠ sender →
                h' !! p
                = (λ c, if bool_decide (p ∈ Dispatcher.connections d)
                        then enqueue [MsgDefinition data] c else c)
                  <$> h !! p)
        ∧ Connection.definitions <$> h' !! sender
          = Some (Connection.definitions c ++ [data])
        ∧ Connection.InChan <$> h' !! sender = Some (Connection.InChan c)
        ∧ (∀ p c', p ≠ sender → p ∈ Dispatcher.connections d →
                   h !! p = Some c' →
                   Connection.InChan <$> h' !! p
                   = Some (Connection.InChan c' ++ [MsgDefinition data]))
        ∧ ∀ p, p ∉ Dispatcher.connections d → h' !! p = h !! p.
Proof.
  intros Hlive Hnd Hat Hc. unfold connection_at in Hat.
  case_bool_decide as Hpos; [|done].
  unfold processChannels. simpl.
  assert (Hidx : index (Dispatcher.connections d) (chosen - 1) = Ret sender).
  { rewrite <- (Z2Nat.id (chosen - 1)) by done. by apply index_lookup. }
  rewrite Hidx. simpl. rewrite Hc.
  fold (announce data c). unfold dispatchDefinition.
  destruct (dispatchDefinition_loop_spec (Dispatcher.connections d)
              (chosen - 1) data 0 (<[sender := announce data c]> h))
    as (h' & -> & Hh').
  { intros p Hp. rewrite lookup_insert. case_decide; [done|].
    by apply Hlive. }
  assert (Hsender : h' !! sender = Some (announce data c)).
  { rewrite Hh', lookup_insert_eq. simpl.
    rewrite (other_slots_registered_once _ _ _ _ Hnd Hat).
    rewrite bool_decide_false by lia. by rewrite enqueue_nil. }
  assert (Hothers : ∀ p, p ≠ sender →
            h' !! p
            = (λ c, if bool_decide (p ∈ Dispatcher.connections d)
                    then enqueue [MsgDefinition data] c else c)
              <$> h !! p).
  { intros p Hne. rewrite Hh', lookup_insert_ne by done.
    destruct (h !! p) as [cp|] eqn:Hp; simpl; [|done]. f_equal.
    case_bool_decide as Hin.
    + apply list_elem_of_lookup in Hin as [k Hk].
      rewrite (other_slots_registered_once _ _ _ _ Hnd Hk).
      rewrite bool_decide_true; [done|].
      intros Heq. apply Hne.
      assert (Z.to_nat (chosen - 1) = k) as <- by lia. congruence.
    + rewrite other_slots_unregistered by done. apply enqueue_nil. }
  exists h'. split; [done|]. split; [done|]. split; [done|].
  split; [by rewrite Hsender|]. split; [by rewrite Hsender|]. split.
  - intros p c' Hne Hin Hp.
    by rewrite (Hothers p Hne), Hp, bool_decide_true.
  - intros p Hout.
    assert (Hne : p ≠ sender).
    { intros ->. apply Hout. by eapply list_elem_of_lookup_2. }
    rewrite (Hothers p Hne), bool_decide_false by done.
    by destruct (h !! p).
Qed.

(** X7. [dispatchRequest] returns after its first send: when it returns,
    either no record has changed, or exactly one registered connection has
    the Request appended to its inbound queue, and that connection is one
    whose definitions do not resolve the requested object ID. *)
Theorem request_reaches_at_most_one_connection (request : Request.t)
    (d : Dispatcher.t) (h h' : heap) :
  dispatchRequest request d h = Ret h' →
  h' = h
  ∨ ∃ q c, q ∈ Dispatcher.connections d
           ∧ h !! q = Some c
           ∧ GetDefinitionForObjectID (Connection.definitions c)
                                      (Request.ObjectID request) = None
           ∧ h' = <[q := enqueue [MsgRequest request] c]> h.
Proof.
  unfold dispatchRequest.
  induction (Dispatcher.connections d) as [|q rest IH]; simpl.
  { intros [= <-]. by left. }
  destruct (h !! q) as [c|] eqn:Hq; [|done].
  destruct (GetDefinitionForObjectID _ _) eqn:Hlookup.
  - intros Hrest. destruct (IH Hrest) as [->|(q' & c' & Hin & ?)];
      [by left|right].
    exists q', c'. split; [by right|done].
  - unfold send. rewrite Hq. intros [= <-]. right.
    exists q, c. split; [by left|done].
Qed.

(** * Further properties of the frame layer *)

(** X8. [byteArrayToInt16] returns exactly on slices of two bytes, any
    other length panics; the value is the little-endian reading of the two
    bytes, it lies in [0, 2^16), and it undoes the little-endian writing
    of a [uint16]. *)
Theorem byteArrayToInt16_reads_little_endian (b : GoSlice.t) (z : Z)
    (spare : list byte) :
  byteArrayToInt16 b
  = (if bool_decide (length (GoSlice.elems b) = 2%nat)
     then Ret (le_combine (GoSlice.elems b)) else Panic)
  ∧ (∀ n, byteArrayToInt16 b = Ret n → 0 <= n < 2 ^ 16)
  ∧ byteArrayToInt16 (GoSlice.mk (le_split 2 z) spare) = Ret (z mod 2 ^ 16).
Proof.
  split; [|split].
  - destruct b as [bytes sp]. simpl.
    destruct bytes as [|b0 [|b1 [|b2 bytes]]]; try done.
    by rewrite byteArrayToInt16_le.
  - intros n Hn. by apply byteArrayToInt16_Ret in Hn as [? _].
  - pose proof (length_le_split 2 z) as Hlen.
    pose proof (le_combine_split 2 z) as Hz.
    destruct (le_split 2 z) as [|b0 [|b1 [|]]]; try done.
    by rewrite byteArrayToInt16_le, Hz.
Qed.

(** X9. [byteArrayToInt32] returns exactly on slices of four bytes, any
    other length panics (a longer slice too); the value is the
    little-endian reading of the four bytes, it lies in [0, 2^32), and it
    undoes the little-endian writing of a [uint32]. *)
Theorem byteArrayToInt32_reads_little_endian (b : GoSlice.t) (z : Z)
    (spare : list byte) :
  byteArrayToInt32 b
  = (if bool_decide (length (GoSlice.elems b) = 4%nat)
     then Ret (le_combine (GoSlice.elems b)) else Panic)
  ∧ (∀ n, byteArrayToInt32 b = Ret n → 0 <= n < 2 ^ 32)
  ∧ byteArrayToInt32 (GoSlice.mk (le_split 4 z) spare) = Ret (z mod 2 ^ 32).
Proof.
  assert (Hexact : byteArrayToInt32 b
                   = (if bool_decide (length (GoSlice.elems b) = 4%nat)
                      then Ret (le_combine (GoSlice.elems b)) else Panic)).
  { destruct b as [bytes sp]. simpl.
    destruct bytes as [|b0 [|b1 [|b2 [|b3 [|b4 bytes]]]]]; try done.
    by rewrite byteArrayToInt32_le. }
  split; [done|split].
  - intros n. rewrite Hexact. case_bool_decide as Hlen; [|done].
    intros [= <-]. pose proof (le_combine_bound (GoSlice.elems b)) as Hb.
    rewrite Hlen in Hb. exact Hb.
  - pose proof (length_le_split 4 z) as Hlen.
    pose proof (le_combine_split 4 z) as Hz.
    destruct (le_split 4 z) as [|b0 [|b1 [|b2 [|b3 [|]]]]]; try done.
    by rewrite byteArrayToInt32_le, Hz.
Qed.

Lemma find_sync_none (packet : list byte) (i : Z) :
  Forall (λ b, b ≠ Byte.x3c) packet → find_sync i packet = -1.
Proof.
  intros Hall. revert i. induction Hall as [|b rest Hb _ IH]; intros i; simpl.
  - done.
  - by rewrite bool_decide_false.
Qed.

Lemma find_sync_skips (garbage rest : list byte) (i : Z) :
  Forall (λ b, b ≠ Byte.x3c) garbage →
  find_sync i (garbage ++ Byte.x3c :: rest) = i + Z.of_nat (length garbage).
Proof.
  intros Hall. revert i. induction Hall as [|b g Hb _ IH]; intros i; simpl.
  - lia.
  - rewrite bool_decide_false by done. rewrite IH. lia.
Qed.

Section ScannerVerdict.

Variable computeCrc8 : byte → list byte → byte.
Variable definitions : list Def.t.

(** X10. A buffer without a sync byte, the empty buffer included, is
    Incomplete for the scanner, whatever lies behind it in the backing
    array, and the reader's turn breaks the inner loop without touching
    the buffer: such bytes are never discarded. *)
Theorem no_sync_byte_is_incomplete (packet : GoSlice.t) :
  Forall (λ b, b ≠ Byte.x3c) (GoSlice.elems packet) →
  packetComplete computeCrc8 packet = Ret (false, 0, 0, None)
  ∧ read_turn computeCrc8 definitions packet = Ret Break
  ∧ ∀ fuel, read_loop computeCrc8 definitions (S fuel) packet
            = Ret (Some (packet, [], [])).
Proof.
  intros Hall.
  assert (Hscan : packetComplete computeCrc8 packet = Ret (false, 0, 0, None)).
  { unfold packetComplete. by rewrite find_sync_none. }
  assert (Hturn : read_turn computeCrc8 definitions packet = Ret Break).
  { unfold read_turn. by rewrite Hscan. }
  split; [done|]. split; [done|]. intros fuel. simpl. by rewrite Hturn.
Qed.

(** What the scanner says about a length-delimited candidate: [body]
    starts with the sync byte and carries its own length in bytes 2 and 3,
    [c] is the byte behind it, the bytes before it hold no sync byte. *)
Lemma packetComplete_verdict (garbage body rest spare : list byte) (c : byte) :
  Forall (λ b, b ≠ Byte.x3c) garbage →
  head body = Some Byte.x3c →
  (4 <= length body)%nat →
  le_combine (take 2 (drop 2 body)) = Z.of_nat (length body) →
  packetComplete computeCrc8 (GoSlice.mk (garbage ++ body ++ c :: rest) spare)
  = if bool_decide (c ≠ computeCrc8 (byte.of_Z 0) body)
    then Ret (false, Z.of_nat (length garbage),
              Z.of_nat (length garbage) + Z.of_nat (length body) + 1,
              Some WrongCrc8)
    else Ret (true, Z.of_nat (length garbage),
              Z.of_nat (length garbage) + Z.of_nat (length body) + 1, None).
Proof.
  intros Hgarbage Hhead Hlen Hfield.
  destruct body as [|s body']; [done|]. injection Hhead as ->.
  unfold packetComplete. cbn [GoSlice.elems].
  rewrite <- app_comm_cons, find_sync_skips by done. rewrite Z.add_0_l.
  set (g := length garbage). set (body := Byte.x3c :: body') in *.
  set (elems := garbage ++ Byte.x3c :: body' ++ c :: rest).
  assert (Helems : elems = garbage ++ body ++ c :: rest) by done.
  assert (Hlenall : length elems = (g + length body + S (length rest))%nat).
  { rewrite Helems, !length_app. simpl. lia. }
  destruct (Z.ltb_spec (Z.of_nat g) 0); [lia|].
  rewrite slice_within by (unfold GoSlice.len; cbn [GoSlice.elems];
                           fold elems; lia).
  ret_bind. cbn [GoSlice.elems]. fold elems.
  assert (Hheader : take (Z.to_nat (Z.of_nat g + 4 - (Z.of_nat g + 2)))
                      (drop (Z.to_nat (Z.of_nat g + 2)) elems)
                    = take 2 (drop 2 body)).
  { replace (Z.to_nat (Z.of_nat g + 4 - (Z.of_nat g + 2))) with 2%nat by lia.
    replace (Z.to_nat (Z.of_nat g + 2)) with (g + 2)%nat by lia.
    rewrite Helems, <- drop_drop. unfold g. rewrite drop_app_length.
    rewrite drop_app_le by lia.
    rewrite take_app_le by (rewrite length_drop; lia). done. }
  rewrite Hheader.
  assert (H2 : length (take 2 (drop 2 body)) = 2%nat).
  { rewrite length_take, length_drop. lia. }
  destruct (take 2 (drop 2 body)) as [|l0 [|l1 [|]]] eqn:Hhdr; try done.
  rewrite byteArrayToInt16_le, Hfield. ret_bind.
  destruct (Z.gtb_spec (Z.of_nat (length body) + 1)
              (GoSlice.len (GoSlice.mk elems spare) - Z.of_nat g))
    as [Hshort|_].
  { unfold GoSlice.len in Hshort. cbn [GoSlice.elems] in Hshort. lia. }
  rewrite (at_within _ _ c); [| lia |].
  2:{ cbn [GoSlice.elems].
      replace (Z.to_nat (Z.of_nat g + Z.of_nat (length body)))
        with (g + length body)%nat by lia.
      rewrite Helems, lookup_app_r by lia.
      rewrite lookup_app_r by lia.
      by replace (g + length body - length garbage - length body)%nat
        with 0%nat by lia. }
  ret_bind.
  rewrite slice_within by (unfold GoSlice.len; cbn [GoSlice.elems]; lia).
  ret_bind. cbn [GoSlice.elems].
  replace (take _ (drop _ elems)) with body; [done|].
  replace (Z.to_nat (Z.of_nat g + Z.of_nat (length body) - Z.of_nat g))
    with (length body) by lia.
  rewrite Nat2Z.id, Helems. unfold g. rewrite drop_app_length.
  by rewrite take_app_length.
Qed.

End ScannerVerdict.

Section Pipeline.

Variable computeCrc8 : byte → list byte → byte.
Variable definitions : list Def.t.

(** Decoding the bytes [toBinary] lays out for a packet of one of the five
    commands: header, payload and one more byte. *)
Lemma newPacketFromBinary_frame (definition : Def.t) (cmd L instanceID : Z)
    (data : Object) (payload : list byte) (cks : byte) (spare : list byte) :
  registered definitions definition →
  0 <= Def.ObjectID definition < 2 ^ 32 →
  0 <= instanceID < 2 ^ 16 →
  0 <= L < 2 ^ 16 →
  0 <= cmd <= 4 →
  newPacketFromBinary definitions
    (GoSlice.mk (frame_header (Packet.mk definition cmd L instanceID data)
                   ++ payload ++ [cks]) spare)
  = if bool_decide (cmd = objectCmd ∨ cmd = objectCmdWithAck)
    then match uAVTalkToMap definition payload with
         | Err e => Ret (Err e)
         | Ok data' =>
             Ret (Ok (Packet.mk definition cmd L
                        (if Def.SingleInstance definition then 0
                         else instanceID) data'))
         end
    else Ret (Ok (Packet.mk definition cmd L
                    (if Def.SingleInstance definition then 0 else instanceID)
                    ∅)).
Proof.
  intros Hreg Hid Hinst HL Hcmd.
  unfold frame_header.
  cbn [Packet.cmd Packet.definition Packet.length Packet.instanceID].
  assert (Hcmdb : Z.lxor (byte.unsigned (byte.of_Z (Z.lor cmd versionMask)))
                         versionMask = cmd).
  { assert (cmd = 0 ∨ cmd = 1 ∨ cmd = 2 ∨ cmd = 3 ∨ cmd = 4) as Hc by lia.
    by destruct Hc as [->|[->|[->|[->| ->]]]]. }
  set (cmdb := byte.of_Z (Z.lor cmd versionMask)) in *. clearbody cmdb.
  pose proof (length_le_split 2 L) as H2.
  pose proof (le_combine_split_small 2 L ltac:(simpl; lia)) as HcL.
  destruct (le_split 2 L) as [|l0 [|l1 [|]]]; try done.
  pose proof (length_le_split 4 (Def.ObjectID definition)) as H4.
  pose proof (le_combine_split_small 4 (Def.ObjectID definition)
                ltac:(simpl; lia)) as Hc4.
  destruct (le_split 4 (Def.ObjectID definition))
    as [|i0 [|i1 [|i2 [|i3 [|]]]]]; try done.
  pose proof (length_le_split 2 instanceID) as Hn.
  pose proof (le_combine_split_small 2 instanceID ltac:(simpl; lia)) as Hcn.
  destruct (le_split 2 instanceID) as [|n0 [|n1 [|]]]; try done.
  unfold newPacketFromBinary.
  destruct (Def.SingleInstance definition) eqn:Hsingle; cbn [negb];
    rewrite <- !app_assoc; cbn [app].
  - rewrite (at_within _ 1 cmdb) by done. ret_bind.
    rewrite (slice_within _ 2 4) by len_bound. ret_bind.
    simpl take. rewrite byteArrayToInt16_le, HcL. ret_bind.
    rewrite (slice_within _ 4 8) by len_bound. ret_bind.
    simpl take. rewrite byteArrayToInt32_le, Hc4. ret_bind.
    rewrite Hreg, Hsingle. cbn [negb]. ret_bind.
    rewrite slice_within by len_bound.
    ret_bind. cbn [GoSlice.elems]. rewrite Hcmdb.
    replace (take _ _) with payload; [done|].
    unfold GoSlice.len, shortHeaderLength. cbn [GoSlice.elems length].
    rewrite length_app. simpl drop.
    replace (Z.to_nat _) with (length payload) by (simpl; lia).
    by rewrite drop_0, take_app_length.
  - rewrite (at_within _ 1 cmdb) by done. ret_bind.
    rewrite (slice_within _ 2 4) by len_bound. ret_bind.
    simpl take. rewrite byteArrayToInt16_le, HcL. ret_bind.
    rewrite (slice_within _ 4 8) by len_bound. ret_bind.
    simpl take. rewrite byteArrayToInt32_le, Hc4. ret_bind.
    rewrite Hreg, Hsingle. cbn [negb].
    rewrite (slice_within _ 8 10) by len_bound. ret_bind.
    simpl take. rewrite byteArrayToInt16_le, Hcn. ret_bind.
    rewrite slice_within by len_bound.
    ret_bind. cbn [GoSlice.elems]. rewrite Hcmdb.
    replace (take _ _) with payload; [done|].
    unfold GoSlice.len, shortHeaderLength. cbn [GoSlice.elems length].
    rewrite length_app. simpl drop.
    replace (Z.to_nat _) with (length payload) by (simpl; lia).
    by rewrite drop_0, take_app_length.
Qed.

Lemma frame_header_head (packet : Packet.t) :
  head (frame_header packet) = Some Byte.x3c.
Proof. done. Qed.

(** The header and payload that [toBinary] writes for a new packet, when
    their number fits the length field. *)
Lemma toBinary_body (definition : Def.t) (cmd instanceID : Z) (data : Object)
    (bytes : list byte) :
  toBinary computeCrc8 (newPacket definition cmd instanceID data) = Ok bytes →
  Z.of_nat (length bytes) - 1 < 2 ^ 16 →
  ∃ body,
    bytes = body ++ [computeCrc8 (byte.of_Z 0) body]
    ∧ head body = Some Byte.x3c
    ∧ (8 <= length body)%nat
    ∧ le_combine (take 2 (drop 2 body)) = Z.of_nat (length body)
    ∧ Packet.length (newPacket definition cmd instanceID data)
      = Z.of_nat (length body).
Proof.
  intros Hbin Hfit.
  destruct (toBinary_length _ _ _ _ _ _ Hbin) as [Hfield Hmod].
  rewrite toBinary_frame in Hbin.
  destruct (if bool_decide _ then _ else _) as [payload|]; [|done].
  apply Ok_inj in Hbin as <-.
  set (packet := newPacket definition cmd instanceID data) in *.
  clearbody packet.
  exists (frame_header packet ++ payload).
  pose proof (frame_header_length packet) as Hhdr.
  assert (Hlen8 : (8 <= length (frame_header packet ++ payload))%nat).
  { rewrite length_app. unfold shortHeaderLength in Hhdr.
    destruct (negb _); lia. }
  rewrite app_assoc in *. rewrite length_app in Hmod, Hfit.
  cbn [length] in Hmod, Hfit.
  rewrite Z.mod_small in Hmod by lia.
  split; [done|]. split; [done|]. split; [done|].
  split; [|lia].
  rewrite drop_app_le in Hfield by lia.
  rewrite take_app_le in Hfield by (rewrite length_drop; lia).
  rewrite Hfield. lia.
Qed.

(** X11. A frame written by [toBinary] for a new packet, of fewer than
    2^16 bytes before the checksum, is Complete for the scanner wherever it
    stands in the buffer behind bytes without a sync byte, and the bounds
    reported are exactly its own; with any other byte in place of its
    checksum byte the same candidate is reported Invalid with the error
    of [packetComplete]. *)
Theorem encoded_frame_is_complete (definition : Def.t) (cmd instanceID : Z)
    (data : Object) (bytes garbage rest spare : list byte) :
  toBinary computeCrc8 (newPacket definition cmd instanceID data) = Ok bytes →
  Z.of_nat (length bytes) - 1 < 2 ^ 16 →
  Forall (λ b, b ≠ Byte.x3c) garbage →
  packetComplete computeCrc8 (GoSlice.mk (garbage ++ bytes ++ rest) spare)
  = Ret (true, Z.of_nat (length garbage),
         Z.of_nat (length garbage) + Z.of_nat (length bytes), None)
  ∧ ∀ c, last bytes ≠ Some c →
         packetComplete computeCrc8
           (GoSlice.mk (garbage ++ take (length bytes - 1) bytes ++ c :: rest)
                       spare)
         = Ret (false, Z.of_nat (length garbage),
                Z.of_nat (length garbage) + Z.of_nat (length bytes),
                Some WrongCrc8).
Proof.
  intros Hbin Hfit Hgarbage.
  destruct (toBinary_body _ _ _ _ _ Hbin Hfit)
    as (body & -> & Hhead & Hlen & Hfield & _).
  rewrite length_app. simpl length.
  replace (Z.of_nat (length body + 1)) with (Z.of_nat (length body) + 1)
    by lia.
  rewrite Z.add_assoc. split.
  - rewrite <- app_assoc. simpl app.
    rewrite packetComplete_verdict by (done || lia).
    by rewrite bool_decide_false by (by intros H; apply H).
  - intros c Hc. rewrite last_snoc in Hc.
    replace (length body + 1 - 1)%nat with (length body) by lia.
    rewrite take_app_length.
    rewrite packetComplete_verdict by (done || lia).
    rewrite bool_decide_true; [done|]. congruence.
Qed.

(** X12. A Request, Ack or Nack packet always encodes, whatever its data
    map holds: [toBinary] does not look at the data and writes the header
    and the checksum, 9 bytes, or 11 with the instance ID; decoding these
    bytes gives the packet back with an empty data map (and instance ID 0
    for a single-instance definition). *)
Theorem commands_without_payload_round_trip (definition : Def.t)
    (cmd instanceID : Z) (data : Object) (spare : list byte) :
  registered definitions definition →
  0 <= Def.ObjectID definition < 2 ^ 32 →
  0 <= instanceID < 2 ^ 16 →
  cmd = objectRequest ∨ cmd = objectAck ∨ cmd = objectNack →
  ∃ bytes,
    toBinary computeCrc8 (newPacket definition cmd instanceID data) = Ok bytes
    ∧ Z.of_nat (length bytes)
      = (if Def.SingleInstance definition then 9 else 11)
    ∧ newPacketFromBinary definitions (GoSlice.mk bytes spare)
      = Ret (Ok (Packet.mk definition cmd
                   (if Def.SingleInstance definition then 8 else 10)
                   (if Def.SingleInstance definition then 0 else instanceID)
                   ∅)).
Proof.
  intros Hreg Hid Hinst Hcmd.
  assert (Hnot : ¬ (cmd = objectCmd ∨ cmd = objectCmdWithAck)).
  { unfold objectCmd, objectCmdWithAck, objectRequest, objectAck, objectNack
      in *. lia. }
  assert (Hrange : 0 <= cmd <= 4).
  { unfold objectRequest, objectAck, objectNack in *. lia. }
  rewrite toBinary_frame.
  set (L := if Def.SingleInstance definition then 8 else 10).
  assert (Hpacket : newPacket definition cmd instanceID data
                    = Packet.mk definition cmd L instanceID data).
  { unfold newPacket, L. rewrite bool_decide_false by done.
    by destruct (Def.SingleInstance definition). }
  rewrite Hpacket. cbn [Packet.cmd].
  rewrite bool_decide_false by done.
  eexists. split; [done|]. split.
  - rewrite length_app, Nat2Z.inj_add, frame_header_length. simpl.
    destruct (Def.SingleInstance definition); done.
  - rewrite (newPacketFromBinary_frame definition cmd L instanceID data [])
      by (done || (unfold L; destruct (Def.SingleInstance definition); lia)).
    by rewrite bool_decide_false by done.
Qed.

(** One turn of the reader on bytes without a sync byte, an encoded frame
    and more bytes. *)
Lemma read_turn_frame (definition : Def.t)
    (cmd instanceID : Z) (data : Object) (garbage rest spare : list byte) :
  registered definitions definition →
  0 <= Def.ObjectID definition < 2 ^ 32 →
  0 <= instanceID < 2 ^ 16 →
  cmd = objectCmd ∨ cmd = objectCmdWithAck →
  well_formed definition data →
  ByteLength (Def.Fields definition) + 10 < 2 ^ 16 →
  Forall (λ b, b ≠ Byte.x3c) garbage →
  ∃ bytes packet',
    toBinary computeCrc8 (newPacket definition cmd instanceID data) = Ok bytes
    ∧ read_turn computeCrc8 definitions
        (GoSlice.mk (garbage ++ bytes ++ rest) spare)
      = Ret (Continue packet'
               (Some (Packet.mk definition cmd
                        (Packet.length
                           (newPacket definition cmd instanceID data))
                        (if Def.SingleInstance definition then 0
                         else instanceID)
                        data))
               None)
    ∧ GoSlice.elems packet' = rest.
Proof.
  intros Hreg Hid Hinst Hcmd Hwf Hsmall Hgarbage.
  destruct (uAVTalkToMap_mapToUAVTalk definition data Hwf)
    as (payload & Henc & Hlen & Hdec).
  pose proof (newPacket_length_range definition cmd instanceID data) as HL.
  set (L := Packet.length (newPacket definition cmd instanceID data)) in *.
  assert (Hpacket : newPacket definition cmd instanceID data
                    = Packet.mk definition cmd L instanceID data) by done.
  assert (Hbin : toBinary computeCrc8 (newPacket definition cmd instanceID data)
                 = Ok (frame_header (Packet.mk definition cmd L instanceID data)
                         ++ payload
                         ++ [computeCrc8 (byte.of_Z 0)
                               (frame_header
                                  (Packet.mk definition cmd L instanceID data)
                                  ++ payload)])).
  { rewrite toBinary_frame, Hpacket. cbn [Packet.cmd Packet.definition
      Packet.data]. by rewrite bool_decide_true, Henc by done. }
  set (header := frame_header (Packet.mk definition cmd L instanceID data))
    in *.
  set (cks := computeCrc8 (byte.of_Z 0) (header ++ payload)) in *.
  assert (Hhdr : Z.of_nat (length header)
                 = if negb (Def.SingleInstance definition)
                   then shortHeaderLength + 2 else shortHeaderLength)
    by apply frame_header_length.
  assert (Hfit : Z.of_nat (length (header ++ payload ++ [cks])) - 1 < 2 ^ 16).
  { rewrite !length_app. cbn [length]. unfold shortHeaderLength in Hhdr.
    destruct (negb _); lia. }
  destruct (toBinary_body _ _ _ _ _ Hbin Hfit)
    as (body & Hbody & Hhead & Hlen8 & Hfield & _).
  assert (body = header ++ payload) as ->.
  { rewrite app_assoc in Hbody. by apply app_inj_tail in Hbody as [<- _]. }
  set (elems := garbage ++ (header ++ payload) ++ cks :: rest).
  assert (Hall : length elems
                 = (length garbage + length (header ++ payload)
                    + S (length rest))%nat).
  { unfold elems. rewrite !length_app. simpl. lia. }
  destruct (discard_within (GoSlice.mk elems spare)
              (Z.of_nat (length garbage) + Z.of_nat (length (header ++ payload))
               + 1)) as (packet' & Hdiscard & Hrest & _).
  { unfold GoSlice.len. cbn [GoSlice.elems]. lia. }
  exists (header ++ payload ++ [cks]), packet'. split; [done|].
  clearbody L. clear Hpacket Hbin Hbody.
  split.
  - unfold read_turn.
    replace (garbage ++ (header ++ payload ++ [cks]) ++ rest) with elems
      by (unfold elems; by rewrite <- !app_assoc).
    assert (Hscan : packetComplete computeCrc8 (GoSlice.mk elems spare)
              = Ret (true, Z.of_nat (length garbage),
                     Z.of_nat (length garbage)
                     + Z.of_nat (length (header ++ payload)) + 1, None)).
    { unfold elems. rewrite packetComplete_verdict by (done || lia).
      by rewrite bool_decide_false by (by intros H; apply H). }
    rewrite Hscan. ret_bind. cbn [negb]. cbv iota.
    rewrite slice_within by (unfold GoSlice.len; cbn [GoSlice.elems]; lia).
    ret_bind. cbn [GoSlice.elems GoSlice.spare].
    replace (take _ (drop _ elems)) with (header ++ payload ++ [cks]).
    2:{ rewrite Nat2Z.id. unfold elems. rewrite drop_app_length.
        replace (Z.to_nat _) with (length ((header ++ payload) ++ [cks]))
          by (rewrite (length_app _ [cks]); simpl; lia).
        replace ((header ++ payload) ++ cks :: rest)
          with (((header ++ payload) ++ [cks]) ++ rest)
          by (by rewrite <- !app_assoc).
        by rewrite take_app_length, <- app_assoc. }
    rewrite (newPacketFromBinary_frame definition cmd L instanceID data
               payload cks)
      by (done || (unfold objectCmd, objectCmdWithAck in *; lia)).
    rewrite bool_decide_true, Hdec by done. ret_bind.
    rewrite Hdiscard. done.
  - rewrite Hrest. cbn [GoSlice.elems].
    replace (Z.to_nat _)
      with (length (garbage ++ (header ++ payload) ++ [cks]))
      by (rewrite (length_app garbage), (length_app (header ++ payload));
          cbn [length]; lia).
    unfold elems.
    replace (garbage ++ (header ++ payload) ++ cks :: rest)
      with ((garbage ++ (header ++ payload) ++ [cks]) ++ rest)
      by (by rewrite <- !app_assoc).
    apply drop_app_length.
Qed.

(** X13. The reader's turn on a buffer that holds, behind bytes without a
    sync byte, a frame written by [toBinary] for a Cmd or CmdWithAck packet
    of a registered definition with a well-formed data map, whose fields
    take fewer than 2^16 - 10 bytes, followed by any bytes: the frame is
    found, decoded to the packet that was encoded (with instance ID 0 when
    the definition is single-instance, the frame carrying none) and sent
    on, nothing is logged, and the buffer is left with exactly the bytes
    that followed the frame. *)
Theorem reader_extracts_an_encoded_frame (definition : Def.t)
    (cmd instanceID : Z) (data : Object) (garbage rest spare : list byte) :
  registered definitions definition →
  0 <= Def.ObjectID definition < 2 ^ 32 →
  0 <= instanceID < 2 ^ 16 →
  cmd = objectCmd ∨ cmd = objectCmdWithAck →
  well_formed definition data →
  ByteLength (Def.Fields definition) + 10 < 2 ^ 16 →
  Forall (λ b, b ≠ Byte.x3c) garbage →
  ∃ bytes packet',
    toBinary computeCrc8 (newPacket definition cmd instanceID data) = Ok bytes
    ∧ read_turn computeCrc8 definitions
        (GoSlice.mk (garbage ++ bytes ++ rest) spare)
      = Ret (Continue packet'
               (Some (Packet.mk definition cmd
                        (Packet.length
                           (newPacket definition cmd instanceID data))
                        (if Def.SingleInstance definition then 0
                         else instanceID)
                        data))
               None)
    ∧ GoSlice.elems packet' = rest.
Proof. apply read_turn_frame. Qed.

(** What a turn that goes on has done: it came from a candidate frame
    [from, to) of the scanner, it dropped the bytes below [to], and it
    either sent one packet or logged one warning. *)
Lemma read_turn_Continue (packet packet' : GoSlice.t)
    (sent : option Packet.t) (warning : option error) :
  read_turn computeCrc8 definitions packet
  = Ret (Continue packet' sent warning) →
  ∃ to, 0 < to <= GoSlice.len packet
        ∧ GoSlice.elems packet' = drop (Z.to_nat to) (GoSlice.elems packet)
        ∧ (length (option_list sent) + length (option_list warning) = 1)%nat.
Proof.
  unfold read_turn.
  destruct (packetComplete computeCrc8 packet) as [[[[ok from] to] err]|]
    eqn:Hscan; [|done].
  ret_bind.
  assert (Hcand : ok = true ∨ err ≠ None →
                  0 < to <= GoSlice.len packet).
  { intros Hc.
    destruct (packetComplete_candidate _ _ _ _ _ _ Hscan Hc)
      as (_ & ? & ? & ? & _). lia. }
  destruct err as [e|].
  - destruct (GoSlice.slice packet from to); [|done]. ret_bind.
    intros Hd. exists to.
    destruct (Hcand ltac:(by right)) as [Hlo Hhi].
    destruct (discard_within packet to ltac:(lia)) as (p1 & Hp1 & He & _).
    rewrite Hp1 in Hd. injection Hd as <- <- <-. done.
  - destruct ok; cbn [negb]; [|done].
    destruct (GoSlice.slice packet from to) as [frame|]; [|done]. ret_bind.
    destruct (newPacketFromBinary definitions frame) as [r|]; [|done].
    destruct (Hcand ltac:(by left)) as [Hlo Hhi].
    destruct (discard_within packet to ltac:(lia)) as (p1 & Hp1 & He & _).
    destruct r; ret_bind; rewrite Hp1; intros [= <- <- <-]; by exists to.
Qed.

(** X14. When the scanner reports a candidate frame whose checksum does
    not match, the reader's turn goes on: the error of [packetComplete] is
    the warning logged, nothing is decoded or sent, and the buffer keeps
    exactly the bytes from [to] on, fewer than before. *)
Theorem corrupt_frame_is_warned_and_dropped (packet : GoSlice.t)
    (from to : Z) (e : error) :
  packetComplete computeCrc8 packet = Ret (false, from, to, Some e) →
  e = WrongCrc8
  ∧ ∃ packet',
      read_turn computeCrc8 definitions packet
      = Ret (Continue packet' None (Some WrongCrc8))
      ∧ GoSlice.elems packet' = drop (Z.to_nat to) (GoSlice.elems packet)
      ∧ GoSlice.len packet' < GoSlice.len packet.
Proof.
  intros Hscan.
  destruct (packetComplete_candidate _ _ _ _ _ _ Hscan ltac:(by right))
    as (_ & Hfrom & Hto & Hlen & [[? _]|[_ He]]); [done|].
  injection He as ->. split; [done|].
  destruct (discard_within packet to ltac:(lia)) as (packet' & Hd & He & Hl).
  exists packet'. unfold read_turn. rewrite Hscan. ret_bind.
  rewrite slice_within by lia. ret_bind. rewrite Hd. ret_bind.
  repeat split; [done|lia].
Qed.

(** X15. The inner loop of the reader always ends: with more turns
    allowed than the buffer has bytes, [read_loop] never runs out of
    turns.  When it returns, the buffer left is a suffix of the one it
    started with, on which the next turn breaks, and every packet sent or
    warning logged has cost at least one byte of the buffer. *)
Theorem read_loop_terminates (fuel : nat) (packet : GoSlice.t) :
  (length (GoSlice.elems packet) < fuel)%nat →
  read_loop computeCrc8 definitions fuel packet = Panic
  ∨ ∃ final packets warnings,
      read_loop computeCrc8 definitions fuel packet
      = Ret (Some (final, packets, warnings))
      ∧ GoSlice.elems final `suffix_of` GoSlice.elems packet
      ∧ read_turn computeCrc8 definitions final = Ret Break
      ∧ (length packets + length warnings + length (GoSlice.elems final)
         ≤ length (GoSlice.elems packet))%nat.
Proof.
  revert packet. induction fuel as [|fuel IH]; intros packet Hfuel; [lia|].
  simpl.
  destruct (read_turn computeCrc8 definitions packet) as [[|p1 sent warning]|]
    eqn:Hturn; ret_bind; [| |by left].
  - right. exists packet, [], []. by repeat split.
  - destruct (read_turn_Continue _ _ _ _ Hturn) as (to & Hto & Helems & Hone).
    unfold GoSlice.len in Hto.
    assert (Hlen1 : (length (GoSlice.elems p1) + Z.to_nat to
                     = length (GoSlice.elems packet))%nat).
    { rewrite Helems, length_drop. lia. }
    destruct (IH p1 ltac:(lia))
      as [->|(final & packets & warnings & -> & Hsuf & Hbreak & Hcount)];
      [by left|right].
    ret_bind. eexists _, _, _. split; [done|]. repeat split.
    + etrans; [exact Hsuf|]. rewrite Helems. apply suffix_drop.
    + done.
    + rewrite !length_app. lia.
Qed.

Lemma read_turn_without_sync (packet : GoSlice.t) :
  Forall (λ b, b ≠ Byte.x3c) (GoSlice.elems packet) →
  read_turn computeCrc8 definitions packet = Ret Break.
Proof.
  intros Hall. unfold read_turn, packetComplete.
  by rewrite find_sync_none.
Qed.

(** X19. Writer and reader compose: when the buffer holds the bytes the
    writer goroutine puts on the link for a sequence of sendable packets
    (Cmd or CmdWithAck packets of [newPacket] for registered definitions,
    with well-formed data and fields of fewer than 2^16 - 10 bytes), the
    reader's inner loop sends on exactly those packets, in order and as
    the wire carries them (instance ID 0 for a single-instance
    definition), logs no warning and leaves the buffer empty, given one
    turn more than there are packets. *)
Theorem written_stream_is_read_back (packets : list Packet.t)
    (spare : list byte) (fuel : nat) :
  Forall (sendable definitions) packets →
  (length packets < fuel)%nat →
  ∃ final,
    read_loop computeCrc8 definitions fuel
      (GoSlice.mk (write_loop computeCrc8 packets) spare)
    = Ret (Some (final, received <$> packets, []))
    ∧ GoSlice.elems final = [].
Proof.
  intros Hall. revert spare fuel.
  induction Hall as [|p ps Hp _ IH]; intros spare fuel Hfuel;
    (destruct fuel as [|fuel]; [simpl in Hfuel; lia|]).
  - cbn [write_loop read_loop].
    rewrite read_turn_without_sync by constructor.
    by eexists.
  - destruct Hp as (Hreg & Hid & Hinst & Hcmd & Hwf & Hsmall & Hnew).
    destruct (read_turn_frame _ _ _ _ [] (write_loop computeCrc8 ps) spare
                Hreg Hid Hinst Hcmd Hwf Hsmall ltac:(constructor))
      as (bytes & packet' & Hbin & Hturn & Hrest).
    rewrite <- Hnew in Hbin, Hturn.
    cbn [write_loop read_loop]. rewrite Hbin.
    rewrite app_nil_l in Hturn. rewrite Hturn. ret_bind.
    destruct packet' as [elems spare']. cbn [GoSlice.elems] in Hrest.
    subst elems.
    destruct (IH spare' fuel) as (final & -> & Hfinal).
    { simpl in Hfuel. lia. }
    ret_bind. by exists final.
Qed.

End Pipeline.

(** * Further properties of the loader *)

Lemma split_on_length (sep : ascii) (s : string) :
  (0 < length (split_on sep s))%nat.
Proof.
  induction s as [|c s IH]; simpl; [lia|].
  case_bool_decide; simpl; [lia|].
  destruct (split_on sep s); simpl; lia.
Qed.

Lemma string_length_pos (s : string) :
  (0 <? Z.of_nat (String.length s)) = true ↔ s ≠ "".
Proof.
  destruct s; simpl; [done|].
  split; [done|]. intros _. apply Z.ltb_lt. lia.
Qed.

Lemma FieldForName_is_Some (fields : list Field.t) (name : string) :
  name ∈ Field.Name <$> fields → is_Some (FieldForName fields name).
Proof.
  induction fields as [|f fields IH]; simpl.
  - by intros ?%elem_of_nil.
  - case_bool_decide as Hf; [done|].
    intros [?|?]%elem_of_cons; [congruence|by apply IH].
Qed.

Section LoaderFacts.

Variable FieldTypeForString : string → option FieldType.
Variable less : Field.t → Field.t → bool.
Variable calculateID : Def.t → Z.

(** What the first loop leaves of one field. *)
Lemma post_process_Ok (f g : Field.t) :
  post_process FieldTypeForString f = Ok g →
  Field.Name g = Field.Name f
  ∧ Field.CloneOf g = Field.CloneOf f
  ∧ (Field.CloneOf f ≠ "" → g = f)
  ∧ (Field.CloneOf f = "" →
     Field.FieldTypeInfo g = FieldTypeForString (Field.Type_ g)
     ∧ is_Some (Field.FieldTypeInfo g)
     ∧ Field.Elements g ≠ 0
     ∧ (Field.ElementNames g ≠ [] →
        Field.Elements g = Z.of_nat (length (Field.ElementNames g)))
     ∧ (Field.ElementNamesAttr g ≠ "" →
        Field.ElementNames g = split_on comma (Field.ElementNamesAttr g))
     ∧ (Field.OptionsAttr g ≠ "" →
        Field.Options g = split_on comma (Field.OptionsAttr g))).
Proof.
  unfold post_process.
  destruct (negb _) eqn:Hclone.
  { intros [= <-]. apply is_clone_spec in Hclone. done. }
  assert (Hplain : Field.CloneOf f = "").
  { destruct (decide (Field.CloneOf f = "")) as [|Hne]; [done|].
    apply is_clone_spec in Hne. congruence. }
  destruct (FieldTypeForString (Field.Type_ f)) as [info|] eqn:Hinfo.
  2:{ by repeat destruct (_ <? _). }
  pose proof (split_on_length comma (Field.ElementNamesAttr f)) as Hsplit.
  destruct (0 <? Z.of_nat (String.length (Field.ElementNamesAttr f)))
    eqn:Hattr;
    [|destruct (0 <? Z.of_nat (length (Field.ElementNames f))) eqn:Hnames];
    intros [= <-]; simpl; (split; [done|]); (split; [done|]);
    (split; [done|]); intros _; rewrite Hinfo;
    (split; [done|]); (split; [done|]).
  - split; [lia|]. split; [done|]. split; [done|].
    intros Hopt. apply string_length_pos in Hopt. by rewrite Hopt.
  - apply Z.ltb_lt in Hnames. split; [lia|]. split; [done|].
    split.
    + intros Hne. apply string_length_pos in Hne. congruence.
    + intros Hopt. apply string_length_pos in Hopt. by rewrite Hopt.
  - apply Z.ltb_ge in Hnames. split.
    + destruct (Z.eqb_spec (Field.Elements f) 0); lia.
    + split.
      * intros Hne. destruct (Field.ElementNames f); [done|simpl in *; lia].
      * split.
        -- intros Hne. apply string_length_pos in Hne. congruence.
        -- intros Hopt. apply string_length_pos in Hopt. by rewrite Hopt.
Qed.

Lemma post_process_all_Forall2 (fields loaded : list Field.t) :
  post_process_all FieldTypeForString fields = Ok loaded →
  Forall2 (λ f g, post_process FieldTypeForString f = Ok g) fields loaded.
Proof.
  revert loaded. induction fields as [|f fields IH]; intros loaded; simpl.
  { intros [= <-]. constructor. }
  destruct (post_process FieldTypeForString f) as [g|] eqn:Hf; [|done].
  destruct (post_process_all FieldTypeForString fields) as [rest|]; [|done].
  intros [= <-]. constructor; [done|by apply IH].
Qed.

Lemma post_process_all_names (fields loaded : list Field.t) :
  post_process_all FieldTypeForString fields = Ok loaded →
  (λ f, (Field.Name f, Field.CloneOf f)) <$> loaded
  = (λ f, (Field.Name f, Field.CloneOf f)) <$> fields.
Proof.
  intros H. apply post_process_all_Forall2 in H.
  induction H as [|f g fields loaded Hfg _ IH]; [done|].
  rewrite !fmap_cons, IH.
  by destruct (post_process_Ok _ _ Hfg) as (-> & -> & _).
Qed.

Lemma create_clones_names (n : nat) :
  ∀ (i : nat) (fields resolved : list Field.t),
    create_clones n i fields = Ok resolved →
    (λ f, (Field.Name f, Field.CloneOf f)) <$> resolved
    = (λ f, (Field.Name f, Field.CloneOf f)) <$> fields.
Proof.
  induction n as [|n IH]; intros i fields resolved; simpl.
  { by intros [= <-]. }
  destruct (fields !! i) as [field|] eqn:Hfield; [|by intros [= <-]].
  destruct (negb _); [|apply IH].
  destruct (FieldForName fields (Field.CloneOf field)) as [cloned|]; [|done].
  intros Hrest. rewrite (IH _ _ _ Hrest), list_fmap_insert. simpl.
  apply list_insert_id. by rewrite list_lookup_fmap, Hfield.
Qed.

(** X16. Every field of a loaded definition that is not a clone has its
    type information, the one [FieldTypeForString] gives for its type
    name; its element count is not 0; it equals the number of element
    names when there are any; and the element names and the options are
    the comma-separated parts of the corresponding attribute when that
    attribute is not empty. *)
Theorem loaded_plain_fields_are_resolved (content loaded_definition : Def.t)
    (f : Field.t) :
  newDefinition FieldTypeForString less calculateID content
  = Ok loaded_definition →
  f ∈ Def.Fields loaded_definition →
  Field.CloneOf f = "" →
  Field.FieldTypeInfo f = FieldTypeForString (Field.Type_ f)
  ∧ is_Some (Field.FieldTypeInfo f)
  ∧ Field.Elements f ≠ 0
  ∧ (Field.ElementNames f ≠ [] →
     Field.Elements f = Z.of_nat (length (Field.ElementNames f)))
  ∧ (Field.ElementNamesAttr f ≠ "" →
     Field.ElementNames f = split_on comma (Field.ElementNamesAttr f))
  ∧ (Field.OptionsAttr f ≠ "" →
     Field.Options f = split_on comma (Field.OptionsAttr f)).
Proof.
  unfold newDefinition.
  destruct (post_process_all _ _) as [loaded|] eqn:Hloaded; [|done].
  destruct (create_clones _ _ _) as [resolved|] eqn:Hresolved; [|done].
  intros [= <-]. simpl. rewrite sort_stable_perm.
  intros [i Hi]%list_elem_of_lookup Hplain.
  destruct (create_clones_spec _ _ _ _ Hresolved) as (Hlen & _ & _ & Hkeep).
  destruct (lookup_lt_is_Some_2 loaded i) as [g Hg].
  { rewrite <- Hlen. by eapply lookup_lt_Some. }
  assert (Hgplain : Field.CloneOf g = "").
  { pose proof (create_clones_names _ _ _ _ Hresolved) as Hnames.
    apply (f_equal (λ l, l !! i)) in Hnames.
    rewrite !list_lookup_fmap, Hi, Hg in Hnames. simpl in Hnames. congruence. }
  rewrite (Hkeep _ _ Hg Hgplain) in Hi. injection Hi as ->.
  apply post_process_all_Forall2 in Hloaded.
  destruct (Forall2_lookup_r _ _ _ _ _ Hloaded Hg) as (f0 & _ & Hf0).
  destruct (post_process_Ok _ _ Hf0) as (_ & Hc & _ & Hres).
  apply Hres. congruence.
Qed.

(** X17. Loading neither adds, drops nor renames a field: the fields of a
    loaded definition carry, up to the order fixed by the sort, the same
    names and [cloneOf] values as the decoded ones; the definition keeps
    its name and its single-instance flag, and its object ID is what
    [calculateID] computes from the definition with the sorted fields. *)
Theorem loading_keeps_names (content loaded_definition : Def.t) :
  newDefinition FieldTypeForString less calculateID content
  = Ok loaded_definition →
  (λ f, (Field.Name f, Field.CloneOf f)) <$> Def.Fields loaded_definition
  ≡ₚ (λ f, (Field.Name f, Field.CloneOf f)) <$> Def.Fields content
  ∧ Def.Name loaded_definition = Def.Name content
  ∧ Def.SingleInstance loaded_definition = Def.SingleInstance content
  ∧ Def.ObjectID loaded_definition
    = calculateID (Def.mk (Def.Name content) (Def.ObjectID content)
                          (Def.SingleInstance content)
                          (Def.Fields loaded_definition)).
Proof.
  unfold newDefinition.
  destruct (post_process_all _ _) as [loaded|] eqn:Hloaded; [|done].
  destruct (create_clones _ _ _) as [resolved|] eqn:Hresolved; [|done].
  intros [= <-]. simpl. repeat split.
  rewrite sort_stable_perm.
  by rewrite (create_clones_names _ _ _ _ Hresolved),
             (post_process_all_names _ _ Hloaded).
Qed.

Lemma post_process_succeeds (f : Field.t) :
  (∃ g, post_process FieldTypeForString f = Ok g)
  ↔ (Field.CloneOf f = "" → is_Some (FieldTypeForString (Field.Type_ f))).
Proof.
  unfold post_process. destruct (negb _) eqn:Hclone.
  - apply is_clone_spec in Hclone. split; [done|]. intros _. by eexists.
  - assert (Hplain : Field.CloneOf f = "").
    { destruct (decide (Field.CloneOf f = "")) as [|Hne]; [done|].
      apply is_clone_spec in Hne. congruence. }
    destruct (FieldTypeForString (Field.Type_ f)) as [info|].
    + split; [done|]. intros _.
      repeat destruct (_ <? _); by eexists.
    + split.
      * intros [g Hg]. by repeat destruct (_ <? _).
      * intros H. by destruct (H Hplain).
Qed.

Lemma post_process_all_succeeds (fields : list Field.t) :
  (∃ loaded, post_process_all FieldTypeForString fields = Ok loaded)
  ↔ (∀ f, f ∈ fields → Field.CloneOf f = "" →
          is_Some (FieldTypeForString (Field.Type_ f))).
Proof.
  induction fields as [|f fields IH]; simpl.
  { split; [by intros _ f ?%elem_of_nil|]. intros _. by eexists. }
  split.
  - intros [loaded Hloaded] f' Hf'.
    destruct (post_process FieldTypeForString f) as [g|] eqn:Hf; [|done].
    destruct (post_process_all FieldTypeForString fields) as [rest|];
      [|done].
    apply elem_of_cons in Hf' as [->|Hf'].
    + apply post_process_succeeds. by eexists.
    + apply (proj1 IH); [by eexists|done].
  - intros Hall.
    destruct (proj2 (post_process_succeeds f)) as [g ->].
    { apply Hall. by left. }
    destruct (proj2 IH) as [rest ->].
    { intros f' Hf'. apply Hall. by right. }
    by eexists.
Qed.

Lemma create_clones_succeeds (n : nat) :
  ∀ (i : nat) (fields : list Field.t),
    (∀ j f, (i ≤ j)%nat → fields !! j = Some f → Field.CloneOf f ≠ "" →
            Field.CloneOf f ∈ Field.Name <$> fields) →
    ∃ resolved, create_clones n i fields = Ok resolved.
Proof.
  induction n as [|n IH]; intros i fields Hall; simpl; [by eexists|].
  destruct (fields !! i) as [field|] eqn:Hfield; [|by eexists].
  destruct (negb _) eqn:Hclone.
  - apply is_clone_spec in Hclone.
    destruct (FieldForName_is_Some fields (Field.CloneOf field))
      as [cloned ->].
    { by apply (Hall i). }
    apply IH. intros j f Hj Hf.
    rewrite list_lookup_insert_ne in Hf by lia.
    rewrite list_fmap_insert, clone_of_Name.
    rewrite (list_insert_id (Field.Name <$> fields))
      by (by rewrite list_lookup_fmap, Hfield).
    apply (Hall j); [lia|done].
  - apply IH. intros j f Hj. apply Hall. lia.
Qed.

Lemma create_clones_sources (loaded resolved : list Field.t) (f : Field.t) :
  create_clones (length loaded) 0 loaded = Ok resolved →
  f ∈ loaded → Field.CloneOf f ≠ "" →
  Field.CloneOf f ∈ Field.Name <$> loaded.
Proof.
  intros Hall [i Hi]%list_elem_of_lookup Hclone.
  destruct (create_clones_at _ _ _ _ Hall Hi Hclone)
    as (before & cloned & Hbefore & Hsrc & _).
  destruct (create_clones_spec _ _ _ _ Hbefore) as (_ & <- & _).
  apply FieldForName_Some in Hsrc as (j & Hj & <-).
  apply list_elem_of_lookup. exists j. by rewrite list_lookup_fmap, Hj.
Qed.

(** X18. [newDefinition] succeeds exactly when every field that is not a
    clone has a type name known to [FieldTypeForString] and every clone's
    [cloneOf] is the name of a field of the definition. *)
Theorem newDefinition_succeeds_exactly_when (content : Def.t) :
  (∃ loaded_definition,
     newDefinition FieldTypeForString less calculateID content
     = Ok loaded_definition)
  ↔ (∀ f, f ∈ Def.Fields content → Field.CloneOf f = "" →
          is_Some (FieldTypeForString (Field.Type_ f)))
    ∧ (∀ f, f ∈ Def.Fields content → Field.CloneOf f ≠ "" →
            Field.CloneOf f ∈ Field.Name <$> Def.Fields content).
Proof.
  assert (Hpairs : ∀ loaded,
    post_process_all FieldTypeForString (Def.Fields content) = Ok loaded →
    Field.Name <$> loaded = Field.Name <$> Def.Fields content
    ∧ Field.CloneOf <$> loaded = Field.CloneOf <$> Def.Fields content).
  { intros loaded Hloaded. apply post_process_all_names in Hloaded.
    split.
    - apply (f_equal (fmap fst)) in Hloaded.
      by rewrite <- !list_fmap_compose in Hloaded.
    - apply (f_equal (fmap snd)) in Hloaded.
      by rewrite <- !list_fmap_compose in Hloaded. }
  assert (Hsame : ∀ loaded,
    post_process_all FieldTypeForString (Def.Fields content) = Ok loaded →
    (∀ f, f ∈ loaded → Field.CloneOf f ≠ "" →
          Field.CloneOf f ∈ Field.Name <$> loaded)
    ↔ (∀ f, f ∈ Def.Fields content → Field.CloneOf f ≠ "" →
            Field.CloneOf f ∈ Field.Name <$> Def.Fields content)).
  { intros loaded Hloaded. destruct (Hpairs _ Hloaded) as [Hn Hc].
    rewrite Hn.
    split; intros H f Hf Hne.
    - assert (Hin : Field.CloneOf f ∈ Field.CloneOf <$> loaded).
      { rewrite Hc. by apply list_elem_of_fmap_2. }
      apply list_elem_of_fmap in Hin as (g & Hg & Hgl).
      rewrite Hg. apply H; [done|congruence].
    - assert (Hin : Field.CloneOf f ∈ Field.CloneOf <$> Def.Fields content).
      { rewrite <- Hc. by apply list_elem_of_fmap_2. }
      apply list_elem_of_fmap in Hin as (g & Hg & Hgl).
      rewrite Hg. apply H; [done|congruence]. }
  unfold newDefinition. split.
  - intros [d Hd].
    destruct (post_process_all _ _) as [loaded|] eqn:Hloaded; [|done].
    destruct (create_clones _ _ _) as [resolved|] eqn:Hresolved; [|done].
    split.
    + apply post_process_all_succeeds. by eexists.
    + apply (Hsame _ eq_refl). intros f.
      by apply (create_clones_sources _ _ _ Hresolved).
  - intros [Htypes Hclones].
    destruct (proj2 (post_process_all_succeeds _) Htypes) as [loaded Hloaded].
    specialize (Hsame _ Hloaded). rewrite Hloaded.
    destruct (create_clones_succeeds (length loaded) 0 loaded)
      as [resolved ->]; [|by eexists].
    intros j f _ Hj. apply Hsame; [done|].
    by eapply list_elem_of_lookup_2.
Qed.

End LoaderFacts.

(** * The further properties on concrete inputs *)

(** The sample hub keeps its cases in step with its connections. *)
Lemma sample_hub_in_step : cases_in_step sample_heap sample_hub.
Proof.
  split; [reflexivity|]. split; [reflexivity|].
  intros i connection Hi.
  destruct i as [|[|[|i]]]; simpl in Hi; inversion Hi; subst connection;
    eexists; split; reflexivity.
Defined.

(** The Cmd packet for the [HomeLocation] object of the scenario. *)
Lemma homeLocation_packet_sendable :
  sendable [homeLocation]
           (newPacket homeLocation objectCmd 0 homeLocation_zero).
Proof.
  split; [reflexivity|]. split; [simpl; lia|]. split; [simpl; lia|].
  split; [by left|]. split; [exact well_formed_homeLocation_zero|].
  split; [vm_compute; reflexivity|reflexivity].
Defined.

(** X1 on the sample hub: the owner at slot 1 subscribes. *)
Lemma hub_only_appends_witness :
  run [(2, MsgSubscription (Subscription.mk 0xCA32B032), true)]
      sample_hub sample_heap
  = Ret (sample_hub, sample_heap_subscribed)
  ∧ heap_grows sample_heap sample_heap_subscribed.
Proof.
  assert (H : run [(2, MsgSubscription (Subscription.mk 0xCA32B032), true)]
                  sample_hub sample_heap
              = Ret (sample_hub, sample_heap_subscribed))
    by (vm_compute; reflexivity).
  split; [exact H|].
  exact (hub_only_appends _ _ _ _ _ H).
Defined.

(** X2 on the sample hub of three connections, with index 5: the last
    connection and the last case are cut off. *)
Lemma removeConnectionAt_on_every_index_witness :
  removeConnectionAt 5 sample_hub
  = Ret (Dispatcher.mk [1%nat; 2%nat]
           [mkSelectCase SelectRecv 7%nat; mkSelectCase SelectRecv 11%nat;
            mkSelectCase SelectRecv 12%nat] 7%nat).
Proof.
  exact (removeConnectionAt_on_every_index 5 sample_hub eq_refl).
Defined.

(** X3 on the sample hub: [connectionChan] is reported closed. *)
Lemma closed_control_channel_panics_witness :
  processChannels 0 MsgOther false sample_hub sample_heap = Panic
  ∧ run [(0, MsgOther, false)] sample_hub sample_heap = Panic.
Proof.
  apply (closed_control_channel_panics 0 MsgOther sample_hub sample_heap []).
  left. lia.
Defined.

(** X4 on the sample hub, reached by registering address 3. *)
Lemma remove_undoes_add_witness :
  removeConnectionAt 2 sample_hub
  = Ret (Dispatcher.mk [1%nat; 2%nat]
           [mkSelectCase SelectRecv 7%nat; mkSelectCase SelectRecv 11%nat;
            mkSelectCase SelectRecv 12%nat] 7%nat).
Proof.
  exact (remove_undoes_add sample_heap 3%nat
           (Dispatcher.mk [1%nat; 2%nat]
              [mkSelectCase SelectRecv 7%nat; mkSelectCase SelectRecv 11%nat;
               mkSelectCase SelectRecv 12%nat] 7%nat)
           sample_hub eq_refl eq_refl).
Defined.

(** X5 on the sample hub: the channel of the connection at slot 1 is
    closed. *)
Lemma processChannels_keeps_cases_in_step_witness :
  run [(2, MsgOther, false)] sample_hub sample_heap
  = Ret (Dispatcher.mk [1%nat; 3%nat]
           [mkSelectCase SelectRecv 7%nat; mkSelectCase SelectRecv 11%nat;
            mkSelectCase SelectRecv 13%nat] 7%nat, sample_heap)
  ∧ cases_in_step sample_heap
      (Dispatcher.mk [1%nat; 3%nat]
         [mkSelectCase SelectRecv 7%nat; mkSelectCase SelectRecv 11%nat;
          mkSelectCase SelectRecv 13%nat] 7%nat).
Proof.
  assert (H : run [(2, MsgOther, false)] sample_hub sample_heap
              = Ret (Dispatcher.mk [1%nat; 3%nat]
                       [mkSelectCase SelectRecv 7%nat;
                        mkSelectCase SelectRecv 11%nat;
                        mkSelectCase SelectRecv 13%nat] 7%nat, sample_heap))
    by (vm_compute; reflexivity).
  split; [exact H|].
  exact (processChannels_keeps_cases_in_step _ _ _ _ _ sample_hub_in_step H).
Defined.

(** X6 on the sample hub: the owner at slot 1, address 2, announces
    [HomeLocation] once more; the connections at addresses 1 and 3 find
    exactly that Definition on their inbound queues, the owner's queue
    stays empty and its definitions hold the announcement twice. *)
Lemma definition_is_recorded_and_broadcast_witness :
  ∃ h', processChannels 2 (MsgDefinition homeLocation) true
                        sample_hub sample_heap
        = Ret (sample_hub, h')
        ∧ Connection.definitions <$> h' !! 2%nat
          = Some [homeLocation; homeLocation]
        ∧ Connection.InChan <$> h' !! 2%nat = Some []
        ∧ Connection.InChan <$> h' !! 1%nat = Some [MsgDefinition homeLocation]
        ∧ Connection.InChan <$> h' !! 3%nat
          = Some [MsgDefinition homeLocation].
Proof.
  assert (Hnd : NoDup (Dispatcher.connections sample_hub)) by compute_done.
  destruct (definition_is_recorded_and_broadcast sample_hub sample_heap 2
              homeLocation 2%nat (owner_connection 12%nat)
              sample_hub_live Hnd eq_refl eq_refl)
    as (h' & Hrun & _ & _ & Hdefinitions & Hqueue & Hothers & _).
  exists h'. split; [exact Hrun|]. split; [exact Hdefinitions|].
  split; [exact Hqueue|]. split.
  - apply (Hothers 1%nat (silent_connection 11%nat)).
    + discriminate.
    + simpl. left.
    + reflexivity.
  - apply (Hothers 3%nat (subscriber_connection 13%nat)).
    + discriminate.
    + simpl. right. right. left.
    + reflexivity.
Defined.

(** X7 on the sample hub: the Request for [HomeLocation] changes one
    record. *)
Lemma request_reaches_at_most_one_connection_witness :
  dispatchRequest homeLocation_request sample_hub sample_heap
  = Ret (<[1%nat := enqueue [MsgRequest homeLocation_request]
                            (silent_connection 11%nat)]> sample_heap)
  ∧ (<[1%nat := enqueue [MsgRequest homeLocation_request]
                        (silent_connection 11%nat)]> sample_heap = sample_heap
     ∨ ∃ q c, q ∈ Dispatcher.connections sample_hub
              ∧ sample_heap !! q = Some c
              ∧ GetDefinitionForObjectID (Connection.definitions c)
                  (Request.ObjectID homeLocation_request) = None
              ∧ <[1%nat := enqueue [MsgRequest homeLocation_request]
                                   (silent_connection 11%nat)]> sample_heap
                = <[q := enqueue [MsgRequest homeLocation_request] c]>
                    sample_heap).
Proof.
  assert (H : dispatchRequest homeLocation_request sample_hub sample_heap
              = Ret (<[1%nat := enqueue [MsgRequest homeLocation_request]
                                        (silent_connection 11%nat)]>
                       sample_heap))
    by reflexivity.
  split; [exact H|].
  exact (request_reaches_at_most_one_connection _ _ _ _ H).
Defined.

(** X10 on a buffer of two bytes, none of them the sync byte. *)
Lemma no_sync_byte_is_incomplete_witness :
  packetComplete crc8_example (GoSlice.mk [Byte.x00; Byte.x20] [])
  = Ret (false, 0, 0, None)
  ∧ read_turn crc8_example [homeLocation] (GoSlice.mk [Byte.x00; Byte.x20] [])
    = Ret Break
  ∧ ∀ fuel, read_loop crc8_example [homeLocation] (S fuel)
              (GoSlice.mk [Byte.x00; Byte.x20] [])
            = Ret (Some (GoSlice.mk [Byte.x00; Byte.x20] [], [], [])).
Proof.
  apply (no_sync_byte_is_incomplete crc8_example [homeLocation]
           (GoSlice.mk [Byte.x00; Byte.x20] [])).
  repeat (constructor; [discriminate|]). constructor.
Defined.

(** X11 on the [HomeLocation] frame behind one byte. *)
Lemma encoded_frame_is_complete_witness :
  packetComplete crc8_example
    (GoSlice.mk ([Byte.x00] ++ homeLocation_frame ++ []) [])
  = Ret (true, 1, 22, None).
Proof.
  refine (proj1 (encoded_frame_is_complete crc8_example homeLocation objectCmd
                   0 homeLocation_zero homeLocation_frame [Byte.x00] [] []
                   _ _ _)).
  - vm_compute. reflexivity.
  - vm_compute. reflexivity.
  - repeat (constructor; [discriminate|]). constructor.
Defined.

(** X12 on a Request for [HomeLocation]. *)
Lemma commands_without_payload_round_trip_witness :
  ∃ bytes,
    toBinary crc8_example (newPacket homeLocation objectRequest 0 ∅) = Ok bytes
    ∧ Z.of_nat (length bytes) = 9
    ∧ newPacketFromBinary [homeLocation] (GoSlice.mk bytes [])
      = Ret (Ok (Packet.mk homeLocation objectRequest 8 0 ∅)).
Proof.
  apply (commands_without_payload_round_trip crc8_example [homeLocation]
           homeLocation objectRequest 0 ∅ []).
  - reflexivity.
  - simpl. lia.
  - lia.
  - by left.
Defined.

(** X13 on the [HomeLocation] frame between two bytes. *)
Lemma reader_extracts_an_encoded_frame_witness :
  ∃ bytes packet',
    toBinary crc8_example (newPacket homeLocation objectCmd 0 homeLocation_zero)
    = Ok bytes
    ∧ read_turn crc8_example [homeLocation]
        (GoSlice.mk ([Byte.x00] ++ bytes ++ [Byte.x01]) [])
      = Ret (Continue packet'
               (Some (Packet.mk homeLocation objectCmd
                        (Packet.length
                           (newPacket homeLocation objectCmd 0
                                      homeLocation_zero))
                        (if Def.SingleInstance homeLocation then 0 else 0)
                        homeLocation_zero))
               None)
    ∧ GoSlice.elems packet' = [Byte.x01].
Proof.
  apply (reader_extracts_an_encoded_frame crc8_example [homeLocation]
           homeLocation objectCmd 0 homeLocation_zero [Byte.x00] [Byte.x01]
           []).
  - reflexivity.
  - simpl. lia.
  - lia.
  - by left.
  - exact well_formed_homeLocation_zero.
  - vm_compute. reflexivity.
  - repeat (constructor; [discriminate|]). constructor.
Defined.

(** X14 on the [HomeLocation] frame with its checksum byte replaced. *)
Lemma corrupt_frame_is_warned_and_dropped_witness :
  packetComplete crc8_example
    (GoSlice.mk (take 20 homeLocation_frame ++ [Byte.xff]) [])
  = Ret (false, 0, 21, Some WrongCrc8)
  ∧ ∃ packet',
      read_turn crc8_example [homeLocation]
        (GoSlice.mk (take 20 homeLocation_frame ++ [Byte.xff]) [])
      = Ret (Continue packet' None (Some WrongCrc8))
      ∧ GoSlice.elems packet' = []
      ∧ GoSlice.len packet' < 21.
Proof.
  assert (H : packetComplete crc8_example
                (GoSlice.mk (take 20 homeLocation_frame ++ [Byte.xff]) [])
              = Ret (false, 0, 21, Some WrongCrc8))
    by (vm_compute; reflexivity).
  split; [exact H|].
  exact (proj2 (corrupt_frame_is_warned_and_dropped crc8_example
                  [homeLocation] _ _ _ _ H)).
Defined.

(** X15 on the [HomeLocation] frame, with 22 turns for its 21 bytes. *)
Lemma read_loop_terminates_witness :
  read_loop crc8_example [homeLocation] 22 (GoSlice.mk homeLocation_frame [])
  = Panic
  ∨ ∃ final packets warnings,
      read_loop crc8_example [homeLocation] 22
                (GoSlice.mk homeLocation_frame [])
      = Ret (Some (final, packets, warnings))
      ∧ GoSlice.elems final `suffix_of` homeLocation_frame
      ∧ read_turn crc8_example [homeLocation] final = Ret Break
      ∧ (length packets + length warnings + length (GoSlice.elems final)
         ≤ length homeLocation_frame)%nat.
Proof.
  apply (read_loop_terminates crc8_example [homeLocation] 22
           (GoSlice.mk homeLocation_frame [])).
  simpl. lia.
Defined.

(** X16 on the sample definition: its field [Roll], loaded. *)
Lemma loaded_plain_fields_are_resolved_witness :
  newDefinition sample_FieldTypeForString sample_less sample_calculateID
                sample_content
  = Ok sample_loaded
  ∧ Field.FieldTypeInfo
      (Field.mk "Roll" "float" 1 "" [] "" [] "" (Some TFloat32))
    = sample_FieldTypeForString "float"
  ∧ Field.Elements (Field.mk "Roll" "float" 1 "" [] "" [] "" (Some TFloat32))
    ≠ 0.
Proof.
  assert (H : newDefinition sample_FieldTypeForString sample_less
                sample_calculateID sample_content
              = Ok sample_loaded) by (vm_compute; reflexivity).
  split; [exact H|].
  destruct (loaded_plain_fields_are_resolved sample_FieldTypeForString
              sample_less sample_calculateID sample_content sample_loaded
              (Field.mk "Roll" "float" 1 "" [] "" [] "" (Some TFloat32)) H)
    as (Hinfo & _ & Helements & _).
  - simpl. left.
  - reflexivity.
  - split; [exact Hinfo|exact Helements].
Defined.

(** X17 on the sample definition. *)
Lemma loading_keeps_names_witness :
  newDefinition sample_FieldTypeForString sample_less sample_calculateID
                sample_content
  = Ok sample_loaded
  ∧ (λ f, (Field.Name f, Field.CloneOf f)) <$> Def.Fields sample_loaded
    ≡ₚ (λ f, (Field.Name f, Field.CloneOf f)) <$> Def.Fields sample_content
  ∧ Def.Name sample_loaded = Def.Name sample_content.
Proof.
  assert (H : newDefinition sample_FieldTypeForString sample_less
                sample_calculateID sample_content
              = Ok sample_loaded) by (vm_compute; reflexivity).
  split; [exact H|].
  destruct (loading_keeps_names sample_FieldTypeForString sample_less
              sample_calculateID sample_content sample_loaded H)
    as (Hnames & Hname & _).
  split; [exact Hnames|exact Hname].
Defined.

(** X19 on two [HomeLocation] packets written one after the other. *)
Lemma written_stream_is_read_back_witness :
  ∃ final,
    read_loop crc8_example [homeLocation] 3
      (GoSlice.mk
         (write_loop crc8_example
            [newPacket homeLocation objectCmd 0 homeLocation_zero;
             newPacket homeLocation objectCmd 0 homeLocation_zero]) [])
    = Ret (Some (final,
                 received
                   <$> [newPacket homeLocation objectCmd 0 homeLocation_zero;
                        newPacket homeLocation objectCmd 0 homeLocation_zero],
                 []))
    ∧ GoSlice.elems final = [].
Proof.
  apply (written_stream_is_read_back crc8_example [homeLocation]
           [newPacket homeLocation objectCmd 0 homeLocation_zero;
            newPacket homeLocation objectCmd 0 homeLocation_zero] [] 3).
  - repeat (constructor; [exact homeLocation_packet_sendable|]). constructor.
  - simpl. lia.
Defined.
